(** * pypm: the package model, the package graph and the SAT-based resolver

    A shallow embedding of [pypm/package.py], [pypm/solver.py], of the
    methods of [PackageRepository] in [pypm/repository.py] that add, find,
    save and load packages, and of [parse_package_spec] from [pypm/cli.py],
    followed by the properties of the resolver that the specification
    states and by further properties of the code.

    Conventions of the embedding.
    - A Python [str] is a [string] (bytes; the text is taken to be ASCII).
    - A Python [int] is a [Z].
    - An exception is a value of [exn]; code that can raise returns a
      [result], and code that also threads the mutable fields of a [Solver]
      object returns an [outcome].
    - A [dict] is an association list in insertion order with one entry per
      key; a [set] of packages is a list without repetition (up to
      [Package.__eq__]), kept in the order of insertion.
    - A package file is what [json.load] reads from it, and [json.load] is
      taken to read what [json.dump] wrote.  Of [networkx.DiGraph] the
      nodes and edges are kept, in the order of insertion.
    - The recursion of [Solver._add_package_constraints] is bounded by a
      fuel: the depth of nested calls that are allowed.  [Diverges] is the
      answer of a run that needs a deeper nesting; a run that is
      [Diverges] at every depth does not end.  (CPython puts a limit on
      the depth of calls and on the length of the decimal text of an
      integer; both limits are left out.) *)

From Stdlib Require Import ZArith List Bool Ascii String Lia.
From Stdlib Require Import DecimalString DecimalZ DecimalPos.
From Stdlib Require Import Relations Permutation.
From Stdlib Require OrderedTypeEx.
Import ListNotations.

#[local] Open Scope string_scope.
#[local] Open Scope Z_scope.
#[local] Open Scope list_scope.

(** ** Python built-ins on strings and integers *)

Module Py.

(** [s.startswith(p)] *)
Definition startswith (s p : string) : bool := String.prefix p s.

(** [s[n:]] *)
Fixpoint drop (n : nat) (s : string) : string :=
  match n, s with
  | O, _ => s
  | S _, EmptyString => EmptyString
  | S n', String _ r => drop n' r
  end.

(** The characters [str.strip()] removes: tab, line feed, vertical tab,
    form feed, carriage return, the four separators 0x1c-0x1f, and space. *)
Definition isspace (c : ascii) : bool :=
  let n := nat_of_ascii c in
  ((9 <=? n)%nat && (n <=? 13)%nat) || ((28 <=? n)%nat && (n <=? 32)%nat).

Fixpoint lstrip (s : string) : string :=
  match s with
  | EmptyString => EmptyString
  | String c r => if isspace c then lstrip r else s
  end.

Fixpoint rstrip (s : string) : string :=
  match s with
  | EmptyString => EmptyString
  | String c r =>
      match rstrip r with
      | EmptyString => if isspace c then EmptyString else String c EmptyString
      | r' => String c r'
      end
  end.

(** [s.strip()] *)
Definition strip (s : string) : string := rstrip (lstrip s).

(** [s.split('.')]: never empty; the empty string gives one empty part. *)
Fixpoint split_dot (s : string) : list string :=
  match s with
  | EmptyString => [EmptyString]
  | String c r =>
      if Ascii.eqb c "." then EmptyString :: split_dot r
      else match split_dot r with
           | h :: t => String c h :: t
           | [] => [String c EmptyString]
           end
  end.

(** ['.'.join(l)] *)
Definition join_dot (l : list string) : string := String.concat "." l.

(** [str(z)] for an [int]. *)
Definition str_int (z : Z) : string := NilZero.string_of_int (Z.to_int z).

(** The digits of an integer literal handed to [int()]: an underscore may
    stand between two digits and nowhere else.  [after_digit] tells whether
    the character before was a digit.  Underscores are dropped. *)
Fixpoint int_digits (after_digit : bool) (s : string) : option string :=
  match s with
  | EmptyString => if after_digit then Some EmptyString else None
  | String c r =>
      if Ascii.eqb c "_" then
        if after_digit then int_digits false r else None
      else option_map (String c) (int_digits true r)
  end.

Definition int_unsigned (s : string) : option Z :=
  match int_digits false s with
  | Some ds => option_map Z.of_uint (NilZero.uint_of_string ds)
  | None => None
  end.

(** [int(s)] for a [str]: [None] stands for [ValueError]. *)
Definition int (s : string) : option Z :=
  match strip s with
  | EmptyString => None
  | String c r =>
      if Ascii.eqb c "-" then option_map Z.opp (int_unsigned r)
      else if Ascii.eqb c "+" then int_unsigned r
      else int_unsigned (String c r)
  end.

End Py.

(** ** Exceptions *)

Inductive exn : Type :=
| ResolutionError (msg : string)
| TypeError (msg : string)
| ValueError (msg : string)
| NameError (msg : string).

(** [str(e)] *)
Definition exn_str (e : exn) : string :=
  match e with
  | ResolutionError m => m
  | TypeError m => m
  | ValueError m => m
  | NameError m => m
  end.

Inductive result (A : Type) : Type :=
| Ok (a : A)
| Raise (e : exn).
Arguments Ok {A} a.
Arguments Raise {A} e.

Definition rbind {A B} (r : result A) (k : A -> result B) : result B :=
  match r with
  | Ok a => k a
  | Raise e => Raise e
  end.

Declare Scope result_scope.
Delimit Scope result_scope with result.
Notation "x <- r ;; k" := (rbind r (fun x => k))
  (at level 61, r at next level, right associativity) : result_scope.

(** A list comprehension with a condition that can raise. *)
Fixpoint filter_r {A} (f : A -> result bool) (l : list A) : result (list A) :=
  match l with
  | [] => Ok []
  | x :: r =>
      (b <- f x ;;
       r' <- filter_r f r ;;
       Ok (if b then x :: r' else r'))%result
  end.

(** ** [class Version] *)

Inductive component : Type :=
| CInt (z : Z)
| CStr (s : string).

Record Version : Type := mkVersion { parts : list component }.

(** [Version.__init__]: each part of the split is an [int] when [int()]
    accepts it and the part itself otherwise. *)
Definition Version_of_string (version_str : string) : Version :=
  mkVersion
    (map (fun part => match Py.int part with
                      | Some z => CInt z
                      | None => CStr part
                      end)
         (Py.split_dot version_str)).

Definition component_eqb (a b : component) : bool :=
  match a, b with
  | CInt x, CInt y => Z.eqb x y
  | CStr x, CStr y => String.eqb x y
  | _, _ => false
  end.

Fixpoint parts_eqb (v w : list component) : bool :=
  match v, w with
  | [], [] => true
  | x :: v', y :: w' => component_eqb x y && parts_eqb v' w'
  | _, _ => false
  end.

(** [Version.__eq__] *)
Definition Version_eq (a b : Version) : bool := parts_eqb (parts a) (parts b).

Inductive cmp_op : Type := OpLt | OpLe.

Definition op_symbol (op : cmp_op) : string :=
  match op with OpLt => "<" | OpLe => "<=" end.

Definition type_name (c : component) : string :=
  match c with CInt _ => "int" | CStr _ => "str" end.

(** [a < b] and [a <= b] on two components: integers by value, strings
    byte by byte, and [TypeError] for an integer against a string. *)
Definition component_compare (op : cmp_op) (a b : component) : result bool :=
  match a, b with
  | CInt x, CInt y =>
      Ok (match op with OpLt => Z.ltb x y | OpLe => Z.leb x y end)
  | CStr x, CStr y =>
      Ok (match op with OpLt => String.ltb x y | OpLe => String.leb x y end)
  | _, _ =>
      Raise (TypeError ("'" ++ op_symbol op
                        ++ "' not supported between instances of '"
                        ++ type_name a ++ "' and '" ++ type_name b ++ "'")%string)
  end.

(** Comparison of two lists: the first index at which the items are not
    [==] decides, with the operator asked for; when one list is a prefix of
    the other the lengths decide. *)
Fixpoint list_compare (op : cmp_op) (v w : list component) : result bool :=
  match v, w with
  | [], [] => Ok (match op with OpLt => false | OpLe => true end)
  | [], _ :: _ => Ok true
  | _ :: _, [] => Ok false
  | x :: v', y :: w' =>
      if component_eqb x y then list_compare op v' w'
      else component_compare op x y
  end.

(** [Version.__lt__] and [Version.__le__].  The class defines no [__gt__]
    and no [__ge__]: [a > b] runs [b.__lt__(a)] and [a >= b] runs
    [b.__le__(a)]. *)
Definition Version_lt (a b : Version) : result bool :=
  list_compare OpLt (parts a) (parts b).
Definition Version_le (a b : Version) : result bool :=
  list_compare OpLe (parts a) (parts b).

Definition str_component (c : component) : string :=
  match c with
  | CInt z => Py.str_int z
  | CStr s => s
  end.

(** [Version.__str__] *)
Definition Version_str (v : Version) : string :=
  Py.join_dot (map str_component (parts v)).

(** ** [class Package] *)

Inductive PackageStatus : Type := INSTALLED | AVAILABLE | NOT_FOUND.

Record Package : Type := mkPackage {
  name : string;
  version : Version;
  dependencies : list (string * string);
  description : string;
  status : PackageStatus
}.

(** [Package.__eq__]: name and version only. *)
Definition Package_eq (p q : Package) : bool :=
  String.eqb (name p) (name q) && Version_eq (version p) (version q).

(** [Package.__hash__] is [hash((self.name, str(self.version)))]: the pair
    that is hashed. *)
Definition Package_hash_key (self : Package) : string * string :=
  (name self, Version_str (version self)).

Definition dquote : string := String "034"%char EmptyString.

(** The loop of the caret branch: the first part that is [!= 0] gets
    [+= 1] and every later part becomes [0]; a string part is [!= 0] and
    [+= 1] on it is a [TypeError].  Without such a part the list is left
    as it is. *)
Fixpoint bump_first_nonzero (upper_parts : list component)
  : result (list component) :=
  match upper_parts with
  | [] => Ok []
  | CInt 0 :: r =>
      (r' <- bump_first_nonzero r ;; Ok (CInt 0 :: r'))%result
  | CInt z :: r => Ok (CInt (z + 1) :: repeat (CInt 0) (List.length r))
  | CStr _ :: _ =>
      Raise (TypeError ("can only concatenate str (not " ++ dquote ++ "int"
                        ++ dquote ++ ") to str")%string)
  end.

(** [Package.satisfies_constraint] *)
Definition satisfies_constraint (self : Package) (constraint : string)
  : result bool :=
  if String.eqb constraint "*" || String.eqb constraint "" then Ok true
  else if Py.startswith constraint "==" then
    Ok (String.eqb (Version_str (version self)) (Py.strip (Py.drop 2 constraint)))
  else if Py.startswith constraint ">=" then
    Version_le (Version_of_string (Py.strip (Py.drop 2 constraint))) (version self)
  else if Py.startswith constraint "<=" then
    Version_le (version self) (Version_of_string (Py.strip (Py.drop 2 constraint)))
  else if Py.startswith constraint ">" then
    Version_lt (Version_of_string (Py.strip (Py.drop 1 constraint))) (version self)
  else if Py.startswith constraint "<" then
    Version_lt (version self) (Version_of_string (Py.strip (Py.drop 1 constraint)))
  else if Py.startswith constraint "^" then
    let base_version := Version_of_string (Py.strip (Py.drop 1 constraint)) in
    (below <- Version_lt (version self) base_version ;;
     if below then Ok false
     else
       upper_parts <- bump_first_nonzero (parts base_version) ;;
       let upper_version :=
         Version_of_string (Py.join_dot (map str_component upper_parts)) in
       Version_lt (version self) upper_version)%result
  else Ok (String.eqb (Version_str (version self)) constraint).

(** ** Dictionaries *)

Section Dict.
Context {K V : Type} (eqb : K -> K -> bool).

(** [d.get(k)] *)
Fixpoint dict_get (d : list (K * V)) (k : K) : option V :=
  match d with
  | [] => None
  | (k', v) :: r => if eqb k' k then Some v else dict_get r k
  end.

(** [d[k] = v]: a known key keeps its place, a new key goes last. *)
Fixpoint dict_set (d : list (K * V)) (k : K) (v : V) : list (K * V) :=
  match d with
  | [] => [(k, v)]
  | (k', v') :: r =>
      if eqb k' k then (k', v) :: r else (k', v') :: dict_set r k v
  end.
End Dict.

(** ** [class PackageGraph] *)

Record PackageGraph : Type := mkPackageGraph {
  packages : list (string * list Package)
}.

(** [PackageGraph.__init__] *)
Definition PackageGraph_init : PackageGraph := mkPackageGraph [].

(** [self.packages.get(name, [])] *)
Definition packages_get (self : PackageGraph) (n : string) : list Package :=
  match dict_get String.eqb (packages self) n with
  | Some l => l
  | None => []
  end.

(** [PackageGraph.add_package] *)
Definition add_package (self : PackageGraph) (package : Package)
  : PackageGraph :=
  let packages1 :=
    match dict_get String.eqb (packages self) (name package) with
    | None => dict_set String.eqb (packages self) (name package) []
    | Some _ => packages self
    end in
  mkPackageGraph
    (dict_set String.eqb packages1 (name package)
       (match dict_get String.eqb packages1 (name package) with
        | Some l => l ++ [package]
        | None => [package]
        end)).

(** [max(candidates, key=lambda p: p.version)] after its first item: a
    later item replaces the running maximum when [val > maxval], which
    [Version] answers through [maxval.__lt__(val)]. *)
Fixpoint max_by_version (maxitem : Package) (rest : list Package)
  : result Package :=
  match rest with
  | [] => Ok maxitem
  | item :: rest' =>
      (greater <- Version_lt (version maxitem) (version item) ;;
       max_by_version (if greater then item else maxitem) rest')%result
  end.

(** [PackageGraph.get_package] *)
Definition get_package (self : PackageGraph) (n version_constraint : string)
  : result (option Package) :=
  match dict_get String.eqb (packages self) n with
  | None => Ok None
  | Some records =>
      (candidates <-
         filter_r (fun pkg => satisfies_constraint pkg version_constraint)
                  records ;;
       match candidates with
       | [] => Ok None
       | first :: rest =>
           best <- max_by_version first rest ;; Ok (Some best)
       end)%result
  end.

(** ** The dependency graph of [PackageGraph] *)

(** [networkx.DiGraph], as far as [PackageGraph] uses it: the nodes and
    the edges in the order of insertion.  Nodes are keys of dictionaries,
    so a package that is [==] to a node is that node, and an edge is
    there once. *)
Record DiGraph : Type := mkDiGraph {
  nodes : list Package;
  edges : list (Package * Package)
}.

(** [n in G] *)
Definition has_node (G : DiGraph) (n : Package) : bool :=
  existsb (fun m => Package_eq m n) (nodes G).

(** [G.has_edge(u, v)] *)
Definition has_edge (G : DiGraph) (u v : Package) : bool :=
  existsb (fun e => Package_eq (fst e) u && Package_eq (snd e) v) (edges G).

(** [G.add_node(n)] *)
Definition add_node (G : DiGraph) (n : Package) : DiGraph :=
  if has_node G n then G else mkDiGraph (nodes G ++ [n]) (edges G).

(** [G.add_edge(u, v)]: the two ends become nodes when they are not. *)
Definition add_edge (G : DiGraph) (u v : Package) : DiGraph :=
  let G1 := add_node (add_node G u) v in
  if has_edge G1 u v then G1
  else mkDiGraph (nodes G1) (edges G1 ++ [(u, v)]).

(** [set(G.successors(n))] and [set(G.predecessors(n))]; [None] stands
    for the [NetworkXError] of a package that is no node. *)
Definition successors (G : DiGraph) (n : Package) : option (list Package) :=
  if has_node G n
  then Some (map snd (filter (fun e => Package_eq (fst e) n) (edges G)))
  else None.

Definition predecessors (G : DiGraph) (n : Package) : option (list Package) :=
  if has_node G n
  then Some (map fst (filter (fun e => Package_eq (snd e) n) (edges G)))
  else None.

(** A [PackageGraph] object with its field [_graph], which is [None]
    until the graph is built. *)
Record GraphObject : Type := mkGraphObject {
  graph_packages : PackageGraph;
  _graph : option DiGraph
}.

(** What the methods on the dependency graph raise: an exception of
    [get_package], or the [NetworkXError] of [networkx] (its message holds
    the [repr] of the package, which is left out). *)
Inductive graph_exn : Type :=
| PythonError (e : exn)
| NetworkXError.

Inductive graph_result (A : Type) : Type :=
| Found (a : A)
| Fails (e : graph_exn).
Arguments Found {A} a.
Arguments Fails {A} e.

(** [PackageGraph.add_package] on the object: [_graph] is not touched. *)
Definition GraphObject_add_package (self : GraphObject) (package : Package)
  : GraphObject :=
  mkGraphObject (add_package (graph_packages self) package) (_graph self).

(** The records of all names, as the two nested loops of [build_graph]
    meet them. *)
Definition all_records (self : PackageGraph) : list Package :=
  flat_map snd (packages self).

(** The innermost loop of [build_graph], over the dependencies of [pkg]:
    the graph when the loop ends and the exception that ended it, if one
    did. *)
Fixpoint add_dependency_edges (self : PackageGraph) (pkg : Package)
    (deps : list (string * string)) (G : DiGraph) : DiGraph * option exn :=
  match deps with
  | [] => (G, None)
  | (dep_name, constraint) :: deps' =>
      match get_package self dep_name constraint with
      | Raise e => (G, Some e)
      | Ok None => add_dependency_edges self pkg deps' G
      | Ok (Some dep_pkg) =>
          add_dependency_edges self pkg deps' (add_edge G pkg dep_pkg)
      end
  end.

(** The second pair of loops of [build_graph]. *)
Fixpoint add_edges (self : PackageGraph) (pkgs : list Package) (G : DiGraph)
  : DiGraph * option exn :=
  match pkgs with
  | [] => (G, None)
  | pkg :: pkgs' =>
      match add_dependency_edges self pkg (dependencies pkg) G with
      | (G', None) => add_edges self pkgs' G'
      | raised => raised
      end
  end.

(** [PackageGraph.build_graph]: [self._graph] is set before the loops
    run, so it holds what was built when an exception ends them. *)
Definition build_graph (self : GraphObject) : GraphObject * option exn :=
  let records := all_records (graph_packages self) in
  let G0 := fold_left add_node records (mkDiGraph [] []) in
  let (G, raised) := add_edges (graph_packages self) records G0 in
  (mkGraphObject (graph_packages self) (Some G), raised).

(** The common part of [get_dependencies] and [get_dependents]: the
    graph is built when [_graph] is [None], and a graph without nodes is
    false, which gives the empty set. *)
Definition neighbours (look : DiGraph -> Package -> option (list Package))
    (self : GraphObject) (package : Package)
  : GraphObject * graph_result (list Package) :=
  let (self1, raised) :=
    match _graph self with
    | None => build_graph self
    | Some _ => (self, None)
    end in
  match raised with
  | Some e => (self1, Fails (PythonError e))
  | None =>
      (self1,
       match _graph self1 with
       | Some G =>
           match nodes G with
           | [] => Found []
           | _ :: _ =>
               match look G package with
               | Some l => Found l
               | None => Fails NetworkXError
               end
           end
       | None => Found []
       end)
  end.

(** [PackageGraph.get_dependencies] *)
Definition get_dependencies : GraphObject -> Package ->
                              GraphObject * graph_result (list Package) :=
  neighbours successors.

(** [PackageGraph.get_dependents] *)
Definition get_dependents : GraphObject -> Package ->
                            GraphObject * graph_result (list Package) :=
  neighbours predecessors.

(** ** [PackageRepository.add_package] *)

Module Repository.

(** The [pkg_data] dictionary: a missing key is [None]. *)
Record pkg_data : Type := mkPkgData {
  data_name : option string;
  data_version : option string;
  data_dependencies : option (list (string * string));
  data_description : option string
}.

Record PackageRepository : Type := mkRepository {
  repo_packages : list (string * list Package);
  graph : PackageGraph
}.

(** [PackageRepository.__init__] *)
Definition PackageRepository_init : PackageRepository :=
  mkRepository [] PackageGraph_init.

Section AddPackage.
(** What the name [Version] stands for inside [repository.py].  The
    module imports [Package] and [PackageGraph] only, so the look-up of
    [Version] is left open here: it gives the class or raises. *)
Variable Version_global : result (string -> Version).

(** [pkg_data[key]], with the [KeyError] already turned into the
    [ValueError] of the handler. *)
Definition subscript {A} (key : string) (field : option A) : result A :=
  match field with
  | Some a => Ok a
  | None =>
      Raise (ValueError ("Invalid package data: missing '" ++ key ++ "'")%string)
  end.

(** [PackageRepository.add_package]: the repository after the call, or
    the exception; nothing is stored when the call raises. *)
Definition add_package (self : PackageRepository) (d : pkg_data)
  : result PackageRepository :=
  (n <- subscript "name" (data_name d) ;;
   Version_class <- Version_global ;;
   v <- subscript "version" (data_version d) ;;
   let pkg :=
     mkPackage n (Version_class v)
       (match data_dependencies d with Some deps => deps | None => [] end)
       (match data_description d with Some s => s | None => "" end)
       AVAILABLE in
   let packages1 :=
     match dict_get String.eqb (repo_packages self) (name pkg) with
     | None => dict_set String.eqb (repo_packages self) (name pkg) []
     | Some _ => repo_packages self
     end in
   let records :=
     match dict_get String.eqb packages1 (name pkg) with
     | Some l => l
     | None => []
     end in
   if negb (existsb (fun other => Package_eq other pkg) records) then
     Ok (mkRepository
           (dict_set String.eqb packages1 (name pkg) (records ++ [pkg]))
           (add_package (graph self) pkg))
   else Ok (mkRepository packages1 (graph self)))%result.
End AddPackage.

End Repository.

(** ** The queries of [PackageRepository] *)

(** [PackageRepository.find_packages] *)
Definition find_packages (self : Repository.PackageRepository)
    (n constraint : string) : result (list Package) :=
  match dict_get String.eqb (Repository.repo_packages self) n with
  | None => Ok []
  | Some records =>
      filter_r (fun pkg => satisfies_constraint pkg constraint) records
  end.

(** [PackageRepository.get_latest_version] *)
Definition get_latest_version (self : Repository.PackageRepository)
    (n : string) : result (option Package) :=
  match dict_get String.eqb (Repository.repo_packages self) n with
  | None => Ok None
  | Some [] => Ok None
  | Some (first :: rest) =>
      (best <- max_by_version first rest ;; Ok (Some best))%result
  end.

(** ** The package file *)

(** What [json.load] gives for a package file: a list of objects, or one
    object.  The file itself is left out: [json.load] is taken to give
    back what [json.dump] was given. *)
Inductive packages_file : Type :=
| FileList (l : list Repository.pkg_data)
| FileObject (d : Repository.pkg_data).



Section LoadFromFile.
Variable Version_global : result (string -> Version).

(** The loop of [load_from_file]: the repository when the loop ends, and
    the exception that ended it, if one did.  What was added before the
    exception stays. *)
Fixpoint load_loop (self : Repository.PackageRepository)
    (packages_data : list Repository.pkg_data)
  : Repository.PackageRepository * option exn :=
  match packages_data with
  | [] => (self, None)
  | d :: r =>
      match Repository.add_package Version_global self d with
      | Ok self' => load_loop self' r
      | Raise e => (self, Some e)
      end
  end.

(** [PackageRepository.load_from_file], after [json.load]: the handlers
    log and raise again. *)
Definition load_from_file (self : Repository.PackageRepository)
    (packages_data : packages_file)
  : Repository.PackageRepository * option exn :=
  load_loop self (match packages_data with
                  | FileList l => l
                  | FileObject d => [d]
                  end).
End LoadFromFile.

(** ** [cli.parse_package_spec] *)

(** [s.split(sep, 1)] for a [sep] that is not empty: the text before the
    first occurrence of [sep] and the text after it, or [None] when
    [sep in s] is false. *)
Fixpoint split_once (sep s : string) : option (string * string) :=
  match s with
  | EmptyString => None
  | String c r =>
      if Py.startswith s sep then Some (EmptyString, Py.drop (String.length sep) s)
      else match split_once sep r with
           | Some (before, after) => Some (String c before, after)
           | None => None
           end
  end.

Definition operators : list string :=
  ["=="; ">="; "<="; ">"; "<"; "^"; "~"; "!="].

(** The loop of [parse_package_spec] over the operators that are left. *)
Fixpoint parse_with (ops : list string) (spec : string) : string * string :=
  match ops with
  | [] => (Py.strip spec, "*")
  | op :: ops' =>
      match split_once op spec with
      | Some (n, v) => (Py.strip n, (op ++ Py.strip v)%string)
      | None => parse_with ops' spec
      end
  end.

(** [parse_package_spec] *)
Definition parse_package_spec (spec : string) : string * string :=
  parse_with operators spec.

(** ** The satisfiability oracle *)

Definition clause : Type := list Z.

(** A model is the list of literals that hold, as [get_model()] gives it. *)
Definition lit_holds (model : list Z) (l : Z) : bool :=
  existsb (Z.eqb l) model.

Definition clause_holds (model : list Z) (c : clause) : bool :=
  existsb (lit_holds model) c.

(** No variable is given both signs (and [0] is not a literal). *)
Definition consistent (model : list Z) : bool :=
  forallb (fun l => negb (lit_holds model (- l))) model.

Definition is_model (model : list Z) (clauses : list clause) : bool :=
  consistent model && forallb (clause_holds model) clauses.

(** The solver object of the SAT library, seen from outside: [sat_solve]
    is what [solve()] followed by [get_model()] answers once the given
    clauses have been added, [None] when [solve()] is false.  Its first
    argument tells whether [delete()] has been called on the object
    before.  A live solver only answers with a model of the clauses, and
    answers with one when there is one. *)
Record Oracle : Type := mkOracle {
  sat_solve : bool -> list clause -> option (list Z);
  sat_sound : forall clauses model,
      sat_solve false clauses = Some model -> is_model model clauses = true;
  sat_complete : forall clauses,
      sat_solve false clauses = None ->
      forall model, is_model model clauses = false
}.

(** ** [class Solver] *)

(** The fields of a [Solver] object that its methods assign.
    [_solver_clauses] and [_solver_deleted] stand for the solver object
    [self._solver]: the clauses it was given and whether it was deleted.
    [graph] and [max_workers] never change after [__init__]: [graph] is
    an argument of the methods below, and [max_workers], which only
    chooses the thread on which the oracle runs, is left out. *)
Record Solver : Type := mkSolver {
  _var_to_pkg : list (Z * Package);
  _pkg_to_var : list (Package * Z);
  _next_var : Z;
  _solver_clauses : list clause;
  _solver_deleted : bool;
  _cnf : list clause
}.

(** [Solver.__init__] *)
Definition Solver_init : Solver :=
  mkSolver [] [] 1 [] false [].

Inductive outcome (A : Type) : Type :=
| Done (a : A) (self : Solver)
| Failed (e : exn) (self : Solver)
| Diverges.
Arguments Done {A} a self.
Arguments Failed {A} e self.
Arguments Diverges {A}.

Definition M (A : Type) : Type := Solver -> outcome A.

Definition ret {A} (a : A) : M A := fun self => Done a self.

Definition raise {A} (e : exn) : M A := fun self => Failed e self.

Definition bind {A B} (m : M A) (k : A -> M B) : M B :=
  fun self =>
    match m self with
    | Done a self' => k a self'
    | Failed e self' => Failed e self'
    | Diverges => Diverges
    end.

Definition lift {A} (r : result A) : M A :=
  match r with
  | Ok a => ret a
  | Raise e => raise e
  end.

Declare Scope solver_scope.
Delimit Scope solver_scope with solver.
Notation "x <- m ;; k" := (bind m (fun x => k))
  (at level 61, m at next level, right associativity) : solver_scope.
Notation "m ;; k" := (bind m (fun _ => k))
  (at level 61, right associativity) : solver_scope.

(** A [for] loop over a list. *)
Fixpoint for_each {A} (l : list A) (body : A -> M unit) : M unit :=
  match l with
  | [] => ret tt
  | x :: r => (body x ;; for_each r body)%solver
  end.

(** A comprehension whose items are computed by a method. *)
Fixpoint map_m {A B} (f : A -> M B) (l : list A) : M (list B) :=
  match l with
  | [] => ret []
  | x :: r => (y <- f x ;; ys <- map_m f r ;; ret (y :: ys))%solver
  end.

(** [Solver._get_var] *)
Definition _get_var (pkg : Package) : M Z :=
  fun self =>
    match dict_get Package_eq (_pkg_to_var self) pkg with
    | Some var => Done var self
    | None =>
        let var := _next_var self in
        Done var
          (mkSolver (dict_set Z.eqb (_var_to_pkg self) var pkg)
                    (dict_set Package_eq (_pkg_to_var self) pkg var)
                    (_next_var self + 1)
                    (_solver_clauses self) (_solver_deleted self) (_cnf self))
    end.

(** [Solver._add_clause] *)
Definition _add_clause (c : clause) : M unit :=
  fun self =>
    Done tt
      (mkSolver (_var_to_pkg self) (_pkg_to_var self) (_next_var self)
                (_solver_clauses self) (_solver_deleted self)
                (_cnf self ++ [c])).

(** [set.add] on a set of packages. *)
Definition set_add (s : list Package) (p : Package) : list Package :=
  if existsb (fun q => Package_eq q p) s then s else s ++ [p].

(** [Solver._extract_solution] *)
Definition _extract_solution (self : Solver) (model : list Z) : list Package :=
  fold_left
    (fun solution var =>
       if 0 <? var then
         match dict_get Z.eqb (_var_to_pkg self) var with
         | Some pkg => set_add solution pkg
         | None => solution
         end
       else solution)
    model [].

(** A [for] loop over a list whose body can raise and updates a value. *)
Fixpoint fold_r {A S} (body : S -> A -> result S) (l : list A) (s : S)
  : result S :=
  match l with
  | [] => Ok s
  | x :: r => (s' <- body s x ;; fold_r body r s')%result
  end.

(** [Solver._prune_solution]: the table of dependents and the list of
    leaves are computed and then not used; the copy of the solution is
    returned. *)
Definition _prune_solution (solution : list Package) : result (list Package) :=
  let pkg_set := solution in
  let dependents0 := map (fun pkg => (pkg, @nil Package)) pkg_set in
  (dependents <-
     fold_r (fun dependents pkg =>
       fold_r (fun dependents '(dep_name, constraint) =>
         fold_r (fun dependents dep =>
           if String.eqb (name dep) dep_name then
             hit <- satisfies_constraint dep constraint ;;
             if hit then
               Ok (dict_set Package_eq dependents dep
                     (set_add (match dict_get Package_eq dependents dep with
                               | Some s => s
                               | None => []
                               end) pkg))
             else Ok dependents
           else Ok dependents)
           pkg_set dependents)
         (dependencies pkg) dependents)
       pkg_set dependents0 ;;
   let leaves :=
     map fst (filter (fun '(_, deps) => match deps with [] => true | _ => false end)
                     dependents) in
   Ok pkg_set)%result.

Section Resolution.
Variable oracle : Oracle.
Variable graph : PackageGraph.

(** One dependency of [pkg] in [Solver._add_package_constraints]: the
    body of the loop over [pkg.dependencies.items()].  [recurse] is the
    method itself, called on every candidate. *)
Definition add_dependency_constraints (recurse : Package -> M unit)
    (pkg : Package) (pkg_var : Z) (dep : string * string) : M unit :=
  let '(dep_name, constraint) := dep in
  (candidates <-
     lift (filter_r (fun dep_pkg => satisfies_constraint dep_pkg constraint)
                    (packages_get graph dep_name)) ;;
   match candidates with
   | [] =>
       raise (ResolutionError
                ("No package found for dependency: " ++ dep_name ++ " "
                 ++ constraint ++ " required by " ++ name pkg ++ " "
                 ++ Version_str (version pkg))%string)
   | _ =>
       dep_vars <- map_m _get_var candidates ;;
       _add_clause (- pkg_var :: dep_vars) ;;
       for_each candidates recurse
   end)%solver.

(** [Solver._add_package_constraints]; [fuel] bounds the depth of the
    nested calls. *)
Fixpoint _add_package_constraints (fuel : nat) (pkg : Package) : M unit :=
  match fuel with
  | O => fun _ => Diverges
  | S fuel' =>
      (pkg_var <- _get_var pkg ;;
       for_each (packages_get graph (name pkg))
         (fun other_pkg =>
            if negb (Package_eq other_pkg pkg) then
              other_var <- _get_var other_pkg ;;
              _add_clause [- pkg_var; - other_var]
            else ret tt) ;;
       for_each (dependencies pkg)
         (add_dependency_constraints (_add_package_constraints fuel')
                                     pkg pkg_var))%solver
  end.

(** One requested package in [Solver.solve]. *)
Definition add_request (fuel : nat) (request : string * string) : M unit :=
  let '(pkg_name, constraint) := request in
  (found <- lift (get_package graph pkg_name constraint) ;;
   match found with
   | None =>
       raise (ResolutionError
                ("Package not found: " ++ pkg_name ++ " " ++ constraint)%string)
   | Some pkg =>
       pkg_var <- _get_var pkg ;;
       _add_clause [pkg_var] ;;
       _add_package_constraints fuel pkg
   end)%solver.

(** The clauses of [self._cnf] go to the solver object, which is then
    asked once. *)
Definition run_oracle : M (list Z) :=
  fun self =>
    let fed := _solver_clauses self ++ _cnf self in
    let self' :=
      mkSolver (_var_to_pkg self) (_pkg_to_var self) (_next_var self)
               fed (_solver_deleted self) (_cnf self) in
    match sat_solve oracle (_solver_deleted self) fed with
    | None =>
        Failed (ResolutionError "No solution found for the given constraints")
               self'
    | Some model => Done model self'
    end.

(** The [try] block of [Solver.solve]. *)
Definition solve_try (fuel : nat) (requested_pkgs : list (string * string))
  : M (list Package) :=
  (for_each requested_pkgs (add_request fuel) ;;
   model <- run_oracle ;;
   fun self =>
     let solution := _extract_solution self model in
     lift (_prune_solution solution) self)%solver.

(** [self._solver.delete()] *)
Definition delete_solver (self : Solver) : Solver :=
  mkSolver (_var_to_pkg self) (_pkg_to_var self) (_next_var self)
           (_solver_clauses self) true (_cnf self).

(** [Solver.solve]: the [except Exception] handler wraps what the [try]
    block raised, and the [finally] clause deletes the solver object. *)
Definition solve (fuel : nat) (requested_pkgs : list (string * string))
  : M (list Package) :=
  fun self =>
    match solve_try fuel requested_pkgs self with
    | Done pruned_solution self' => Done pruned_solution (delete_solver self')
    | Failed e self' =>
        Failed (ResolutionError
                  ("Failed to resolve dependencies: " ++ exn_str e)%string)
               (delete_solver self')
    | Diverges => Diverges
    end.

Section Parallel.
(** The order in which [as_completed] hands the futures back: some
    rearrangement of them. *)
Variable as_completed : list (result (list Package)) ->
                        list (result (list Package)).

(** The submitted calls, run one after the other on [self] in the
    order of submission, as a pool of one worker runs them; the
    interleavings of several workers are not described. *)
Fixpoint run_futures (fuel : nat) (requests : list (list (string * string)))
  : M (list (result (list Package))) :=
  match requests with
  | [] => ret []
  | request :: rest =>
      fun self =>
        match solve fuel request self with
        | Done s self' =>
            (futures <- run_futures fuel rest ;; ret (Ok s :: futures))%solver
              self'
        | Failed e self' =>
            (futures <- run_futures fuel rest ;; ret (Raise e :: futures))%solver
              self'
        | Diverges => Diverges
        end
  end.

(** The [try] block of the loop over the completed futures: the set of
    the future, or the empty set for a future that raised. *)
Definition future_set (future : result (list Package)) : list Package :=
  match future with
  | Ok s => s
  | Raise _ => []
  end.

(** [Solver.parallel_solve] *)
Definition parallel_solve (fuel : nat)
    (requests : list (list (string * string))) : M (list (list Package)) :=
  (futures <- run_futures fuel requests ;;
   ret (map future_set (as_completed futures)))%solver.
End Parallel.
End Resolution.

(** ** An oracle by exhaustive search *)

(** All assignments of the variables [1..n], the highest variable decided
    first and [true] tried before [false]; each one lists its literals in
    increasing order of the variables. *)
Fixpoint assignments (n : nat) : list (list Z) :=
  match n with
  | O => [[]]
  | S n' =>
      map (fun m => m ++ [Z.of_nat n]) (assignments n')
      ++ map (fun m => m ++ [- Z.of_nat n]) (assignments n')
  end.

Definition max_var (clauses : list clause) : nat :=
  fold_right (fun c acc => fold_right (fun l acc' => Nat.max (Z.abs_nat l) acc') acc c)
             O clauses.

Definition exhaustive_search (deleted : bool) (clauses : list clause)
  : option (list Z) :=
  if deleted then None
  else find (fun m => is_model m clauses) (assignments (max_var clauses)).

(** ** Vocabulary of the specification *)

(** [q] is a candidate for one of the dependencies of [p]: the solver
    offers every record of the named package that satisfies the
    constraint, not only the newest one. *)
Definition candidate_of (graph : PackageGraph) (p q : Package) : Prop :=
  exists dep_name constraint,
    In (dep_name, constraint) (dependencies p) /\
    In q (packages_get graph dep_name) /\
    satisfies_constraint q constraint = Ok true.

(** The dependency closure of a request: the packages that the requested
    pairs resolve to, and the candidates of their dependencies, and so
    on. *)
Inductive reachable (graph : PackageGraph) (requested : list (string * string))
  : Package -> Prop :=
| reachable_request n c p :
    In (n, c) requested ->
    get_package graph n c = Ok (Some p) ->
    reachable graph requested p
| reachable_candidate p q :
    reachable graph requested p ->
    candidate_of graph p q ->
    reachable graph requested q.



(** The packages on which the clause emission comes to an end: each
    dependency has a candidate and the emission ends on every candidate. *)
Inductive emitted (graph : PackageGraph) : Package -> Prop :=
| emitted_intro p :
    (forall dep_name constraint,
        In (dep_name, constraint) (dependencies p) ->
        exists q, In q (packages_get graph dep_name) /\
                  satisfies_constraint q constraint = Ok true) ->
    (forall q, candidate_of graph p q -> emitted graph q) ->
    emitted graph p.



(** Versions of integers only, and the order on lists of integers that
    the specification means by [<] and [<=] on such versions. *)
Definition is_int (c : component) : bool :=
  match c with CInt _ => true | CStr _ => false end.

Definition numeric (v : Version) : bool := forallb is_int (parts v).

Definition numeric_version (zs : list Z) : Version := mkVersion (map CInt zs).

Fixpoint lex_lt (v w : list Z) : bool :=
  match v, w with
  | _, [] => false
  | [], _ :: _ => true
  | x :: v', y :: w' => (x <? y) || ((x =? y) && lex_lt v' w')
  end.

Fixpoint lex_le (v w : list Z) : bool :=
  match v, w with
  | [], _ => true
  | _ :: _, [] => false
  | x :: v', y :: w' => (x <? y) || ((x =? y) && lex_le v' w')
  end.

(** The next breaking version: the first component that is not zero is
    incremented and the later ones are set to zero.  A version of zeros
    only has no such component and is its own bound. *)
Fixpoint next_breaking (base : list Z) : list Z :=
  match base with
  | [] => []
  | 0 :: r => 0 :: next_breaking r
  | z :: r => (z + 1) :: repeat 0 (List.length r)
  end.

(** The version that a constraint compares with, when it compares. *)
Definition constraint_operand (constraint : string) : option Version :=
  if String.eqb constraint "*" || String.eqb constraint "" then None
  else if Py.startswith constraint "==" then None
  else if Py.startswith constraint ">=" || Py.startswith constraint "<=" then
    Some (Version_of_string (Py.strip (Py.drop 2 constraint)))
  else if Py.startswith constraint ">" || Py.startswith constraint "<"
          || Py.startswith constraint "^" then
    Some (Version_of_string (Py.strip (Py.drop 1 constraint)))
  else None.

Definition numeric_constraint (constraint : string) : bool :=
  match constraint_operand constraint with
  | Some v => numeric v
  | None => true
  end.

(** No two records of the list are equal as packages. *)
Fixpoint distinct_records (l : list Package) : Prop :=
  match l with
  | [] => True
  | p :: r => (forall q, In q r -> Package_eq p q = false) /\ distinct_records r
  end.

(** A sequence of calls of [PackageRepository.add_package]; a call that
    raises leaves the repository as it was. *)
Fixpoint add_packages (Version_global : result (string -> Version))
    (self : Repository.PackageRepository) (l : list Repository.pkg_data)
  : Repository.PackageRepository :=
  match l with
  | [] => self
  | d :: r =>
      match Repository.add_package Version_global self d with
      | Ok self' => add_packages Version_global self' r
      | Raise _ => add_packages Version_global self r
      end
  end.

(** Classes of characters: the digits, the characters of [str(z)], and
    the characters of the text of a version of integers. *)
Fixpoint all_chars (f : ascii -> bool) (s : string) : bool :=
  match s with
  | EmptyString => true
  | String c r => f c && all_chars f r
  end.

Definition digit (c : ascii) : bool :=
  let n := nat_of_ascii c in ((48 <=? n) && (n <=? 57))%nat.

Definition int_char (c : ascii) : bool := digit c || Ascii.eqb c "-".

Definition version_char (c : ascii) : bool := int_char c || Ascii.eqb c ".".

(** The repository and its graph hold the same records under each name,
    without repetition, and each record under its own name. *)
Definition repository_invariant (self : Repository.PackageRepository) : Prop :=
  forall n,
    (match dict_get String.eqb (Repository.repo_packages self) n with
     | Some l => l
     | None => []
     end) = packages_get (Repository.graph self) n /\
    distinct_records (packages_get (Repository.graph self) n) /\
    (forall p, In p (packages_get (Repository.graph self) n) -> name p = n).

(** ** The exhaustive search is an oracle *)

(** The assignment of [1..n] that agrees with a model. *)
Fixpoint restrict (model : list Z) (n : nat) : list Z :=
  match n with
  | O => []
  | S n' =>
      restrict model n'
      ++ [if lit_holds model (Z.of_nat n) then Z.of_nat n else - Z.of_nat n]
  end.

Lemma lit_holds_In model l : lit_holds model l = true <-> In l model.
Proof.
  unfold lit_holds. rewrite existsb_exists. split.
  - intros [x [Hx E]]. apply Z.eqb_eq in E. subst. exact Hx.
  - intros H. exists l. split; [exact H | apply Z.eqb_refl].
Qed.

Lemma restrict_assignment model n : In (restrict model n) (assignments n).
Proof.
  induction n as [|n IH]; [left; reflexivity|].
  cbn [restrict assignments]. apply in_or_app.
  destruct (lit_holds model (Z.of_nat (S n)));
    [left | right];
    apply (in_map (fun m => m ++ [_]) _ _ IH).
Qed.

Lemma restrict_In model n l :
  In l (restrict model n) ->
  (0 < l /\ lit_holds model l = true) \/
  (l < 0 /\ lit_holds model (- l) = false).
Proof.
  induction n as [|n IH]; [contradiction|].
  cbn [restrict]. intros H. apply in_app_or in H.
  destruct H as [H|[H|[]]]; [auto|].
  destruct (lit_holds model (Z.of_nat (S n))) eqn:E; subst l.
  - left. split; [lia | exact E].
  - right. split; [lia|]. rewrite Z.opp_involutive. exact E.
Qed.

Lemma restrict_positive model n l :
  0 < l <= Z.of_nat n -> lit_holds model l = true ->
  In l (restrict model n).
Proof.
  induction n as [|n IH]; [lia|].
  intros Hl Hm. cbn [restrict]. apply in_or_app.
  destruct (Z.eq_dec l (Z.of_nat (S n))) as [->|Hne].
  - right. rewrite Hm. left. reflexivity.
  - left. apply IH; [lia | exact Hm].
Qed.

Lemma restrict_negative model n l :
  - Z.of_nat n <= l < 0 -> lit_holds model (- l) = false ->
  In l (restrict model n).
Proof.
  induction n as [|n IH]; [lia|].
  intros Hl Hm. cbn [restrict]. apply in_or_app.
  destruct (Z.eq_dec l (- Z.of_nat (S n))) as [->|Hne].
  - right. rewrite Z.opp_involutive in Hm. rewrite Hm. left. reflexivity.
  - left. apply IH; [lia | exact Hm].
Qed.

Lemma restrict_consistent model n : consistent (restrict model n) = true.
Proof.
  unfold consistent. apply forallb_forall. intros l Hl.
  apply negb_true_iff.
  destruct (lit_holds (restrict model n) (- l)) eqn:E; [|reflexivity].
  apply lit_holds_In in E.
  apply restrict_In in Hl. apply restrict_In in E.
  rewrite Z.opp_involutive in E.
  destruct Hl as [[H1 H2]|[H1 H2]], E as [[H3 H4]|[H3 H4]];
    try lia; congruence.
Qed.

Lemma max_var_bound clauses c l :
  In c clauses -> In l c -> (Z.abs_nat l <= max_var clauses)%nat.
Proof.
  unfold max_var.
  assert (Hinner : forall c acc,
             (acc <= fold_right (fun l acc' => Nat.max (Z.abs_nat l) acc') acc c)%nat
             /\ forall l, In l c ->
                  (Z.abs_nat l
                   <= fold_right (fun l acc' => Nat.max (Z.abs_nat l) acc') acc c)%nat).
  { intros c0 acc. induction c0 as [|x c0 [IH1 IH2]]; simpl.
    - split; [lia | contradiction].
    - split; [lia|]. intros y [<-|Hy]; [lia|].
      specialize (IH2 y Hy). lia. }
  induction clauses as [|c0 clauses IH]; simpl; [contradiction|].
  intros [<-|Hc] Hl.
  - apply Hinner. exact Hl.
  - specialize (IH Hc Hl).
    destruct (Hinner c0 (max_var clauses)) as [H _]. unfold max_var in H.
    lia.
Qed.

Lemma exhaustive_search_sound clauses model :
  exhaustive_search false clauses = Some model ->
  is_model model clauses = true.
Proof.
  unfold exhaustive_search. intros H. apply find_some in H. exact (proj2 H).
Qed.

Lemma exhaustive_search_complete clauses :
  exhaustive_search false clauses = None ->
  forall model, is_model model clauses = false.
Proof.
  unfold exhaustive_search. intros Hnone model.
  destruct (is_model model clauses) eqn:Hm; [|reflexivity].
  pose proof (find_none _ _ Hnone _
                (restrict_assignment model (max_var clauses))) as Hr.
  simpl in Hr. rewrite <- Hr. symmetry.
  unfold is_model in Hm |- *. apply andb_true_iff in Hm.
  destruct Hm as [Hcons Hall].
  rewrite restrict_consistent. simpl.
  apply forallb_forall. intros c Hc.
  pose proof (proj1 (forallb_forall _ _) Hall c Hc) as Hclause.
  unfold clause_holds in Hclause |- *. apply existsb_exists in Hclause.
  destruct Hclause as [l [Hl Hholds]].
  apply existsb_exists. exists l. split; [exact Hl|].
  apply lit_holds_In.
  pose proof (max_var_bound clauses c l Hc Hl) as Hbound.
  pose proof (proj1 (forallb_forall _ _) Hcons l
                (proj1 (lit_holds_In model l) Hholds)) as Hneg.
  apply negb_true_iff in Hneg.
  destruct (Z.lt_trichotomy l 0) as [Hlt|[->|Hgt]].
  - apply restrict_negative; [lia | exact Hneg].
  - simpl in Hneg. congruence.
  - apply restrict_positive; [lia | exact Hholds].
Qed.

(** The exhaustive search as an oracle. *)
Definition exhaustive_oracle : Oracle :=
  mkOracle exhaustive_search exhaustive_search_sound
           exhaustive_search_complete.

(** The same search for a solver object that goes on answering after
    [delete()]. *)
Definition reusable_oracle : Oracle :=
  mkOracle (fun _ => exhaustive_search false) exhaustive_search_sound
           exhaustive_search_complete.

(** ** Example data *)

(** [Package(name, Version(v), deps)] *)
Definition package (n v : string) (deps : list (string * string)) : Package :=
  mkPackage n (Version_of_string v) deps "" AVAILABLE.

Definition graph_of (l : list Package) : PackageGraph :=
  fold_left add_package l PackageGraph_init.

(** The graph of the solver tests, with the package [E] of the second
    test. *)
Definition test_graph : PackageGraph :=
  graph_of [package "A" "1.0.0" [("B", ">=1.0.0"); ("C", ">=1.0.0")];
            package "B" "1.0.0" [("D", ">=1.0.0")];
            package "C" "1.0.0" [("D", ">=1.0.0")];
            package "D" "1.0.0" [];
            package "E" "1.0.0" [("nonexistent", ">=1.0.0")]].

(** [R] needs some [W]; [W 1.0.0] needs [X 1.0.0]; [W 2.0.0] needs
    nothing; [X 2.0.0] needs a package [Z] that does not exist. *)
Definition R1 : Package := package "R" "1.0.0" [("W", "*")].
Definition W1 : Package := package "W" "1.0.0" [("X", "==1.0.0")].
Definition W2 : Package := package "W" "2.0.0" [].
Definition X1 : Package := package "X" "1.0.0" [].
Definition X2 : Package := package "X" "2.0.0" [("Z", "*")].
Definition X3 : Package := package "X" "3.0.0" [].

Definition siblings_graph : PackageGraph :=
  graph_of [R1; W1; W2; X1; X2; X3].



(** ** The variable tables of a solver *)

(** [self._pkg_to_var.get(p)] and [self._var_to_pkg.get(v)] *)
Definition var_of (self : Solver) (p : Package) : option Z :=
  dict_get Package_eq (_pkg_to_var self) p.

Definition pkg_of (self : Solver) (v : Z) : option Package :=
  dict_get Z.eqb (_var_to_pkg self) v.

(** The two tables name the same pairs, and the variables in use are the
    positive numbers below [_next_var]. *)
Definition tables_agree (self : Solver) : Prop :=
  0 < _next_var self /\
  (forall p v, var_of self p = Some v ->
     0 < v < _next_var self /\
     exists p', pkg_of self v = Some p' /\ Package_eq p' p = true) /\
  (forall v p, pkg_of self v = Some p ->
     0 < v < _next_var self /\ var_of self p = Some v).

(** A later state of the same solver: the variables given are kept, the
    clauses emitted are kept, in their order, and new ones come after. *)
Definition extends (self self' : Solver) : Prop :=
  (forall p v, var_of self p = Some v -> var_of self' p = Some v) /\
  (forall v p, pkg_of self v = Some p -> pkg_of self' v = Some p) /\
  (exists added, _cnf self' = _cnf self ++ added) /\
  _next_var self <= _next_var self'.

(** The clauses of a package are in place: its exclusion clauses against
    the other records of its name, and for each dependency one clause
    whose positive literals are variables of satisfying candidates. *)
Definition clauses_of (graph : PackageGraph) (self : Solver) (p : Package)
  : Prop :=
  exists v,
    var_of self p = Some v /\
    (forall other,
        In other (packages_get graph (name p)) ->
        Package_eq other p = false ->
        exists ov, var_of self other = Some ov /\ In [- v; - ov] (_cnf self)) /\
    (forall dep_name constraint,
        In (dep_name, constraint) (dependencies p) ->
        exists vars,
          In (- v :: vars) (_cnf self) /\
          forall w, In w vars ->
            exists q, In q (packages_get graph dep_name) /\
                      satisfies_constraint q constraint = Ok true /\
                      var_of self q = Some w).

(** A member of a set of packages, up to [Package.__eq__]. *)
Definition selected (solution : list Package) (p : Package) : Prop :=
  exists p', In p' solution /\ Package_eq p' p = true.

(** The emission does not touch the solver object. *)
Definition same_solver (s s' : Solver) : Prop :=
  _solver_clauses s' = _solver_clauses s /\
  _solver_deleted s' = _solver_deleted s.

Definition keeps_solver {A} (m : M A) : Prop :=
  forall s, match m s with
            | Done _ s' => same_solver s s'
            | Failed _ s' => same_solver s s'
            | Diverges => True
            end.

(** The facts behind a set returned by [solve]: the state [s1] in which
    the emission ended and the model [m] of its clauses. *)
Definition resolved (graph : PackageGraph)
    (requested : list (string * string)) (s1 : Solver)
    (m : list Z) (sol : list Package) : Prop :=
  tables_agree s1 /\
  (forall n c, In (n, c) requested ->
     exists p v, get_package graph n c = Ok (Some p) /\
                 var_of s1 p = Some v /\ In [v] (_cnf s1)) /\
  (forall r, reachable graph requested r -> clauses_of graph s1 r) /\
  is_model m (_cnf s1) = true /\
  (forall p, In p sol -> exists v, In v m /\ 0 < v /\ pkg_of s1 v = Some p) /\
  (forall v p, In v m -> 0 < v -> pkg_of s1 v = Some p -> selected sol p).

(** A step that keeps the two tables in agreement and takes nothing
    back. *)
Definition keeps_tables {A} (m : M A) : Prop :=
  forall s, tables_agree s ->
            match m s with
            | Done _ s' => tables_agree s' /\ extends s s'
            | Failed _ s' => tables_agree s' /\ extends s s'
            | Diverges => True
            end.

(** [Version.__init__] on one part of the split. *)
Definition parse_part (part : string) : component :=
  match Py.int part with
  | Some z => CInt z
  | None => CStr part
  end.





(** The characters of the operators of [parse_package_spec], and a text
    without any of them. *)
Definition op_char (c : ascii) : bool :=
  existsb (Ascii.eqb c) ["="; ">"; "<"; "^"; "~"; "!"]%char.

Definition plain (s : string) : Prop :=
  all_chars (fun c => negb (op_char c)) s = true.

(** [q] is what a dependency of [p] resolves to: some record that is
    [==] to [p] has a dependency for which [get_package] returns a record
    that is [==] to [q]. *)
Definition resolves_to (self : PackageGraph) (p q : Package) : Prop :=
  exists r dep_name constraint q',
    In r (all_records self) /\ Package_eq r p = true /\
    In (dep_name, constraint) (dependencies r) /\
    get_package self dep_name constraint = Ok (Some q') /\
    Package_eq q' q = true.

(** [m] is [==] to a record of the graph. *)
Definition record_like (self : PackageGraph) (m : Package) : Prop :=
  exists r, In r (all_records self) /\ Package_eq r m = true.

(** Whether one of the dependencies [deps] resolves to [v]. *)
Definition dep_targets (self : PackageGraph) (deps : list (string * string))
    (v : Package) : bool :=
  existsb (fun dc => match get_package self (fst dc) (snd dc) with
                     | Ok (Some q) => Package_eq q v
                     | _ => false
                     end) deps.

(** * Properties *)

(** ** Strings and integers *)

Module PyFacts.
Import Py.

Lemma all_chars_weaken (f g : ascii -> bool) s :
  (forall c, f c = true -> g c = true) ->
  all_chars f s = true -> all_chars g s = true.
Proof.
  intros Hfg. induction s as [|c r IH]; simpl; [reflexivity|].
  intros H. apply andb_true_iff in H. destruct H as [Hc Hr].
  rewrite (Hfg c Hc), (IH Hr). reflexivity.
Qed.

Lemma all_chars_app f s t :
  all_chars f (s ++ t)%string = all_chars f s && all_chars f t.
Proof.
  induction s as [|c r IH]; simpl; [reflexivity|].
  rewrite IH, andb_assoc. reflexivity.
Qed.

Ltac by_cases_on_ascii c :=
  destruct c as [[|] [|] [|] [|] [|] [|] [|] [|]];
  try reflexivity; try discriminate.

Lemma digit_int_char c : digit c = true -> int_char c = true.
Proof. unfold int_char. intros ->. reflexivity. Qed.

Lemma digit_not_special c :
  digit c = true ->
  isspace c = false /\ Ascii.eqb c "_" = false /\ Ascii.eqb c "-" = false /\
  Ascii.eqb c "+" = false /\ Ascii.eqb c "." = false.
Proof.
  by_cases_on_ascii c; intros _; repeat split; reflexivity.
Qed.

Lemma version_char_not_space c : version_char c = true -> isspace c = false.
Proof. by_cases_on_ascii c. Qed.

Lemma int_char_not_dot c : int_char c = true -> Ascii.eqb c "." = false.
Proof. by_cases_on_ascii c. Qed.

Lemma int_char_version_char c : int_char c = true -> version_char c = true.
Proof. unfold version_char. intros ->. reflexivity. Qed.

(** *** [strip] *)

Lemma lstrip_id s :
  all_chars (fun c => negb (isspace c)) s = true -> lstrip s = s.
Proof.
  destruct s as [|c r]; simpl; [reflexivity|].
  intros H. apply andb_true_iff in H. destruct H as [Hc _].
  apply negb_true_iff in Hc. rewrite Hc. reflexivity.
Qed.

Lemma rstrip_id s :
  all_chars (fun c => negb (isspace c)) s = true -> rstrip s = s.
Proof.
  induction s as [|c r IH]; simpl; [reflexivity|].
  intros H. apply andb_true_iff in H. destruct H as [Hc Hr].
  apply negb_true_iff in Hc. rewrite (IH Hr), Hc.
  destruct r; reflexivity.
Qed.

Lemma strip_id s :
  all_chars (fun c => negb (isspace c)) s = true -> strip s = s.
Proof.
  intros H. unfold strip. rewrite (lstrip_id s H). apply rstrip_id. exact H.
Qed.

Lemma strip_version_chars s :
  all_chars version_char s = true -> strip s = s.
Proof.
  intros H. apply strip_id. revert H. apply all_chars_weaken.
  intros c Hc. rewrite (version_char_not_space c Hc). reflexivity.
Qed.

(** *** [str] and [int] *)

Lemma uint_digits d : all_chars digit (NilEmpty.string_of_uint d) = true.
Proof.
  induction d; simpl; try rewrite IHd; reflexivity.
Qed.

Lemma int_digits_id s :
  all_chars digit s = true -> int_digits true s = Some s.
Proof.
  induction s as [|c r IH]; simpl; [reflexivity|].
  intros H. apply andb_true_iff in H. destruct H as [Hc Hr].
  destruct (digit_not_special c Hc) as [_ [-> _]].
  rewrite (IH Hr). reflexivity.
Qed.

Lemma int_unsigned_uint d :
  d <> Decimal.Nil ->
  int_unsigned (NilEmpty.string_of_uint d) = Some (Z.of_uint d).
Proof.
  intros Hd. unfold int_unsigned.
  pose proof (uint_digits d) as Hdig.
  pose proof (NilZero.usu d Hd) as Husu.
  assert (Hs : NilZero.string_of_uint d = NilEmpty.string_of_uint d)
    by (destruct d; try reflexivity; contradiction).
  rewrite Hs in Husu.
  destruct (NilEmpty.string_of_uint d) as [|c r] eqn:E.
  - destruct d; try discriminate; contradiction.
  - simpl in Hdig. apply andb_true_iff in Hdig. destruct Hdig as [Hc Hr].
    assert (Hid : int_digits false (String c r) = Some (String c r)).
    { simpl. destruct (digit_not_special c Hc) as [_ [-> _]].
      rewrite (int_digits_id r Hr). reflexivity. }
    rewrite Hid, Husu. reflexivity.
Qed.

Lemma str_int_pos p :
  str_int (Z.pos p) = NilEmpty.string_of_uint (Pos.to_uint p).
Proof.
  unfold str_int. simpl.
  pose proof (Unsigned.to_uint_nonnil p) as H.
  destruct (Pos.to_uint p); try reflexivity. contradiction.
Qed.

Lemma str_int_neg p :
  str_int (Z.neg p) = String "-" (NilEmpty.string_of_uint (Pos.to_uint p)).
Proof.
  unfold str_int. simpl.
  pose proof (Unsigned.to_uint_nonnil p) as H.
  destruct (Pos.to_uint p); try reflexivity. contradiction.
Qed.

Lemma str_int_chars z : all_chars int_char (str_int z) = true.
Proof.
  destruct z as [|p|p].
  - reflexivity.
  - rewrite str_int_pos. eapply all_chars_weaken; [apply digit_int_char|].
    apply uint_digits.
  - rewrite str_int_neg. simpl.
    eapply all_chars_weaken; [apply digit_int_char|]. apply uint_digits.
Qed.

Lemma of_uint_to_uint p : Z.of_uint (Pos.to_uint p) = Z.pos p.
Proof.
  unfold Z.of_uint. rewrite Unsigned.of_to. reflexivity.
Qed.

(** [int(str(z)) == z] *)
Lemma int_str_int z : int (str_int z) = Some z.
Proof.
  unfold int.
  rewrite strip_version_chars
    by (eapply all_chars_weaken; [apply int_char_version_char|];
        apply str_int_chars).
  destruct z as [|p|p].
  - reflexivity.
  - rewrite str_int_pos.
    pose proof (uint_digits (Pos.to_uint p)) as Hdig.
    pose proof (int_unsigned_uint _ (Unsigned.to_uint_nonnil p)) as Hint.
    destruct (NilEmpty.string_of_uint (Pos.to_uint p)) as [|c r] eqn:E.
    + discriminate.
    + simpl in Hdig. apply andb_true_iff in Hdig. destruct Hdig as [Hc _].
      destruct (digit_not_special c Hc) as [_ [_ [-> [-> _]]]].
      rewrite Hint, of_uint_to_uint. reflexivity.
  - rewrite str_int_neg.
    replace (Ascii.eqb "-" "-") with true by reflexivity.
    rewrite (int_unsigned_uint _ (Unsigned.to_uint_nonnil p)).
    rewrite of_uint_to_uint. reflexivity.
Qed.

(** *** [split] and [join] *)

Lemma split_dot_nonempty s : split_dot s <> [].
Proof.
  destruct s as [|c r]; simpl; [discriminate|].
  destruct (Ascii.eqb c "."); [discriminate|].
  destruct (split_dot r); discriminate.
Qed.

Lemma split_dot_single s :
  all_chars (fun c => negb (Ascii.eqb c ".")) s = true -> split_dot s = [s].
Proof.
  induction s as [|c r IH]; simpl; [reflexivity|].
  intros H. apply andb_true_iff in H. destruct H as [Hc Hr].
  apply negb_true_iff in Hc. rewrite Hc, (IH Hr). reflexivity.
Qed.

Lemma split_dot_app s t :
  all_chars (fun c => negb (Ascii.eqb c ".")) s = true ->
  split_dot (s ++ String "." t)%string = s :: split_dot t.
Proof.
  induction s as [|c r IH]; simpl; [reflexivity|].
  intros H. apply andb_true_iff in H. destruct H as [Hc Hr].
  apply negb_true_iff in Hc. rewrite Hc, (IH Hr). reflexivity.
Qed.

Lemma split_join_dot (l : list string) :
  l <> [] ->
  Forall (fun s => all_chars (fun c => negb (Ascii.eqb c ".")) s = true) l ->
  split_dot (join_dot l) = l.
Proof.
  intros Hne Hall. induction Hall as [|x r Hx Hr IH]; [contradiction|].
  unfold join_dot in *. destruct r as [|y r'].
  - simpl. apply split_dot_single. exact Hx.
  - change (String.concat "." (x :: y :: r'))
      with (x ++ String "." (String.concat "." (y :: r')))%string.
    rewrite (split_dot_app _ _ Hx), IH; [reflexivity | discriminate].
Qed.

Lemma join_dot_chars (l : list string) :
  Forall (fun s => all_chars int_char s = true) l ->
  all_chars version_char (join_dot l) = true.
Proof.
  unfold join_dot. induction 1 as [|x r Hx Hr IH]; [reflexivity|].
  destruct r as [|y r'].
  - simpl. revert Hx. apply all_chars_weaken, int_char_version_char.
  - change (String.concat "." (x :: y :: r'))
      with (x ++ String "." (String.concat "." (y :: r')))%string.
    rewrite all_chars_app. cbn [all_chars]. rewrite IH.
    change (version_char ".") with true. rewrite !andb_true_r.
    revert Hx. apply all_chars_weaken, int_char_version_char.
Qed.

End PyFacts.


(** ** The two monads *)

Lemma rbind_ok {A B} (r : result A) (k : A -> result B) (b : B) :
  rbind r k = Ok b -> exists a, r = Ok a /\ k a = Ok b.
Proof.
  destruct r as [a|e]; simpl; intros H; [eauto | discriminate].
Qed.

Lemma filter_r_ok {A} (f : A -> result bool) (l l' : list A) :
  filter_r f l = Ok l' ->
  (forall x, In x l -> exists b, f x = Ok b) /\
  (forall x, In x l' <-> In x l /\ f x = Ok true).
Proof.
  revert l'. induction l as [|x r IH]; simpl; intros l' H.
  - injection H as <-. split; [contradiction | intros x; simpl; tauto].
  - apply rbind_ok in H. destruct H as [b [Hb H]].
    apply rbind_ok in H. destruct H as [r' [Hr H]].
    injection H as <-.
    destruct (IH r' Hr) as [Hall Hin]. split.
    + intros y [<-|Hy]; eauto.
    + intros y. destruct b; simpl; rewrite ?Hin.
      * split.
        -- intros [<-|[Hy Hf]]; auto.
        -- intros [[<-|Hy] Hf]; auto.
      * split.
        -- intros [Hy Hf]; auto.
        -- intros [[<-|Hy] Hf]; [congruence | auto].
Qed.

Lemma filter_r_total {A} (f : A -> result bool) (l : list A) :
  (forall x, In x l -> exists b, f x = Ok b) ->
  exists l', filter_r f l = Ok l'.
Proof.
  induction l as [|x r IH]; simpl; intros H; [eauto|].
  destruct (H x (or_introl eq_refl)) as [b ->].
  destruct IH as [r' ->]; [intros y Hy; apply H; auto|].
  simpl. eauto.
Qed.

Lemma bind_done {A B} (m : M A) (k : A -> M B) self b self' :
  bind m k self = Done b self' ->
  exists a self1, m self = Done a self1 /\ k a self1 = Done b self'.
Proof.
  unfold bind. destruct (m self) as [a s1|e s1|]; intros H;
    [eauto | discriminate | discriminate].
Qed.




Lemma get_var_done (pkg : Package) self :
  exists var self', _get_var pkg self = Done var self'.
Proof.
  unfold _get_var. destruct (dict_get _ _ _); eauto.
Qed.


Lemma lift_done {A} (r : result A) self a self' :
  lift r self = Done a self' -> r = Ok a /\ self' = self.
Proof.
  destruct r; simpl; unfold ret, raise; intros H;
    [injection H as <- <-; auto | discriminate].
Qed.


Lemma bind_failed_intro {A B} (m : M A) (k : A -> M B) self e self' :
  m self = Failed e self' -> bind m k self = Failed e self'.
Proof. intros H. unfold bind. rewrite H. reflexivity. Qed.

Lemma bind_done_intro {A B} (m : M A) (k : A -> M B) self a self1 :
  m self = Done a self1 -> bind m k self = k a self1.
Proof. intros H. unfold bind. rewrite H. reflexivity. Qed.





(** ** Clause emission *)

Section Emission.
Variable graph : PackageGraph.






Lemma emitted_candidate p q :
  emitted graph p -> candidate_of graph p q -> emitted graph q.
Proof.
  intros Hp. destruct Hp as [p _ H]. apply H.
Qed.

Lemma emitted_closure p q :
  emitted graph p -> clos_refl_trans _ (candidate_of graph) p q ->
  emitted graph q.
Proof.
  intros Hp Hq. apply clos_rt_rt1n in Hq.
  induction Hq as [|x y z Hxy _ IH]; [assumption|].
  apply IH. eapply emitted_candidate; eauto.
Qed.





End Emission.

(** ** [Solver.solve] *)

Section Solve.
Variable oracle : Oracle.
Variable graph : PackageGraph.






Lemma solve_failed_wrapped fuel requested self e self' :
  solve oracle graph fuel requested self = Failed e self' ->
  exists e0 self0,
    solve_try oracle graph fuel requested self = Failed e0 self0 /\
    e = ResolutionError ("Failed to resolve dependencies: " ++ exn_str e0)%string /\
    self' = delete_solver self0.
Proof.
  unfold solve.
  destruct (solve_try oracle graph fuel requested self) as [s t|e0 t|];
    intros H; try discriminate.
  injection H as <- <-. eauto.
Qed.





Lemma prune_solution_ok solution pruned :
  _prune_solution solution = Ok pruned -> pruned = solution.
Proof.
  unfold _prune_solution. intros H.
  apply rbind_ok in H. destruct H as [dependents [_ H]].
  injection H as <-. reflexivity.
Qed.
End Solve.



(** C10.  Whatever the [try] block of [solve] raises, [solve] raises a
    [ResolutionError] whose message is "Failed to resolve dependencies: "
    followed by the message of that exception, and [solve] raises nothing
    else; a requested package that is not found is reported in this way
    too. *)
Theorem solve_wraps_every_exception :
  forall oracle graph fuel requested self,
    (forall e0 self0,
        solve_try oracle graph fuel requested self = Failed e0 self0 ->
        solve oracle graph fuel requested self
        = Failed (ResolutionError
                    ("Failed to resolve dependencies: " ++ exn_str e0)%string)
                 (delete_solver self0)) /\
    (forall e self',
        solve oracle graph fuel requested self = Failed e self' ->
        exists e0 self0,
          solve_try oracle graph fuel requested self = Failed e0 self0 /\
          e = ResolutionError
                ("Failed to resolve dependencies: " ++ exn_str e0)%string) /\
    (forall n c rest,
        requested = (n, c) :: rest ->
        get_package graph n c = Ok None ->
        solve oracle graph fuel requested self
        = Failed (ResolutionError
                    ("Failed to resolve dependencies: Package not found: "
                     ++ n ++ " " ++ c)%string)
                 (delete_solver self)).
Proof.
  intros oracle graph fuel requested self. split; [|split].
  - intros e0 self0 H. unfold solve. rewrite H. reflexivity.
  - intros e self' H. apply solve_failed_wrapped in H.
    destruct H as [e0 [self0 [H [-> _]]]]. eauto.
  - intros n c rest -> Hget. unfold solve, solve_try. simpl.
    unfold bind at 1. unfold bind at 1. unfold add_request.
    rewrite Hget. unfold bind at 1. simpl. reflexivity.
Qed.


(** ** Versions and constraints *)

Section Ordering.
Import PyFacts.

Lemma component_eqb_eq a b : component_eqb a b = true <-> a = b.
Proof.
  destruct a as [x|x], b as [y|y]; simpl; split; intros H;
    try discriminate.
  - apply Z.eqb_eq in H. congruence.
  - injection H as ->. apply Z.eqb_refl.
  - apply String.eqb_eq in H. congruence.
  - injection H as ->. apply String.eqb_refl.
Qed.

Lemma component_eqb_refl a : component_eqb a a = true.
Proof. apply component_eqb_eq. reflexivity. Qed.

Lemma component_eqb_sym a b : component_eqb a b = component_eqb b a.
Proof.
  destruct (component_eqb a b) eqn:E, (component_eqb b a) eqn:E';
    try reflexivity.
  - apply component_eqb_eq in E. subst. rewrite component_eqb_refl in E'.
    discriminate.
  - apply component_eqb_eq in E'. subst. rewrite component_eqb_refl in E.
    discriminate.
Qed.

Lemma string_leb_trans x y z :
  String.leb x y = true -> String.leb y z = true -> String.leb x z = true.
Proof.
  unfold String.leb. intros Hxy Hyz.
  destruct (String.compare x y) eqn:Exy; try discriminate;
    destruct (String.compare y z) eqn:Eyz; try discriminate.
  - apply String.compare_eq_iff in Exy. subst. rewrite Eyz. reflexivity.
  - apply String.compare_eq_iff in Exy. subst. rewrite Eyz. reflexivity.
  - apply String.compare_eq_iff in Eyz. subst. rewrite Exy. reflexivity.
  - apply OrderedTypeEx.String_as_OT.cmp_lt in Exy, Eyz.
    pose proof (OrderedTypeEx.String_as_OT.lt_trans _ _ _ Exy Eyz) as H.
    apply OrderedTypeEx.String_as_OT.cmp_lt in H.
    unfold OrderedTypeEx.String_as_OT.cmp in H. rewrite H. reflexivity.
Qed.

Lemma string_compare_refl x : String.compare x x = Eq.
Proof.
  pose proof (String.compare_antisym x x) as H.
  destruct (String.compare x x); try reflexivity; discriminate.
Qed.

Lemma component_le_trans a b c :
  component_compare OpLe a b = Ok true ->
  component_compare OpLe b c = Ok true ->
  component_compare OpLe a c = Ok true.
Proof.
  destruct a as [x|x], b as [y|y], c as [z|z]; simpl; try discriminate;
    intros H1 H2; injection H1 as H1; injection H2 as H2; f_equal.
  - apply Z.leb_le in H1, H2. apply Z.leb_le. lia.
  - eapply string_leb_trans; eauto.
Qed.

Lemma component_le_antisym a b :
  component_compare OpLe a b = Ok true ->
  component_compare OpLe b a = Ok true -> a = b.
Proof.
  destruct a as [x|x], b as [y|y]; simpl; try discriminate;
    intros H1 H2; injection H1 as H1; injection H2 as H2; f_equal.
  - apply Z.leb_le in H1, H2. lia.
  - apply String.leb_antisym; assumption.
Qed.

(** On two different components [<] and [<=] agree. *)
Lemma component_lt_le a b r :
  component_eqb a b = false ->
  component_compare OpLt a b = Ok r ->
  component_compare OpLe a b = Ok r.
Proof.
  destruct a as [x|x], b as [y|y]; simpl; try discriminate; intros H Hr;
    injection Hr as <-; f_equal.
  - apply Z.eqb_neq in H.
    destruct (Z.ltb_spec x y), (Z.leb_spec x y); try reflexivity; lia.
  - unfold String.ltb, String.leb.
    destruct (String.compare x y) eqn:E; try reflexivity.
    apply String.compare_eq_iff in E. subst.
    rewrite String.eqb_refl in H. discriminate.
Qed.

Lemma component_not_lt a b :
  component_compare OpLt a b = Ok false ->
  component_compare OpLe b a = Ok true.
Proof.
  destruct a as [x|x], b as [y|y]; simpl; try discriminate;
    intros H; injection H as H; f_equal.
  - apply Z.ltb_ge in H. apply Z.leb_le. exact H.
  - unfold String.ltb in H. unfold String.leb.
    rewrite String.compare_antisym.
    destruct (String.compare x y); try reflexivity; discriminate.
Qed.

Lemma list_le_refl v : list_compare OpLe v v = Ok true.
Proof.
  induction v as [|x v IH]; simpl; [reflexivity|].
  rewrite component_eqb_refl. exact IH.
Qed.

Lemma list_lt_le v w :
  list_compare OpLt v w = Ok true -> list_compare OpLe v w = Ok true.
Proof.
  revert w. induction v as [|x v IH]; intros [|y w]; simpl;
    try discriminate; try reflexivity.
  destruct (component_eqb x y) eqn:E; [apply IH|].
  apply component_lt_le. exact E.
Qed.

Lemma list_not_lt v w :
  list_compare OpLt v w = Ok false -> list_compare OpLe w v = Ok true.
Proof.
  revert w. induction v as [|x v IH]; intros [|y w]; simpl;
    try discriminate; try reflexivity.
  rewrite (component_eqb_sym y x).
  destruct (component_eqb x y) eqn:E; [apply IH|].
  apply component_not_lt.
Qed.

Lemma list_le_trans u :
  forall v w,
    list_compare OpLe u v = Ok true ->
    list_compare OpLe v w = Ok true ->
    list_compare OpLe u w = Ok true.
Proof.
  induction u as [|x u IH]; intros [|y v] [|z w]; simpl;
    try discriminate; try reflexivity.
  destruct (component_eqb x y) eqn:Exy.
  - apply component_eqb_eq in Exy. subst y.
    destruct (component_eqb x z) eqn:Exz; [apply IH | trivial].
  - destruct (component_eqb y z) eqn:Eyz.
    + apply component_eqb_eq in Eyz. subst z. rewrite Exy. trivial.
    + intros H1 H2.
      destruct (component_eqb x z) eqn:Exz.
      * apply component_eqb_eq in Exz. subst z.
        pose proof (component_le_antisym _ _ H1 H2) as Heq. subst y.
        rewrite component_eqb_refl in Exy. discriminate.
      * eapply component_le_trans; eauto.
Qed.

(** *** Versions of integers *)

Lemma numeric_parts (ps : list component) :
  forallb is_int ps = true -> exists zs, ps = map CInt zs.
Proof.
  induction ps as [|[z|s] ps IH]; simpl; intros H.
  - exists []. reflexivity.
  - destruct (IH H) as [zs ->]. exists (z :: zs). reflexivity.
  - discriminate.
Qed.

Lemma numeric_numeric_version zs : numeric (numeric_version zs) = true.
Proof.
  unfold numeric. simpl. induction zs; simpl; auto.
Qed.

Lemma compare_lt_numeric v w :
  list_compare OpLt (map CInt v) (map CInt w) = Ok (lex_lt v w).
Proof.
  revert w. induction v as [|x v IH]; intros [|y w]; simpl;
    try reflexivity.
  destruct (Z.eqb_spec x y) as [->|Hne].
  - rewrite IH, Z.ltb_irrefl. reflexivity.
  - rewrite andb_false_l, orb_false_r. reflexivity.
Qed.

Lemma compare_le_numeric v w :
  list_compare OpLe (map CInt v) (map CInt w) = Ok (lex_le v w).
Proof.
  revert w. induction v as [|x v IH]; intros [|y w]; simpl;
    try reflexivity.
  destruct (Z.eqb_spec x y) as [->|Hne].
  - rewrite IH, Z.ltb_irrefl. reflexivity.
  - rewrite andb_false_l, orb_false_r. f_equal.
    destruct (Z.ltb_spec x y), (Z.leb_spec x y); try reflexivity; lia.
Qed.

Lemma lex_le_not_lt v w : lex_le v w = negb (lex_lt w v).
Proof.
  revert w. induction v as [|x v IH]; intros [|y w]; simpl;
    try reflexivity.
  rewrite IH.
  destruct (Z.ltb_spec x y), (Z.ltb_spec y x), (Z.eqb_spec x y),
    (Z.eqb_spec y x); simpl; try reflexivity; lia.
Qed.

Lemma next_breaking_length base :
  List.length (next_breaking base) = List.length base.
Proof.
  induction base as [|[|p|p] r IH]; simpl; try rewrite IH;
    try rewrite repeat_length; reflexivity.
Qed.

Lemma next_breaking_zeros base :
  Forall (fun z => z = 0) base -> next_breaking base = base.
Proof.
  induction 1 as [|z r -> _ IH]; simpl; [reflexivity|].
  rewrite IH. reflexivity.
Qed.

Lemma bump_numeric base :
  bump_first_nonzero (map CInt base) = Ok (map CInt (next_breaking base)).
Proof.
  induction base as [|[|p|p] r IH]; simpl; try reflexivity.
  - rewrite IH. reflexivity.
  - rewrite length_map, map_repeat. reflexivity.
  - rewrite length_map, map_repeat. reflexivity.
Qed.

(** [Version(str(v)) == v] for a version of integers. *)
Lemma Version_of_string_str zs :
  zs <> [] ->
  Version_of_string (Py.join_dot (map str_component (map CInt zs)))
  = numeric_version zs.
Proof.
  intros Hne. unfold Version_of_string, numeric_version. f_equal.
  rewrite map_map. simpl.
  rewrite split_join_dot.
  - rewrite map_map. apply map_ext. intros z. rewrite int_str_int.
    reflexivity.
  - destruct zs; [contradiction | discriminate].
  - apply Forall_forall. intros s Hs. apply in_map_iff in Hs.
    destruct Hs as [z [<- _]].
    eapply all_chars_weaken; [|apply str_int_chars].
    intros c Hc. rewrite (int_char_not_dot c Hc). reflexivity.
Qed.

Lemma strip_Version_str zs :
  Py.strip (Version_str (numeric_version zs))
  = Version_str (numeric_version zs).
Proof.
  apply strip_version_chars. unfold Version_str. simpl.
  apply join_dot_chars. apply Forall_forall. intros s Hs.
  apply in_map_iff in Hs. destruct Hs as [c [<- Hc]].
  apply in_map_iff in Hc. destruct Hc as [z [<- _]].
  apply str_int_chars.
Qed.

Lemma startswith_other c d p s :
  Ascii.eqb c d = false -> Py.startswith (String d s) (String c p) = false.
Proof.
  intros H. unfold Py.startswith. simpl.
  destruct (ascii_dec c d) as [->|_]; [|reflexivity].
  rewrite Ascii.eqb_refl in H. discriminate.
Qed.

Lemma startswith_char c s :
  Py.startswith (String c s) (String c EmptyString) = true.
Proof.
  unfold Py.startswith. simpl.
  destruct (ascii_dec c c) as [_|H]; [|contradiction].
  destruct s; reflexivity.
Qed.

(** A constraint that starts with a caret takes the caret branch. *)
Lemma caret_branch self s :
  satisfies_constraint self (String "^" s)
  = (below <- Version_lt (version self) (Version_of_string (Py.strip s)) ;;
     if below then Ok false
     else
       upper_parts <-
         bump_first_nonzero (parts (Version_of_string (Py.strip s))) ;;
       Version_lt (version self)
         (Version_of_string
            (Py.join_dot (map str_component upper_parts))))%result.
Proof.
  unfold satisfies_constraint.
  replace (String.eqb (String "^" s) "*" || String.eqb (String "^" s) "")
    with false by reflexivity.
  rewrite !startswith_other by reflexivity.
  rewrite startswith_char. reflexivity.
Qed.

(** The caret branch on versions of integers. *)
Lemma caret_numeric self zs ws :
  version self = numeric_version zs -> ws <> [] ->
  satisfies_constraint self
    (String "^" (Version_str (numeric_version ws)))
  = Ok (lex_le ws zs && lex_lt zs (next_breaking ws)).
Proof.
  intros Hv Hne.
  rewrite caret_branch, strip_Version_str. unfold Version_str.
  cbn [parts numeric_version].
  rewrite (Version_of_string_str ws Hne), Hv.
  unfold Version_lt at 1. cbn [parts numeric_version].
  rewrite compare_lt_numeric. cbn [rbind].
  rewrite lex_le_not_lt.
  destruct (lex_lt zs ws); [reflexivity|].
  cbn [negb andb]. rewrite bump_numeric. cbn [rbind].
  rewrite Version_of_string_str.
  - unfold Version_lt. cbn [parts numeric_version].
    rewrite compare_lt_numeric. reflexivity.
  - intros E. apply (f_equal (@List.length Z)) in E.
    rewrite next_breaking_length in E. destruct ws; [contradiction|].
    discriminate.
Qed.
End Ordering.

(** C3 (as amended).  For a version [v] and a base [V] of integers,
    [satisfies_constraint(v, "^V")] is true iff [V <= v] and
    [v < next_breaking V], where [next_breaking] increments the first
    non-zero component and zeroes the later ones and leaves a base of
    zeros as it is; so a base of zeros is matched by no version.  In
    particular [^1.2.3] is the range from 1.2.3 up to, not including,
    2.0.0, and [^0.2.3] the range from 0.2.3 up to 0.3.0. *)
Theorem caret_semantics :
  forall self zs,
    version self = numeric_version zs ->
    (forall ws, ws <> [] ->
       satisfies_constraint self ("^" ++ Version_str (numeric_version ws))%string
       = Ok (lex_le ws zs && lex_lt zs (next_breaking ws))) /\
    (forall ws, ws <> [] -> Forall (fun z => z = 0) ws ->
       satisfies_constraint self ("^" ++ Version_str (numeric_version ws))%string
       = Ok false) /\
    satisfies_constraint self "^1.2.3"
    = Ok (lex_le [1; 2; 3] zs && lex_lt zs [2; 0; 0]) /\
    satisfies_constraint self "^0.2.3"
    = Ok (lex_le [0; 2; 3] zs && lex_lt zs [0; 3; 0]).
Proof.
  intros self zs Hv. repeat split.
  - intros ws Hne. apply caret_numeric; assumption.
  - intros ws Hne Hzero.
    change ("^" ++ Version_str (numeric_version ws))%string
      with (String "^" (Version_str (numeric_version ws))).
    rewrite (caret_numeric self zs ws Hv Hne).
    rewrite (next_breaking_zeros ws Hzero), lex_le_not_lt.
    destruct (lex_lt zs ws); reflexivity.
  - change "^1.2.3" with (String "^" (Version_str (numeric_version [1; 2; 3]))).
    rewrite (caret_numeric self zs [1; 2; 3] Hv); [reflexivity | discriminate].
  - change "^0.2.3" with (String "^" (Version_str (numeric_version [0; 2; 3]))).
    rewrite (caret_numeric self zs [0; 2; 3] Hv); [reflexivity | discriminate].
Qed.

(** ** [PackageGraph.get_package] *)

Section GetPackage.
Import PyFacts.

Lemma list_compare_numeric op v w :
  forallb is_int v = true -> forallb is_int w = true ->
  exists r, list_compare op v w = Ok r.
Proof.
  intros Hv Hw.
  destruct (numeric_parts v Hv) as [zs ->].
  destruct (numeric_parts w Hw) as [ws ->].
  destruct op; [rewrite compare_lt_numeric | rewrite compare_le_numeric];
    eauto.
Qed.

Lemma Version_of_string_parts s : parts (Version_of_string s) <> [].
Proof.
  unfold Version_of_string. simpl.
  pose proof (split_dot_nonempty s) as H.
  destruct (Py.split_dot s); [contradiction | discriminate].
Qed.

Lemma caret_total self base :
  numeric (version self) = true -> numeric base = true ->
  parts base <> [] ->
  exists b,
    (below <- Version_lt (version self) base ;;
     if below then Ok false
     else
       upper_parts <- bump_first_nonzero (parts base) ;;
       Version_lt (version self)
         (Version_of_string
            (Py.join_dot (map str_component upper_parts))))%result = Ok b.
Proof.
  intros Hself Hbase Hne.
  destruct (list_compare_numeric OpLt _ _ Hself Hbase) as [below Hb].
  unfold Version_lt at 1. rewrite Hb. cbn [rbind].
  destruct below; [eauto|].
  destruct (numeric_parts _ Hbase) as [ws Hws]. rewrite Hws.
  rewrite bump_numeric. cbn [rbind].
  rewrite Version_of_string_str.
  - apply list_compare_numeric; [exact Hself|].
    apply numeric_numeric_version.
  - intros E. apply (f_equal (@List.length Z)) in E.
    rewrite next_breaking_length in E. rewrite Hws in Hne.
    destruct ws; [contradiction | discriminate].
Qed.

(** On versions of integers a constraint is decided without exception. *)
Lemma satisfies_constraint_total self constraint :
  numeric (version self) = true ->
  numeric_constraint constraint = true ->
  exists b, satisfies_constraint self constraint = Ok b.
Proof.
  intros Hself. unfold numeric_constraint, constraint_operand,
    satisfies_constraint.
  destruct (String.eqb constraint "*" || String.eqb constraint "");
    [eauto|].
  destruct (Py.startswith constraint "=="); [eauto|].
  destruct (Py.startswith constraint ">=").
  { simpl. intros Hc. apply list_compare_numeric; assumption. }
  destruct (Py.startswith constraint "<=").
  { simpl. intros Hc. apply list_compare_numeric; assumption. }
  destruct (Py.startswith constraint ">").
  { simpl. intros Hc. apply list_compare_numeric; assumption. }
  destruct (Py.startswith constraint "<").
  { simpl. intros Hc. apply list_compare_numeric; assumption. }
  destruct (Py.startswith constraint "^"); [|eauto].
  simpl. intros Hc. apply caret_total; try assumption.
  apply Version_of_string_parts.
Qed.

(** The running maximum of [max]. *)
Lemma max_by_version_ok rest :
  forall maxitem best,
    max_by_version maxitem rest = Ok best ->
    (best = maxitem \/ In best rest) /\
    Version_le (version maxitem) (version best) = Ok true /\
    (forall q, In q rest -> Version_le (version q) (version best) = Ok true).
Proof.
  induction rest as [|item rest IH]; simpl; intros maxitem best H.
  - injection H as <-. repeat split; auto.
    + apply list_le_refl.
    + contradiction.
  - apply rbind_ok in H. destruct H as [greater [Hg H]].
    destruct (IH _ _ H) as [Hin [Hle Hall]].
    destruct greater.
    + repeat split.
      * destruct Hin as [->|Hin]; auto.
      * apply list_lt_le in Hg.
        eapply list_le_trans; [exact Hg | exact Hle].
      * intros q [<-|Hq]; auto.
    + repeat split.
      * destruct Hin as [->|Hin]; auto.
      * exact Hle.
      * intros q [<-|Hq]; auto.
        apply list_not_lt in Hg.
        eapply list_le_trans; [exact Hg | exact Hle].
Qed.

Lemma max_by_version_total rest :
  forall maxitem,
    numeric (version maxitem) = true ->
    (forall q, In q rest -> numeric (version q) = true) ->
    exists best, max_by_version maxitem rest = Ok best.
Proof.
  induction rest as [|item rest IH]; simpl; intros maxitem Hm Hrest;
    [eauto|].
  assert (Hi : numeric (version item) = true) by (apply Hrest; auto).
  destruct (list_compare_numeric OpLt _ _ Hm Hi) as [g Hg].
  unfold Version_lt. rewrite Hg. cbn [rbind].
  apply IH; [destruct g; assumption | intros q Hq; apply Hrest; auto].
Qed.

Lemma get_package_ok graph n constraint found :
  get_package graph n constraint = Ok found ->
  match found with
  | Some best =>
      In best (packages_get graph n) /\
      satisfies_constraint best constraint = Ok true /\
      (forall q, In q (packages_get graph n) ->
                 satisfies_constraint q constraint = Ok true ->
                 Version_le (version q) (version best) = Ok true)
  | None =>
      dict_get String.eqb (packages graph) n = None \/
      (forall q, In q (packages_get graph n) ->
                 satisfies_constraint q constraint = Ok false)
  end.
Proof.
  unfold get_package, packages_get.
  destruct (dict_get String.eqb (packages graph) n) as [records|];
    [|intros H; injection H as <-; left; reflexivity].
  intros H. apply rbind_ok in H. destruct H as [candidates [Hc H]].
  apply filter_r_ok in Hc. destruct Hc as [Hall Hin].
  destruct candidates as [|first rest].
  - injection H as <-. right. intros q Hq.
    destruct (Hall q Hq) as [[|] Hb]; [|exact Hb].
    destruct (proj2 (Hin q) (conj Hq Hb)).
  - apply rbind_ok in H. destruct H as [best [Hmax H]].
    injection H as <-.
    apply max_by_version_ok in Hmax. destruct Hmax as [Hbest [Hle Hrest]].
    assert (Hb : In best (first :: rest))
      by (destruct Hbest as [->|Hb]; [left|right]; auto).
    apply Hin in Hb. destruct Hb as [Hb1 Hb2].
    repeat split; try assumption.
    intros q Hq Hs.
    destruct (proj2 (Hin q) (conj Hq Hs)) as [<-|Hq']; auto.
Qed.

Lemma get_package_none graph n constraint :
  dict_get String.eqb (packages graph) n = None \/
  (forall q, In q (packages_get graph n) ->
             satisfies_constraint q constraint = Ok false) ->
  get_package graph n constraint = Ok None.
Proof.
  unfold get_package, packages_get.
  destruct (dict_get String.eqb (packages graph) n) as [records|];
    [|reflexivity].
  intros [H|H]; [discriminate|].
  assert (Hf : filter_r (fun pkg => satisfies_constraint pkg constraint)
                        records = Ok []).
  { induction records as [|x r IHr]; simpl; [reflexivity|].
    rewrite (H x (or_introl eq_refl)). simpl.
    rewrite IHr; [reflexivity|]. intros q Hq. apply H. right. exact Hq. }
  rewrite Hf. reflexivity.
Qed.

Lemma get_package_total graph n constraint :
  (forall q, In q (packages_get graph n) -> numeric (version q) = true) ->
  numeric_constraint constraint = true ->
  exists found, get_package graph n constraint = Ok found.
Proof.
  unfold get_package, packages_get.
  destruct (dict_get String.eqb (packages graph) n) as [records|];
    [|eauto].
  intros Hnum Hc.
  destruct (filter_r_total
              (fun pkg => satisfies_constraint pkg constraint) records)
    as [candidates Hf].
  { intros q Hq. apply satisfies_constraint_total; auto. }
  rewrite Hf. cbn [rbind].
  apply filter_r_ok in Hf. destruct Hf as [_ Hin].
  destruct candidates as [|first rest]; [eauto|].
  destruct (max_by_version_total rest first) as [best Hbest].
  - apply Hnum. apply (Hin first). left. reflexivity.
  - intros q Hq. apply Hnum. apply (Hin q). right. exact Hq.
  - rewrite Hbest. simpl. eauto.
Qed.
End GetPackage.

(** C7.  Whenever [get_package(name, constraint)] returns, it returns a
    record of [name] that satisfies the constraint and whose version is at
    least the version of every record of [name] that satisfies it, or it
    returns [None], and this exactly when the name is unknown or no record
    of it satisfies the constraint; and it does return, without raising,
    when the versions of the records and of the constraint are made of
    integers. *)
Theorem get_package_maximum :
  forall graph n constraint,
    (forall found,
        get_package graph n constraint = Ok found ->
        match found with
        | Some best =>
            In best (packages_get graph n) /\
            satisfies_constraint best constraint = Ok true /\
            (forall q, In q (packages_get graph n) ->
                       satisfies_constraint q constraint = Ok true ->
                       Version_le (version q) (version best) = Ok true)
        | None =>
            dict_get String.eqb (packages graph) n = None \/
            (forall q, In q (packages_get graph n) ->
                       satisfies_constraint q constraint = Ok false)
        end) /\
    (dict_get String.eqb (packages graph) n = None \/
     (forall q, In q (packages_get graph n) ->
                satisfies_constraint q constraint = Ok false) ->
     get_package graph n constraint = Ok None) /\
    ((forall q, In q (packages_get graph n) -> numeric (version q) = true) ->
     numeric_constraint constraint = true ->
     exists found, get_package graph n constraint = Ok found).
Proof.
  intros graph n constraint. split; [|split].
  - apply get_package_ok.
  - apply get_package_none.
  - apply get_package_total.
Qed.

(** ** Duplicate records *)

Section Duplicates.

Lemma dict_get_set_same {V} (d : list (string * V)) k v :
  dict_get String.eqb (dict_set String.eqb d k v) k = Some v.
Proof.
  induction d as [|[k' v'] r IH]; simpl.
  - rewrite String.eqb_refl. reflexivity.
  - destruct (String.eqb k' k) eqn:E; simpl; rewrite E; auto.
Qed.

Lemma dict_get_set_other {V} (d : list (string * V)) k v k2 :
  k2 <> k ->
  dict_get String.eqb (dict_set String.eqb d k v) k2
  = dict_get String.eqb d k2.
Proof.
  intros Hne. induction d as [|[k' v'] r IH]; simpl.
  - destruct (String.eqb_spec k k2); [congruence | reflexivity].
  - destruct (String.eqb_spec k' k) as [->|Hk]; simpl.
    + destruct (String.eqb_spec k k2); [congruence | reflexivity].
    + rewrite IH. reflexivity.
Qed.

Lemma add_package_same graph p :
  packages_get (add_package graph p) (name p)
  = packages_get graph (name p) ++ [p].
Proof.
  unfold add_package, packages_get. simpl.
  rewrite dict_get_set_same.
  destruct (dict_get String.eqb (packages graph) (name p)) eqn:E.
  - rewrite E. reflexivity.
  - rewrite dict_get_set_same. reflexivity.
Qed.

Lemma add_package_other graph p n :
  n <> name p ->
  packages_get (add_package graph p) n = packages_get graph n.
Proof.
  intros Hne. unfold add_package, packages_get. simpl.
  rewrite dict_get_set_other by exact Hne.
  destruct (dict_get String.eqb (packages graph) (name p)); [reflexivity|].
  rewrite dict_get_set_other by exact Hne. reflexivity.
Qed.

Lemma parts_eqb_sym v w : parts_eqb v w = parts_eqb w v.
Proof.
  revert w. induction v as [|x v IH]; intros [|y w]; simpl; try reflexivity.
  rewrite component_eqb_sym, IH. reflexivity.
Qed.

Lemma Package_eq_sym p q : Package_eq p q = Package_eq q p.
Proof.
  unfold Package_eq, Version_eq.
  rewrite String.eqb_sym, parts_eqb_sym. reflexivity.
Qed.


Lemma distinct_records_snoc l p :
  distinct_records l ->
  (forall q, In q l -> Package_eq q p = false) ->
  distinct_records (l ++ [p]).
Proof.
  induction l as [|x l IH]; simpl; intros Hd Hp.
  - split; [contradiction | exact I].
  - destruct Hd as [Hx Hl]. split.
    + intros q Hq. apply in_app_or in Hq. destruct Hq as [Hq|[<-|[]]]; auto.
    + apply IH; auto.
Qed.


Variable Version_global : result (string -> Version).

(** One call either leaves the graph as it is or adds a package that is
    equal to no record the graph holds under that name. *)
Lemma repository_add_package_step self d self' :
  repository_invariant self ->
  Repository.add_package Version_global self d = Ok self' ->
  repository_invariant self' /\
  (Repository.graph self' = Repository.graph self \/
   exists pkg,
     Repository.graph self' = add_package (Repository.graph self) pkg /\
     forall other,
       In other (packages_get (Repository.graph self) (name pkg)) ->
       Package_eq other pkg = false).
Proof.
  intros Hinv. unfold Repository.add_package. intros H.
  apply rbind_ok in H. destruct H as [n [_ H]].
  apply rbind_ok in H. destruct H as [Version_class [_ H]].
  apply rbind_ok in H. destruct H as [v [_ H]].
  set (pkg := mkPackage n (Version_class v)
                match Repository.data_dependencies d with
                | Some deps => deps
                | None => []
                end
                match Repository.data_description d with
                | Some s => s
                | None => ""
                end AVAILABLE) in *.
  set (packages1 :=
         match dict_get String.eqb (Repository.repo_packages self) (name pkg) with
         | Some _ => Repository.repo_packages self
         | None => dict_set String.eqb (Repository.repo_packages self) (name pkg) []
         end) in *.
  assert (Hp1 : forall k,
             match dict_get String.eqb packages1 k with
             | Some l => l
             | None => []
             end = packages_get (Repository.graph self) k).
  { intros k. rewrite <- (proj1 (Hinv k)). unfold packages1.
    destruct (dict_get String.eqb (Repository.repo_packages self) (name pkg))
      eqn:E; [reflexivity|].
    destruct (String.eqb_spec k (name pkg)) as [->|Hk].
    - rewrite dict_get_set_same, E. reflexivity.
    - rewrite dict_get_set_other by exact Hk. reflexivity. }
  rewrite (Hp1 (name pkg)) in H.
  destruct (existsb (fun other => Package_eq other pkg)
                    (packages_get (Repository.graph self) (name pkg))) eqn:Ex;
    simpl in H; injection H as <-.
  - split; [|left; reflexivity].
    intros k. simpl. rewrite Hp1. split; [reflexivity|]. apply Hinv.
  - assert (Hnew : forall other,
               In other (packages_get (Repository.graph self) (name pkg)) ->
               Package_eq other pkg = false).
    { intros other Hin.
      destruct (Package_eq other pkg) eqn:E; [|reflexivity].
      assert (Ht : existsb (fun other => Package_eq other pkg)
                     (packages_get (Repository.graph self) (name pkg)) = true)
        by (apply existsb_exists; eauto).
      congruence. }
    split; [|right; exists pkg; split; [reflexivity | exact Hnew]].
    intros k. simpl.
    destruct (String.eqb_spec k (name pkg)) as [->|Hk].
    + rewrite dict_get_set_same, add_package_same.
      destruct (Hinv (name pkg)) as [_ [Hd Hn]].
      split; [reflexivity|]. split.
      * apply distinct_records_snoc; assumption.
      * intros q Hq. apply in_app_or in Hq.
        destruct Hq as [Hq|[<-|[]]]; auto.
    + rewrite dict_get_set_other by exact Hk.
      rewrite add_package_other by exact Hk.
      rewrite Hp1. split; [reflexivity|]. apply Hinv.
Qed.

Lemma repository_init_invariant :
  repository_invariant Repository.PackageRepository_init.
Proof.
  intros n. simpl. repeat split; contradiction.
Qed.

Lemma add_packages_invariant l :
  forall self,
    repository_invariant self ->
    repository_invariant (add_packages Version_global self l).
Proof.
  induction l as [|d l IH]; simpl; intros self Hinv; [exact Hinv|].
  destruct (Repository.add_package Version_global self d) as [self'|e] eqn:E.
  - apply IH. eapply repository_add_package_step; eauto.
  - apply IH. exact Hinv.
Qed.
End Duplicates.


(** ** [Solver.parallel_solve] *)

Section ParallelSolve.
Variable oracle : Oracle.
Variable graph : PackageGraph.


End ParallelSolve.


(** ** The examples *)

(** The first test of the solver: the four packages are selected. *)
Example solve_test_graph :
  exists self',
    solve exhaustive_oracle test_graph 10 [("A", "1.0.0")] Solver_init
    = Done [package "A" "1.0.0" [("B", ">=1.0.0"); ("C", ">=1.0.0")];
            package "B" "1.0.0" [("D", ">=1.0.0")];
            package "D" "1.0.0" [];
            package "C" "1.0.0" [("D", ">=1.0.0")]] self'.
Proof. eexists. vm_compute. reflexivity. Qed.






(** C3, counterexample.  The base [0.0.0] has zeros only and [1.0.0] is
    not below it, and yet [^0.0.0] does not match [1.0.0]. *)
Lemma caret_zero_base_matches_nothing :
  Forall (fun z => z = 0) [0; 0; 0] /\
  lex_le [0; 0; 0] [1; 0; 0] = true /\
  satisfies_constraint (package "p" "1.0.0" []) "^0.0.0" = Ok false /\
  satisfies_constraint (package "p" "0.0.0" []) "^0.0.0" = Ok false.
Proof.
  repeat split; try reflexivity. repeat constructor.
Qed.

(** C3, witness: the version 1.5.0 against four caret ranges. *)
Lemma caret_semantics_witness :
  version (package "p" "1.5.0" []) = numeric_version [1; 5; 0] /\
  satisfies_constraint (package "p" "1.5.0" []) "^1.2.3" = Ok true /\
  satisfies_constraint (package "p" "1.5.0" []) "^0.2.3" = Ok false /\
  satisfies_constraint (package "p" "1.5.0" []) "^2.0.0" = Ok false /\
  satisfies_constraint (package "p" "1.5.0" []) "^0.0.0" = Ok false.
Proof.
  assert (Hv : version (package "p" "1.5.0" []) = numeric_version [1; 5; 0])
    by reflexivity.
  destruct (caret_semantics (package "p" "1.5.0" []) [1; 5; 0] Hv)
    as [Hrange [Hzero [H123 H023]]].
  split; [exact Hv|]. split; [|split; [|split]].
  - exact H123.
  - exact H023.
  - exact (Hrange [2; 0; 0] ltac:(discriminate)).
  - exact (Hzero [0; 0; 0] ltac:(discriminate) ltac:(repeat constructor)).
Defined.










(** C10, witness: a requested package that is not found, a comparison
    that raises [TypeError], and clauses without a model are all reported
    as [ResolutionError]s with the same prefix. *)
Lemma solve_wraps_every_exception_witness :
  (exists self',
      solve exhaustive_oracle test_graph 10 [("Q", "1.0.0")] Solver_init
      = Failed (ResolutionError
                  "Failed to resolve dependencies: Package not found: Q 1.0.0")
               self') /\
  (exists self',
      solve exhaustive_oracle test_graph 10 [("A", "^x")] Solver_init
      = Failed (ResolutionError
                  "Failed to resolve dependencies: '<' not supported between instances of 'int' and 'str'")
               self') /\
  (exists self',
      solve exhaustive_oracle siblings_graph 10
        [("X", "==1.0.0"); ("X", "==3.0.0")] Solver_init
      = Failed (ResolutionError
                  "Failed to resolve dependencies: No solution found for the given constraints")
               self').
Proof.
  split; [|split].
  - eexists.
    exact (proj2 (proj2 (solve_wraps_every_exception exhaustive_oracle
                           test_graph 10 [("Q", "1.0.0")] Solver_init))
             "Q" "1.0.0" [] eq_refl eq_refl).
  - destruct (solve_try exhaustive_oracle test_graph 10 [("A", "^x")]
                Solver_init) as [s t|e0 t|] eqn:Htry;
      try (vm_compute in Htry; discriminate Htry).
    exists (delete_solver t).
    rewrite (proj1 (solve_wraps_every_exception exhaustive_oracle test_graph
                      10 [("A", "^x")] Solver_init) e0 t Htry).
    vm_compute in Htry. injection Htry as <- _. reflexivity.
  - eexists. vm_compute. reflexivity.
Defined.


(** C7, witness: the graph of the graph tests; the newest of two
    versions, one exact version, an unknown name, and no match. *)
Lemma get_package_maximum_witness :
  let graph :=
    graph_of [package "pkg1" "1.0.0" [("dep1", ">=1.0.0")];
              package "pkg1" "2.0.0" [("dep1", ">=2.0.0")];
              package "dep1" "1.0.0" [];
              package "dep1" "2.0.0" []] in
  get_package graph "pkg1" "*"
  = Ok (Some (package "pkg1" "2.0.0" [("dep1", ">=2.0.0")])) /\
  get_package graph "pkg1" "==1.0.0"
  = Ok (Some (package "pkg1" "1.0.0" [("dep1", ">=1.0.0")])) /\
  get_package graph "other" "*" = Ok None /\
  get_package graph "dep1" ">2.0.0" = Ok None /\
  (forall q, In q (packages_get graph "pkg1") ->
             satisfies_constraint q "*" = Ok true ->
             Version_le (version q) (Version_of_string "2.0.0") = Ok true).
Proof.
  intros graph.
  split; [reflexivity|]. split; [reflexivity|]. split; [|split].
  - exact (proj1 (proj2 (get_package_maximum graph "other" "*"))
             (or_introl eq_refl)).
  - reflexivity.
  - exact (proj2 (proj2 (proj1 (get_package_maximum graph "pkg1" "*")
                           (Some (package "pkg1" "2.0.0" [("dep1", ">=2.0.0")]))
                           eq_refl))).
Defined.

(** The calls of [parallel_solve] work on one [Solver] object.  With a
    solver object that goes on answering after [delete()], the second
    request is answered from the clauses of both requests: asked for [D]
    alone, it gets the packages of [A] as well. *)
Example parallel_solve_shares_clauses :
  (exists self',
      parallel_solve reusable_oracle test_graph (fun futures => futures) 10
        [[("A", "1.0.0")]; [("D", "*")]] Solver_init
      = Done [[package "A" "1.0.0" [("B", ">=1.0.0"); ("C", ">=1.0.0")];
               package "B" "1.0.0" [("D", ">=1.0.0")];
               package "D" "1.0.0" [];
               package "C" "1.0.0" [("D", ">=1.0.0")]];
              [package "A" "1.0.0" [("B", ">=1.0.0"); ("C", ">=1.0.0")];
               package "B" "1.0.0" [("D", ">=1.0.0")];
               package "D" "1.0.0" [];
               package "C" "1.0.0" [("D", ">=1.0.0")]]] self') /\
  (exists self',
      solve reusable_oracle test_graph 10 [("D", "*")] Solver_init
      = Done [package "D" "1.0.0" []] self').
Proof. split; eexists; vm_compute; reflexivity. Qed.


(** * Further properties *)

(** ** Dictionaries with keys up to an equivalence *)

Section DictFacts.
Context {K V : Type} (eqb : K -> K -> bool).
Hypothesis eqb_refl : forall a, eqb a a = true.
Hypothesis eqb_sym : forall a b, eqb a b = eqb b a.
Hypothesis eqb_trans :
  forall a b c, eqb a b = true -> eqb b c = true -> eqb a c = true.

Lemma dict_get_compat (d : list (K * V)) k1 k2 :
  eqb k1 k2 = true -> dict_get eqb d k1 = dict_get eqb d k2.
Proof.
  intros H. induction d as [|[k v] r IH]; simpl; [reflexivity|].
  destruct (eqb k k1) eqn:E1, (eqb k k2) eqn:E2; auto.
  - rewrite (eqb_trans k k1 k2 E1 H) in E2. discriminate.
  - rewrite eqb_sym in H. rewrite (eqb_trans k k2 k1 E2 H) in E1.
    discriminate.
Qed.

Lemma dict_get_set (d : list (K * V)) k v k2 :
  dict_get eqb (dict_set eqb d k v) k2
  = if eqb k k2 then Some v else dict_get eqb d k2.
Proof.
  induction d as [|[k' v'] r IH]; simpl; [reflexivity|].
  destruct (eqb k' k) eqn:E; simpl.
  - destruct (eqb k' k2) eqn:E2, (eqb k k2) eqn:E3; auto.
    + rewrite eqb_sym in E. rewrite (eqb_trans k k' k2 E E2) in E3.
      discriminate.
    + rewrite (eqb_trans k' k k2 E E3) in E2. discriminate.
  - destruct (eqb k' k2) eqn:E2; [|exact IH].
    destruct (eqb k k2) eqn:E3; [|reflexivity].
    rewrite eqb_sym in E3. rewrite (eqb_trans k' k2 k E2 E3) in E.
    discriminate.
Qed.
End DictFacts.

(** ** [Package.__eq__] *)

Lemma parts_eqb_eq v w : parts_eqb v w = true <-> v = w.
Proof.
  revert w. induction v as [|x v IH]; intros [|y w]; simpl; split;
    try discriminate; try reflexivity; intros H.
  - apply andb_true_iff in H. destruct H as [H1 H2].
    apply component_eqb_eq in H1. apply IH in H2. congruence.
  - injection H as -> ->. rewrite component_eqb_refl. simpl.
    apply IH. reflexivity.
Qed.

Lemma Package_eq_iff p q :
  Package_eq p q = true <->
  name p = name q /\ parts (version p) = parts (version q).
Proof.
  unfold Package_eq, Version_eq. rewrite andb_true_iff, String.eqb_eq,
    parts_eqb_eq. reflexivity.
Qed.

Lemma Package_eq_refl p : Package_eq p p = true.
Proof. apply Package_eq_iff. auto. Qed.

Lemma Package_eq_trans p q r :
  Package_eq p q = true -> Package_eq q r = true -> Package_eq p r = true.
Proof.
  rewrite !Package_eq_iff. intros [H1 H2] [H3 H4]. split; congruence.
Qed.

Lemma var_of_compat self p q :
  Package_eq p q = true -> var_of self p = var_of self q.
Proof.
  apply dict_get_compat; [apply Package_eq_sym | apply Package_eq_trans].
Qed.

(** ** The variable tables along the emission *)

Lemma extends_refl self : extends self self.
Proof.
  repeat split; auto; [exists []; symmetry; apply app_nil_r | lia].
Qed.

Lemma extends_trans s1 s2 s3 : extends s1 s2 -> extends s2 s3 -> extends s1 s3.
Proof.
  intros [A1 [B1 [[a1 C1] D1]]] [A2 [B2 [[a2 C2] D2]]].
  repeat split; auto; [|lia].
  exists (a1 ++ a2). rewrite C2, C1, app_assoc. reflexivity.
Qed.

Lemma extends_clause s s' c : extends s s' -> In c (_cnf s) -> In c (_cnf s').
Proof.
  intros [_ [_ [[added E] _]]] H. rewrite E. apply in_or_app. left. exact H.
Qed.

Lemma clauses_of_extends graph s s' p :
  extends s s' -> clauses_of graph s p -> clauses_of graph s' p.
Proof.
  intros Hext [v [Hv [Hex Hdep]]]. exists v.
  split; [apply Hext; exact Hv|]. split.
  - intros other Hin Hne. destruct (Hex other Hin Hne) as [ov [Hov Hc]].
    exists ov. split; [apply Hext; exact Hov | eapply extends_clause; eauto].
  - intros d c Hd. destruct (Hdep d c Hd) as [vars [Hc Hvars]].
    exists vars. split; [eapply extends_clause; eauto|].
    intros w Hw. destruct (Hvars w Hw) as [q [Hq [Hs Hvq]]].
    exists q. repeat split; auto. apply Hext. exact Hvq.
Qed.

Lemma get_var_spec pkg s v s' :
  tables_agree s -> _get_var pkg s = Done v s' ->
  tables_agree s' /\ extends s s' /\ var_of s' pkg = Some v.
Proof.
  intros Hs H. unfold _get_var in H.
  destruct (dict_get Package_eq (_pkg_to_var s) pkg) as [var|] eqn:E.
  - injection H as <- <-. split; [exact Hs|]. split; [apply extends_refl|].
    exact E.
  - injection H as <- <-. destruct Hs as [Hpos [Ha Hb]].
    assert (Hvar : forall p2,
               var_of (mkSolver (dict_set Z.eqb (_var_to_pkg s) (_next_var s) pkg)
                         (dict_set Package_eq (_pkg_to_var s) pkg (_next_var s))
                         (_next_var s + 1) (_solver_clauses s)
                         (_solver_deleted s) (_cnf s)) p2
               = if Package_eq pkg p2 then Some (_next_var s) else var_of s p2).
    { intros p2. unfold var_of. simpl.
      apply dict_get_set; [apply Package_eq_sym | apply Package_eq_trans]. }
    assert (Hpkg : forall v2,
               pkg_of (mkSolver (dict_set Z.eqb (_var_to_pkg s) (_next_var s) pkg)
                         (dict_set Package_eq (_pkg_to_var s) pkg (_next_var s))
                         (_next_var s + 1) (_solver_clauses s)
                         (_solver_deleted s) (_cnf s)) v2
               = if Z.eqb (_next_var s) v2 then Some pkg else pkg_of s v2).
    { intros v2. unfold pkg_of. simpl.
      apply dict_get_set; [apply Z.eqb_sym|].
      intros a b c H1 H2. apply Z.eqb_eq in H1, H2. apply Z.eqb_eq. lia. }
    assert (Hfresh : forall p2, Package_eq pkg p2 = true -> var_of s p2 = None).
    { intros p2 H2. rewrite <- (var_of_compat s pkg p2 H2). exact E. }
    split; [|split].
    + split; [simpl; lia|]. split.
      * intros p2 v2. rewrite Hvar.
        destruct (Package_eq pkg p2) eqn:E2.
        -- intros [= <-]. simpl. split; [lia|].
           exists pkg. rewrite Hpkg, Z.eqb_refl. auto.
        -- intros H2. destruct (Ha p2 v2 H2) as [Hr [p' [Hp' He]]].
           simpl. split; [lia|]. exists p'. rewrite Hpkg.
           destruct (Z.eqb_spec (_next_var s) v2); [lia | auto].
      * intros v2 p2. rewrite Hpkg.
        destruct (Z.eqb_spec (_next_var s) v2) as [<-|Hne].
        -- intros [= <-]. simpl. split; [lia|].
           rewrite Hvar, Package_eq_refl. reflexivity.
        -- intros H2. destruct (Hb v2 p2 H2) as [Hr Hv2].
           simpl. split; [lia|]. rewrite Hvar.
           destruct (Package_eq pkg p2) eqn:E2; [|exact Hv2].
           rewrite (Hfresh p2 E2) in Hv2. discriminate.
    + split; [|split; [|split]].
      * intros p2 v2 H2. rewrite Hvar.
        destruct (Package_eq pkg p2) eqn:E2; [|exact H2].
        rewrite (Hfresh p2 E2) in H2. discriminate.
      * intros v2 p2 H2. rewrite Hpkg.
        destruct (Hb v2 p2 H2) as [Hr _].
        destruct (Z.eqb_spec (_next_var s) v2); [lia | exact H2].
      * exists []. simpl. symmetry. apply app_nil_r.
      * simpl. lia.
    + rewrite Hvar, Package_eq_refl. reflexivity.
Qed.

Lemma add_clause_spec c s u s' :
  tables_agree s -> _add_clause c s = Done u s' ->
  tables_agree s' /\ extends s s' /\ In c (_cnf s').
Proof.
  intros Hs H. unfold _add_clause in H. injection H as _ <-.
  split; [exact Hs|]. split.
  - repeat split; auto; [exists [c]; reflexivity | simpl; lia].
  - simpl. apply in_or_app. right. left. reflexivity.
Qed.

Lemma map_get_var_spec l :
  forall s vars s',
    tables_agree s -> map_m _get_var l s = Done vars s' ->
    tables_agree s' /\ extends s s' /\
    (forall w, In w vars -> exists q, In q l /\ var_of s' q = Some w).
Proof.
  induction l as [|x l IH]; simpl; intros s vars s' Hs H.
  - injection H as <- <-. split; [exact Hs|]. split; [apply extends_refl|].
    contradiction.
  - apply bind_done in H. destruct H as [v [s1 [Hv H]]].
    apply bind_done in H. destruct H as [vs [s2 [Hvs H]]].
    injection H as <- <-.
    destruct (get_var_spec _ _ _ _ Hs Hv) as [Hs1 [He1 Hx]].
    destruct (IH _ _ _ Hs1 Hvs) as [Hs2 [He2 Hl]].
    split; [exact Hs2|]. split; [eapply extends_trans; eauto|].
    intros w [<-|Hw].
    + exists x. split; [left; reflexivity | apply He2; exact Hx].
    + destruct (Hl w Hw) as [q [Hq Hvq]]. exists q. split; [right|]; auto.
Qed.

(** A loop whose body keeps the tables and establishes, for its item, a
    fact that later states keep. *)
Lemma for_each_spec {A} (body : A -> M unit) (Q : A -> Solver -> Prop)
    (l : list A) :
  (forall x s u s', In x l -> tables_agree s -> body x s = Done u s' ->
                    tables_agree s' /\ extends s s' /\ Q x s') ->
  (forall x s s', Q x s -> extends s s' -> Q x s') ->
  forall s u s',
    tables_agree s -> for_each l body s = Done u s' ->
    tables_agree s' /\ extends s s' /\ forall x, In x l -> Q x s'.
Proof.
  intros Hbody Hmono. induction l as [|x l IH]; simpl; intros s u s' Hs H.
  - injection H as _ <-. split; [exact Hs|]. split; [apply extends_refl|].
    contradiction.
  - apply bind_done in H. destruct H as [[] [s1 [Hx H]]].
    destruct (Hbody x s tt s1 (or_introl eq_refl) Hs Hx) as [Hs1 [He1 Hq]].
    destruct IH with (s := s1) (u := u) (s' := s') as [Hs' [He2 Hl]]; auto.
    { intros y t w t' Hy. apply Hbody. right. exact Hy. }
    split; [exact Hs'|]. split; [eapply extends_trans; eauto|].
    intros y [<-|Hy]; [eapply Hmono; eauto | auto].
Qed.

Section EmissionTables.
Variable graph : PackageGraph.

Lemma exclusion_spec pkg v (l : list Package) s u s' :
  tables_agree s -> var_of s pkg = Some v ->
  for_each l
    (fun other_pkg =>
       if negb (Package_eq other_pkg pkg) then
         (other_var <- _get_var other_pkg ;;
          _add_clause [- v; - other_var])%solver
       else ret tt) s = Done u s' ->
  tables_agree s' /\ extends s s' /\
  (forall other, In other l -> Package_eq other pkg = false ->
     exists ov, var_of s' other = Some ov /\ In [- v; - ov] (_cnf s')).
Proof.
  intros Hs Hv H.
  apply (for_each_spec _
           (fun other st => Package_eq other pkg = false ->
              exists ov, var_of st other = Some ov /\ In [- v; - ov] (_cnf st)))
    in H; auto.
  - intros other t w t' _ Ht Hbody.
    destruct (Package_eq other pkg) eqn:E; simpl in Hbody.
    + injection Hbody as _ <-. split; [exact Ht|].
      split; [apply extends_refl | discriminate].
    + apply bind_done in Hbody. destruct Hbody as [ov [t1 [Hov Hc]]].
      destruct (get_var_spec _ _ _ _ Ht Hov) as [Ht1 [He1 Hvo]].
      destruct (add_clause_spec _ _ _ _ Ht1 Hc) as [Ht' [He2 Hin]].
      split; [exact Ht'|]. split; [eapply extends_trans; eauto|].
      intros _. exists ov. split; [apply He2; exact Hvo | exact Hin].
  - intros other t t' Hq Hext Hne. destruct (Hq Hne) as [ov [Hov Hc]].
    exists ov. split; [apply Hext; exact Hov | eapply extends_clause; eauto].
Qed.

(** What the emission leaves behind when it ends: the tables still
    agree, nothing was taken back, and the clauses of the package and of
    everything it reaches are in place. *)
Lemma add_package_constraints_spec fuel :
  forall pkg s u s',
    tables_agree s ->
    _add_package_constraints graph fuel pkg s = Done u s' ->
    tables_agree s' /\ extends s s' /\
    (forall r, clos_refl_trans _ (candidate_of graph) pkg r ->
               clauses_of graph s' r).
Proof.
  induction fuel as [|fuel IH]; intros pkg s u s' Hs H; [discriminate|].
  cbn [_add_package_constraints] in H.
  apply bind_done in H. destruct H as [v [s1 [Hv H]]].
  apply bind_done in H. destruct H as [[] [s2 [Hex H]]].
  destruct (get_var_spec _ _ _ _ Hs Hv) as [Hs1 [He1 Hv1]].
  destruct (exclusion_spec _ _ _ _ _ _ Hs1 Hv1 Hex) as [Hs2 [He2 Hexcl]].
  apply (for_each_spec _
           (fun dep st =>
              (exists vars,
                  In (- v :: vars) (_cnf st) /\
                  forall w, In w vars ->
                    exists q, In q (packages_get graph (fst dep)) /\
                              satisfies_constraint q (snd dep) = Ok true /\
                              var_of st q = Some w) /\
              (forall q, In q (packages_get graph (fst dep)) ->
                         satisfies_constraint q (snd dep) = Ok true ->
                         forall r, clos_refl_trans _ (candidate_of graph) q r ->
                                   clauses_of graph st r)))
    in H; auto.
  - destruct H as [Hs' [He3 Hdeps]].
    assert (He : extends s s')
      by (eapply extends_trans; [|exact He3];
          eapply extends_trans; eauto).
    split; [exact Hs'|]. split; [exact He|].
    intros r Hr. apply clos_rt_rt1n in Hr.
    inversion Hr as [|q r' Hstep Hrest]; subst.
    + exists v. split; [apply He3, He2; exact Hv1|]. split.
      * intros other Hin Hne.
        destruct (Hexcl other Hin Hne) as [ov [Hov Hc]].
        exists ov.
        split; [apply He3; exact Hov | exact (extends_clause _ _ _ He3 Hc)].
      * intros d c Hd. destruct (Hdeps (d, c) Hd) as [Hclause _].
        exact Hclause.
    + destruct Hstep as [d [c [Hd [Hq Hsat]]]].
      destruct (Hdeps (d, c) Hd) as [_ Hrec].
      apply (Hrec q Hq Hsat). apply clos_rt1n_rt. exact Hrest.
  - intros [d c] t w t' Hd Ht Hbody. simpl.
    unfold add_dependency_constraints in Hbody.
    apply bind_done in Hbody. destruct Hbody as [candidates [t1 [Hc Hbody]]].
    apply lift_done in Hc. destruct Hc as [Hc ->].
    apply filter_r_ok in Hc. destruct Hc as [_ Hin].
    destruct candidates as [|c0 cs]; [discriminate|].
    apply bind_done in Hbody. destruct Hbody as [vars [t2 [Hvars Hbody]]].
    apply bind_done in Hbody. destruct Hbody as [[] [t3 [Hcl Hbody]]].
    destruct (map_get_var_spec _ _ _ _ Ht Hvars) as [Ht2 [Het2 Hvs]].
    destruct (add_clause_spec _ _ _ _ Ht2 Hcl) as [Ht3 [Het3 Hclause]].
    apply (for_each_spec _
             (fun q st => forall r, clos_refl_trans _ (candidate_of graph) q r ->
                                    clauses_of graph st r))
      in Hbody; auto.
    + destruct Hbody as [Ht' [Het4 Hrec]].
      split; [exact Ht'|].
      split; [eapply extends_trans; [|exact Het4];
              eapply extends_trans; eauto|].
      split.
      * exists vars. split; [eapply extends_clause; eauto|].
        intros x Hx. destruct (Hvs x Hx) as [q [Hq Hvq]].
        apply Hin in Hq. destruct Hq as [Hq Hsat].
        exists q. repeat split; auto. apply Het4, Het3. exact Hvq.
      * intros q Hq Hsat. apply Hrec. apply Hin. auto.
    + intros q t4 w4 t5 _ Ht4 Hq. eapply IH; eauto.
    + intros q t4 t5 Hq Hext r Hr. eapply clauses_of_extends; eauto.
  - intros [d c] t t' [[vars [Hc Hvs]] Hrec] Hext. simpl in *. split.
    + exists vars. split; [eapply extends_clause; eauto|].
      intros x Hx. destruct (Hvs x Hx) as [q [Hq [Hsat Hvq]]].
      exists q. repeat split; auto. apply Hext. exact Hvq.
    + intros q Hq Hsat r Hr. eapply clauses_of_extends; eauto.
Qed.

(** The same for one request and for the loop over the requests. *)
Lemma add_request_spec fuel n c s u s' :
  tables_agree s ->
  add_request graph fuel (n, c) s = Done u s' ->
  tables_agree s' /\ extends s s' /\
  exists p v,
    get_package graph n c = Ok (Some p) /\
    var_of s' p = Some v /\ In [v] (_cnf s') /\
    (forall r, clos_refl_trans _ (candidate_of graph) p r ->
               clauses_of graph s' r).
Proof.
  intros Hs H. unfold add_request in H.
  apply bind_done in H. destruct H as [found [s1 [Hf H]]].
  apply lift_done in Hf. destruct Hf as [Hf ->].
  destruct found as [p|]; [|discriminate].
  apply bind_done in H. destruct H as [v [s2 [Hv H]]].
  apply bind_done in H. destruct H as [[] [s3 [Hc H]]].
  destruct (get_var_spec _ _ _ _ Hs Hv) as [Hs2 [He2 Hvp]].
  destruct (add_clause_spec _ _ _ _ Hs2 Hc) as [Hs3 [He3 Hin]].
  destruct (add_package_constraints_spec _ _ _ _ _ Hs3 H) as [Hs' [He4 Hcl]].
  split; [exact Hs'|].
  split; [eapply extends_trans; [|exact He4]; eapply extends_trans; eauto|].
  exists p, v. split; [exact Hf|].
  split; [apply He4, He3; exact Hvp|].
  split; [eapply extends_clause; eauto | exact Hcl].
Qed.

Lemma requests_spec fuel requested s u s' :
  tables_agree s ->
  for_each requested (add_request graph fuel) s = Done u s' ->
  tables_agree s' /\ extends s s' /\
  (forall n c, In (n, c) requested ->
     exists p v, get_package graph n c = Ok (Some p) /\
                 var_of s' p = Some v /\ In [v] (_cnf s')) /\
  (forall r, reachable graph requested r -> clauses_of graph s' r).
Proof.
  intros Hs H.
  apply (for_each_spec _
           (fun request st =>
              exists p v,
                get_package graph (fst request) (snd request) = Ok (Some p) /\
                var_of st p = Some v /\ In [v] (_cnf st) /\
                (forall r, clos_refl_trans _ (candidate_of graph) p r ->
                           clauses_of graph st r)))
    in H; auto.
  - destruct H as [Hs' [He Hreq]].
    split; [exact Hs'|]. split; [exact He|]. split.
    + intros n c Hin. destruct (Hreq (n, c) Hin) as [p [v [Hg [Hv [Hc _]]]]].
      exists p, v. auto.
    + intros r Hr.
      assert (Hroot : exists n c p,
                 In (n, c) requested /\ get_package graph n c = Ok (Some p) /\
                 clos_refl_trans _ (candidate_of graph) p r).
      { induction Hr as [n c p Hin Hget|p q _ IHr Hstep].
        - exists n, c, p. split; [exact Hin|]. split; [exact Hget|].
          apply rt_refl.
        - destruct IHr as [n [c [p0 [Hin [Hget Hrt]]]]].
          exists n, c, p0. split; [exact Hin|]. split; [exact Hget|].
          eapply rt_trans; [exact Hrt | apply rt_step; exact Hstep]. }
      destruct Hroot as [n [c [p [Hin [Hget Hrt]]]]].
      destruct (Hreq (n, c) Hin) as [p' [v [Hg [_ [_ Hcl]]]]].
      simpl in Hg. assert (p' = p) by congruence. subst p'.
      apply Hcl. exact Hrt.
  - intros [n c] t w t' _ Ht Hbody.
    destruct (add_request_spec _ _ _ _ _ _ Ht Hbody) as [Ht' [He Hp]].
    split; [exact Ht'|]. split; [exact He | exact Hp].
  - intros [n c] t t' [p [v [Hg [Hv [Hc Hcl]]]]] Hext.
    exists p, v. split; [exact Hg|]. split; [apply Hext; exact Hv|].
    split; [eapply extends_clause; eauto|].
    intros r Hr. eapply clauses_of_extends; eauto.
Qed.
End EmissionTables.

(** ** The solver object along the emission *)

Lemma keeps_solver_bind {A B} (m : M A) (k : A -> M B) :
  keeps_solver m -> (forall a, keeps_solver (k a)) -> keeps_solver (bind m k).
Proof.
  intros Hm Hk s. unfold bind. specialize (Hm s).
  destruct (m s) as [a s1|e s1|]; auto.
  specialize (Hk a s1). destruct Hm as [H1 H2].
  destruct (k a s1) as [b s2|e s2|]; auto;
    destruct Hk as [H3 H4]; split; congruence.
Qed.

Lemma keeps_solver_ret {A} (a : A) : keeps_solver (ret a).
Proof. intros s. split; reflexivity. Qed.

Lemma keeps_solver_lift {A} (r : result A) : keeps_solver (lift r).
Proof. intros s. destruct r; split; reflexivity. Qed.

Lemma keeps_solver_get_var pkg : keeps_solver (_get_var pkg).
Proof.
  intros s. unfold _get_var. destruct (dict_get _ _ _); split; reflexivity.
Qed.

Lemma keeps_solver_add_clause c : keeps_solver (_add_clause c).
Proof. intros s. split; reflexivity. Qed.

Lemma keeps_solver_for_each {A} (body : A -> M unit) (l : list A) :
  (forall x, keeps_solver (body x)) -> keeps_solver (for_each l body).
Proof.
  intros Hbody. induction l as [|x l IH]; simpl.
  - apply keeps_solver_ret.
  - apply keeps_solver_bind; auto.
Qed.

Lemma keeps_solver_map_get_var l : keeps_solver (map_m _get_var l).
Proof.
  induction l as [|x l IH]; simpl.
  - apply keeps_solver_ret.
  - apply keeps_solver_bind; [apply keeps_solver_get_var|].
    intros v. apply keeps_solver_bind; [exact IH|].
    intros vs. apply keeps_solver_ret.
Qed.

Lemma keeps_solver_emission graph fuel :
  forall pkg, keeps_solver (_add_package_constraints graph fuel pkg).
Proof.
  induction fuel as [|fuel IH]; intros pkg; [intros s; exact I|].
  cbn [_add_package_constraints].
  apply keeps_solver_bind; [apply keeps_solver_get_var|]. intros v.
  apply keeps_solver_bind.
  - apply keeps_solver_for_each. intros other.
    destruct (negb (Package_eq other pkg)); [|apply keeps_solver_ret].
    apply keeps_solver_bind; [apply keeps_solver_get_var|].
    intros ov. apply keeps_solver_add_clause.
  - intros _. apply keeps_solver_for_each. intros [d c].
    unfold add_dependency_constraints.
    apply keeps_solver_bind; [apply keeps_solver_lift|].
    intros [|c0 cs]; [intros s; split; reflexivity|].
    apply keeps_solver_bind; [apply keeps_solver_map_get_var|]. intros vars.
    apply keeps_solver_bind; [apply keeps_solver_add_clause|]. intros _.
    apply keeps_solver_for_each. exact IH.
Qed.

Lemma keeps_solver_requests graph fuel requested :
  keeps_solver (for_each requested (add_request graph fuel)).
Proof.
  apply keeps_solver_for_each. intros [n c]. unfold add_request.
  apply keeps_solver_bind; [apply keeps_solver_lift|].
  intros [p|]; [|intros s; split; reflexivity].
  apply keeps_solver_bind; [apply keeps_solver_get_var|]. intros v.
  apply keeps_solver_bind; [apply keeps_solver_add_clause|]. intros _.
  apply keeps_solver_emission.
Qed.

(** ** The set extracted from a model *)

Lemma set_add_In s p q : In q (set_add s p) -> In q s \/ q = p.
Proof.
  unfold set_add. destruct (existsb _ s); [auto|].
  intros H. apply in_app_or in H. destruct H as [H|[H|[]]]; auto.
Qed.

Lemma set_add_keeps s p q : selected s q -> selected (set_add s p) q.
Proof.
  intros [q' [Hq He]]. exists q'. split; [|exact He].
  unfold set_add. destruct (existsb _ s); [exact Hq|].
  apply in_or_app. left. exact Hq.
Qed.

Lemma set_add_selected s p : selected (set_add s p) p.
Proof.
  unfold set_add.
  destruct (existsb (fun q => Package_eq q p) s) eqn:E.
  - apply existsb_exists in E. destruct E as [q [Hq He]]. exists q. auto.
  - exists p. split; [apply in_or_app; right; left; reflexivity|].
    apply Package_eq_refl.
Qed.

Lemma extract_solution_In self model p :
  In p (_extract_solution self model) ->
  exists v, In v model /\ 0 < v /\ pkg_of self v = Some p.
Proof.
  unfold _extract_solution.
  assert (H : forall acc,
             In p (fold_left
                     (fun solution var =>
                        if 0 <? var then
                          match dict_get Z.eqb (_var_to_pkg self) var with
                          | Some pkg => set_add solution pkg
                          | None => solution
                          end
                        else solution) model acc) ->
             In p acc \/
             exists v, In v model /\ 0 < v /\ pkg_of self v = Some p).
  { induction model as [|x model IH]; simpl; intros acc Hin; [auto|].
    apply IH in Hin. destruct Hin as [Hin|[v [Hv H]]].
    - destruct (Z.ltb_spec 0 x) as [Hx|Hx]; [|auto].
      destruct (dict_get Z.eqb (_var_to_pkg self) x) as [pkg|] eqn:E; [|auto].
      apply set_add_In in Hin. destruct Hin as [Hin| ->]; [auto|].
      right. exists x. auto.
    - right. exists v. split; [right; exact Hv | exact H]. }
  intros Hin. apply H in Hin. destruct Hin as [[]|Hin]. exact Hin.
Qed.

Lemma extract_solution_selected self model v p :
  In v model -> 0 < v -> pkg_of self v = Some p ->
  selected (_extract_solution self model) p.
Proof.
  unfold _extract_solution.
  assert (Hkeep : forall l acc,
             selected acc p ->
             selected (fold_left
                         (fun solution var =>
                            if 0 <? var then
                              match dict_get Z.eqb (_var_to_pkg self) var with
                              | Some pkg => set_add solution pkg
                              | None => solution
                              end
                            else solution) l acc) p).
  { induction l as [|x l IH]; simpl; intros acc Hacc; [exact Hacc|].
    apply IH. destruct (0 <? x); [|exact Hacc].
    destruct (dict_get Z.eqb (_var_to_pkg self) x); [|exact Hacc].
    apply set_add_keeps. exact Hacc. }
  intros Hv Hpos Hp. generalize (@nil Package).
  induction model as [|x model IH]; [contradiction|].
  intros acc. simpl. destruct Hv as [->|Hv]; [|apply IH; exact Hv].
  apply Hkeep. destruct (Z.ltb_spec 0 v) as [_|Hx]; [|lia].
  unfold pkg_of in Hp. rewrite Hp. apply set_add_selected.
Qed.

Lemma model_clause model clauses c :
  is_model model clauses = true -> In c clauses ->
  exists l, In l c /\ In l model.
Proof.
  unfold is_model. intros H Hc. apply andb_true_iff in H.
  destruct H as [_ H].
  pose proof (proj1 (forallb_forall _ _) H c Hc) as Hh.
  unfold clause_holds in Hh. apply existsb_exists in Hh.
  destruct Hh as [l [Hl Hm]]. exists l. split; [exact Hl|].
  apply lit_holds_In. exact Hm.
Qed.

Lemma model_consistent model clauses l :
  is_model model clauses = true -> In l model -> ~ In (- l) model.
Proof.
  unfold is_model. intros H Hl Hn. apply andb_true_iff in H.
  destruct H as [H _]. unfold consistent in H.
  pose proof (proj1 (forallb_forall _ _) H l Hl) as Hc.
  apply negb_true_iff in Hc. apply lit_holds_In in Hn. congruence.
Qed.

(** ** What a returned set is *)

Section SolveFacts.
Variable oracle : Oracle.
Variable graph : PackageGraph.

Lemma is_model_app m a b : is_model m (a ++ b) = true -> is_model m b = true.
Proof.
  unfold is_model. rewrite forallb_app, !andb_true_iff. tauto.
Qed.

Lemma solve_done_resolved fuel requested self sol self' :
  tables_agree self -> _solver_deleted self = false ->
  solve oracle graph fuel requested self = Done sol self' ->
  exists s1 m, extends self s1 /\ resolved graph requested s1 m sol.
Proof.
  intros Hs Hlive H. unfold solve in H.
  destruct (solve_try oracle graph fuel requested self) as [s t| |] eqn:Htry;
    try discriminate.
  injection H as <- <-. unfold solve_try in Htry.
  apply bind_done in Htry. destruct Htry as [[] [s1 [Hreq Htry]]].
  apply bind_done in Htry. destruct Htry as [m [s2 [Hor Htry]]].
  apply lift_done in Htry. destruct Htry as [Hprune ->].
  apply prune_solution_ok in Hprune. subst s.
  destruct (requests_spec graph _ _ _ _ _ Hs Hreq) as [Hs1 [He [Hroots Hcl]]].
  pose proof (keeps_solver_requests graph fuel requested self) as Hkeep.
  rewrite Hreq in Hkeep. destruct Hkeep as [Hk1 Hk2].
  unfold run_oracle in Hor. rewrite Hk2, Hlive in Hor.
  destruct (sat_solve oracle false (_solver_clauses s1 ++ _cnf s1))
    as [model|] eqn:Hsat; [|discriminate].
  injection Hor as <- <-.
  apply sat_sound, is_model_app in Hsat.
  exists s1, model. split; [exact He|].
  split; [exact Hs1|]. split; [exact Hroots|]. split; [exact Hcl|].
  split; [exact Hsat|]. split.
  - intros p Hp. apply extract_solution_In in Hp. exact Hp.
  - intros v p Hv Hpos Hp.
    apply (extract_solution_selected _ _ v); auto.
Qed.

Section Resolved.
Variable requested : list (string * string).
Variable s1 : Solver.
Variable m : list Z.
Variable sol : list Package.
Hypothesis Hres : resolved graph requested s1 m sol.

(** A selected package has its variable in the model, and a package
    whose variable is in the model is selected. *)
Lemma selected_var p v : selected sol p -> var_of s1 p = Some v -> In v m.
Proof.
  destruct Hres as [[_ [_ Hb]] [_ [_ [_ [Hsol _]]]]].
  intros [p' [Hin He]] Hv.
  destruct (Hsol p' Hin) as [v' [Hv' [_ Hp']]].
  destruct (Hb v' p' Hp') as [_ Hvar].
  rewrite (var_of_compat s1 p' p He) in Hvar.
  assert (v' = v) by congruence. subst. exact Hv'.
Qed.

Lemma var_selected p v : var_of s1 p = Some v -> In v m -> selected sol p.
Proof.
  destruct Hres as [[_ [Ha _]] [_ [_ [_ [_ Hsel]]]]].
  intros Hv Hin. destruct (Ha p v Hv) as [Hrange [p' [Hp' He]]].
  destruct (Hsel v p' Hin (proj1 Hrange) Hp') as [p'' [Hin'' He'']].
  exists p''. split; [exact Hin''|]. eapply Package_eq_trans; eauto.
Qed.

Lemma requested_selected n c :
  In (n, c) requested ->
  exists p, get_package graph n c = Ok (Some p) /\ selected sol p.
Proof.
  intros Hin.
  destruct Hres as [_ [Hroots [_ [Hmodel _]]]].
  destruct (Hroots n c Hin) as [p [v [Hget [Hv Hc]]]].
  exists p. split; [exact Hget|].
  destruct (model_clause _ _ _ Hmodel Hc) as [l [[<-|[]] Hl]].
  eapply var_selected; eauto.
Qed.

Lemma reachable_dependencies_met p dep_name constraint :
  reachable graph requested p -> selected sol p ->
  In (dep_name, constraint) (dependencies p) ->
  exists q, In q (packages_get graph dep_name) /\
            satisfies_constraint q constraint = Ok true /\
            selected sol q.
Proof.
  intros Hr Hsel Hd.
  destruct Hres as [_ [_ [Hcl [Hmodel _]]]].
  destruct (Hcl p Hr) as [v [Hv [_ Hdeps]]].
  destruct (Hdeps dep_name constraint Hd) as [vars [Hc Hvars]].
  pose proof (selected_var p v Hsel Hv) as Hvm.
  destruct (model_clause _ _ _ Hmodel Hc) as [l [[<-|Hl] Hlm]].
  - destruct (model_consistent _ _ _ Hmodel Hvm Hlm).
  - destruct (Hvars l Hl) as [q [Hq [Hsat Hvq]]].
    exists q. split; [exact Hq|]. split; [exact Hsat|].
    eapply var_selected; eauto.
Qed.

Lemma reachable_excludes p other :
  reachable graph requested p -> selected sol p ->
  In other (packages_get graph (name p)) ->
  Package_eq other p = false ->
  ~ selected sol other.
Proof.
  intros Hr Hsel Hin Hne Hother.
  destruct Hres as [_ [_ [Hcl [Hmodel _]]]].
  destruct (Hcl p Hr) as [v [Hv [Hex _]]].
  destruct (Hex other Hin Hne) as [ov [Hov Hc]].
  pose proof (selected_var p v Hsel Hv) as Hvm.
  pose proof (selected_var other ov Hother Hov) as Hom.
  destruct (model_clause _ _ _ Hmodel Hc) as [l [[<-|[<-|[]]] Hlm]].
  - exact (model_consistent _ _ _ Hmodel Hvm Hlm).
  - exact (model_consistent _ _ _ Hmodel Hom Hlm).
Qed.
End Resolved.
End SolveFacts.

(** ** The tables when [solve] fails *)

Lemma keeps_tables_bind {A B} (m : M A) (k : A -> M B) :
  keeps_tables m -> (forall a, keeps_tables (k a)) -> keeps_tables (bind m k).
Proof.
  intros Hm Hk s Hs. unfold bind. specialize (Hm s Hs).
  destruct (m s) as [a s1|e s1|]; auto.
  destruct Hm as [Hs1 He1]. specialize (Hk a s1 Hs1).
  destruct (k a s1) as [b s2|e s2|]; auto;
    destruct Hk as [Hs2 He2]; split; auto; eapply extends_trans; eauto.
Qed.

Lemma keeps_tables_ret {A} (a : A) : keeps_tables (ret a).
Proof. intros s Hs. split; [exact Hs | apply extends_refl]. Qed.

Lemma keeps_tables_lift {A} (r : result A) : keeps_tables (lift r).
Proof.
  intros s Hs. destruct r; split; auto; apply extends_refl.
Qed.

Lemma keeps_tables_get_var pkg : keeps_tables (_get_var pkg).
Proof.
  intros s Hs. destruct (get_var_done pkg s) as [v [s' H]]. rewrite H.
  destruct (get_var_spec _ _ _ _ Hs H) as [Hs' [He _]]. auto.
Qed.

Lemma keeps_tables_add_clause c : keeps_tables (_add_clause c).
Proof.
  intros s Hs.
  destruct (add_clause_spec c s tt _ Hs eq_refl) as [Hs' [He _]].
  unfold _add_clause. auto.
Qed.

Lemma keeps_tables_for_each {A} (body : A -> M unit) (l : list A) :
  (forall x, keeps_tables (body x)) -> keeps_tables (for_each l body).
Proof.
  intros Hbody. induction l as [|x l IH]; simpl.
  - apply keeps_tables_ret.
  - apply keeps_tables_bind; auto.
Qed.

Lemma keeps_tables_map_get_var l : keeps_tables (map_m _get_var l).
Proof.
  induction l as [|x l IH]; simpl.
  - apply keeps_tables_ret.
  - apply keeps_tables_bind; [apply keeps_tables_get_var|].
    intros v. apply keeps_tables_bind; [exact IH|].
    intros vs. apply keeps_tables_ret.
Qed.

Lemma keeps_tables_emission graph fuel :
  forall pkg, keeps_tables (_add_package_constraints graph fuel pkg).
Proof.
  induction fuel as [|fuel IH]; intros pkg; [intros s _; exact I|].
  cbn [_add_package_constraints].
  apply keeps_tables_bind; [apply keeps_tables_get_var|]. intros v.
  apply keeps_tables_bind.
  - apply keeps_tables_for_each. intros other.
    destruct (negb (Package_eq other pkg)); [|apply keeps_tables_ret].
    apply keeps_tables_bind; [apply keeps_tables_get_var|].
    intros ov. apply keeps_tables_add_clause.
  - intros _. apply keeps_tables_for_each. intros [d c].
    unfold add_dependency_constraints.
    apply keeps_tables_bind; [apply keeps_tables_lift|].
    intros [|c0 cs];
      [intros s Hs; split; [exact Hs | apply extends_refl]|].
    apply keeps_tables_bind; [apply keeps_tables_map_get_var|]. intros vars.
    apply keeps_tables_bind; [apply keeps_tables_add_clause|]. intros _.
    apply keeps_tables_for_each. exact IH.
Qed.

Lemma keeps_tables_requests graph fuel requested :
  keeps_tables (for_each requested (add_request graph fuel)).
Proof.
  apply keeps_tables_for_each. intros [n c]. unfold add_request.
  apply keeps_tables_bind; [apply keeps_tables_lift|].
  intros [p|]; [|intros s Hs; split; [exact Hs | apply extends_refl]].
  apply keeps_tables_bind; [apply keeps_tables_get_var|]. intros v.
  apply keeps_tables_bind; [apply keeps_tables_add_clause|]. intros _.
  apply keeps_tables_emission.
Qed.

Lemma keeps_tables_solve_try oracle graph fuel requested :
  keeps_tables (solve_try oracle graph fuel requested).
Proof.
  unfold solve_try.
  apply keeps_tables_bind; [apply keeps_tables_requests|]. intros _.
  apply keeps_tables_bind.
  - intros s Hs. unfold run_oracle.
    destruct (sat_solve oracle (_solver_deleted s)
                (_solver_clauses s ++ _cnf s));
      (split; [exact Hs|]);
      (repeat split; auto; [exists []; symmetry; apply app_nil_r | simpl; lia]).
  - intros model s Hs.
    destruct (_prune_solution (_extract_solution s model));
      split; auto; apply extends_refl.
Qed.

Lemma tables_agree_injective s p q v :
  tables_agree s -> var_of s p = Some v -> var_of s q = Some v ->
  Package_eq p q = true.
Proof.
  intros [_ [Ha _]] Hp Hq.
  destruct (Ha p v Hp) as [_ [p' [Hp' He]]].
  destruct (Ha q v Hq) as [_ [q' [Hq' He']]].
  assert (p' = q') by congruence. subst q'.
  rewrite Package_eq_sym in He. eapply Package_eq_trans; eauto.
Qed.

Lemma extract_solution_empty model :
  _extract_solution Solver_init model = [].
Proof.
  unfold _extract_solution.
  induction model as [|x model IH]; simpl; [reflexivity|].
  destruct (0 <? x); exact IH.
Qed.

Lemma tables_agree_init : tables_agree Solver_init.
Proof.
  split; [reflexivity|]. split; intros a b H; discriminate H.
Qed.

(** ** Properties of [Solver.solve] *)

(** X1.  Every requested package is in the set that [solve] returns: for
    each requested pair the record that [get_package] resolves it to is a
    member (up to [Package.__eq__]). *)
Theorem requested_packages_selected :
  forall oracle graph fuel requested self sol self',
    tables_agree self -> _solver_deleted self = false ->
    solve oracle graph fuel requested self = Done sol self' ->
    forall n c, In (n, c) requested ->
      exists p, get_package graph n c = Ok (Some p) /\ selected sol p.
Proof.
  intros oracle graph fuel requested self sol self' Hs Hlive H n c Hin.
  destruct (solve_done_resolved _ _ _ _ _ _ _ Hs Hlive H) as [s1 [m [_ Hres]]].
  eapply requested_selected; eauto.
Qed.

Lemma requested_packages_selected_witness :
  exists sol self',
    solve exhaustive_oracle test_graph 10 [("A", "1.0.0")] Solver_init
    = Done sol self' /\
    selected sol (package "A" "1.0.0" [("B", ">=1.0.0"); ("C", ">=1.0.0")]).
Proof.
  destruct (solve exhaustive_oracle test_graph 10 [("A", "1.0.0")] Solver_init)
    as [sol self'|e self'|] eqn:H;
    try (vm_compute in H; discriminate H).
  exists sol, self'. split; [reflexivity|].
  destruct (requested_packages_selected exhaustive_oracle test_graph 10
              [("A", "1.0.0")] Solver_init sol self' tables_agree_init
              eq_refl H "A" "1.0.0" (or_introl eq_refl)) as [p [Hget Hsel]].
  vm_compute in Hget. injection Hget as <-. exact Hsel.
Defined.

(** X2.  In the set that [solve] returns, every member that lies in the
    dependency closure of the request has each of its dependencies
    satisfied by a member: a record of the named package that satisfies
    the constraint. *)
Theorem closure_dependencies_met :
  forall oracle graph fuel requested self sol self',
    tables_agree self -> _solver_deleted self = false ->
    solve oracle graph fuel requested self = Done sol self' ->
    forall p dep_name constraint,
      reachable graph requested p -> selected sol p ->
      In (dep_name, constraint) (dependencies p) ->
      exists q, In q (packages_get graph dep_name) /\
                satisfies_constraint q constraint = Ok true /\
                selected sol q.
Proof.
  intros oracle graph fuel requested self sol self' Hs Hlive H p d c Hr Hsel Hd.
  destruct (solve_done_resolved _ _ _ _ _ _ _ Hs Hlive H) as [s1 [m [_ Hres]]].
  eapply reachable_dependencies_met; eauto.
Qed.

Lemma closure_dependencies_met_witness :
  exists sol self' q,
    solve exhaustive_oracle siblings_graph 10 [("R", "*")] Solver_init
    = Done sol self' /\
    In q (packages_get siblings_graph "W") /\
    satisfies_constraint q "*" = Ok true /\ selected sol q.
Proof.
  destruct (solve exhaustive_oracle siblings_graph 10 [("R", "*")] Solver_init)
    as [sol self'|e self'|] eqn:H;
    try (vm_compute in H; discriminate H).
  assert (Hr : reachable siblings_graph [("R", "*")] R1).
  { apply (reachable_request _ _ "R" "*"); [left; reflexivity | reflexivity]. }
  assert (Hsel : selected sol R1).
  { vm_compute in H. injection H as <- _. exists R1.
    split; [left; reflexivity | reflexivity]. }
  destruct (closure_dependencies_met exhaustive_oracle siblings_graph 10
              [("R", "*")] Solver_init sol self' tables_agree_init eq_refl H
              R1 "W" "*" Hr Hsel (or_introl eq_refl)) as [q Hq].
  exists sol, self', q. split; [reflexivity | exact Hq].
Defined.

(** X3.  In the set that [solve] returns, a member that lies in the
    dependency closure of the request excludes every other record of its
    name: no record of that name with another version is a member. *)
Theorem closure_excludes_other_versions :
  forall oracle graph fuel requested self sol self',
    tables_agree self -> _solver_deleted self = false ->
    solve oracle graph fuel requested self = Done sol self' ->
    forall p other,
      reachable graph requested p -> selected sol p ->
      In other (packages_get graph (name p)) ->
      Package_eq other p = false ->
      ~ selected sol other.
Proof.
  intros oracle graph fuel requested self sol self' Hs Hlive H p other
    Hr Hsel Hin Hne.
  destruct (solve_done_resolved _ _ _ _ _ _ _ Hs Hlive H) as [s1 [m [_ Hres]]].
  eapply reachable_excludes; eauto.
Qed.

Lemma closure_excludes_other_versions_witness :
  exists sol self',
    solve exhaustive_oracle siblings_graph 10 [("R", "*")] Solver_init
    = Done sol self' /\
    selected sol W2 /\ ~ selected sol W1.
Proof.
  destruct (solve exhaustive_oracle siblings_graph 10 [("R", "*")] Solver_init)
    as [sol self'|e self'|] eqn:H;
    try (vm_compute in H; discriminate H).
  assert (Hr : reachable siblings_graph [("R", "*")] W2).
  { apply (reachable_candidate _ _ R1).
    - apply (reachable_request _ _ "R" "*"); [left; reflexivity | reflexivity].
    - exists "W", "*". split; [left; reflexivity|].
      split; [right; left; reflexivity | reflexivity]. }
  assert (Hsel : selected sol W2).
  { vm_compute in H. injection H as <- _. exists W2.
    split; [right; left; reflexivity | reflexivity]. }
  exists sol, self'. split; [reflexivity|]. split; [exact Hsel|].
  exact (closure_excludes_other_versions exhaustive_oracle siblings_graph 10
           [("R", "*")] Solver_init sol self' tables_agree_init eq_refl H
           W2 W1 Hr Hsel (or_introl eq_refl) eq_refl).
Defined.

(** X4.  Two requests that resolve to different versions of one package
    cannot both be met: [solve] returns no set. *)
Theorem conflicting_requests_fail :
  forall oracle graph fuel requested self n c1 c2 p q,
    tables_agree self -> _solver_deleted self = false ->
    In (n, c1) requested -> In (n, c2) requested ->
    get_package graph n c1 = Ok (Some p) ->
    get_package graph n c2 = Ok (Some q) ->
    name p = n ->
    Package_eq q p = false ->
    forall sol self', solve oracle graph fuel requested self <> Done sol self'.
Proof.
  intros oracle graph fuel requested self n c1 c2 p q Hs Hlive Hin1 Hin2
    Hp Hq Hname Hne sol self' H.
  destruct (solve_done_resolved _ _ _ _ _ _ _ Hs Hlive H) as [s1 [m [_ Hres]]].
  destruct (requested_selected _ _ _ _ _ Hres n c1 Hin1) as [p' [Hp' Hsp]].
  destruct (requested_selected _ _ _ _ _ Hres n c2 Hin2) as [q' [Hq' Hsq]].
  assert (p' = p) by congruence. assert (q' = q) by congruence. subst p' q'.
  assert (Hr : reachable graph requested p)
    by exact (reachable_request _ _ n c1 p Hin1 Hp).
  assert (Hin : In q (packages_get graph (name p)))
    by (apply get_package_ok in Hq; rewrite Hname; exact (proj1 Hq)).
  exact (reachable_excludes _ _ _ _ _ Hres p q Hr Hsp Hin Hne Hsq).
Qed.

Lemma conflicting_requests_fail_witness :
  (forall sol self',
      solve exhaustive_oracle siblings_graph 10
        [("X", "==1.0.0"); ("X", "==3.0.0")] Solver_init <> Done sol self') /\
  exists self',
    solve exhaustive_oracle siblings_graph 10
      [("X", "==1.0.0"); ("X", "==3.0.0")] Solver_init
    = Failed (ResolutionError
                "Failed to resolve dependencies: No solution found for the given constraints")
             self'.
Proof.
  split.
  - exact (conflicting_requests_fail exhaustive_oracle siblings_graph 10
             [("X", "==1.0.0"); ("X", "==3.0.0")] Solver_init
             "X" "==1.0.0" "==3.0.0" X1 X3 tables_agree_init eq_refl
             (or_introl eq_refl) (or_intror (or_introl eq_refl))
             eq_refl eq_refl eq_refl eq_refl).
  - eexists. vm_compute. reflexivity.
Defined.

(** X5.  An empty request resolves to the empty set: on a new solver
    [solve([])] returns the empty set, with any oracle and any graph. *)
Theorem solve_empty_request :
  forall oracle graph fuel,
  exists self', solve oracle graph fuel [] Solver_init = Done [] self'.
Proof.
  intros oracle graph fuel. unfold solve, solve_try. simpl.
  unfold bind at 1. simpl. unfold bind at 1. unfold run_oracle. simpl.
  destruct (sat_solve oracle false []) as [model|] eqn:Hsat.
  - change (_extract_solution _ model)
      with (_extract_solution Solver_init model).
    rewrite extract_solution_empty. simpl. eauto.
  - pose proof (sat_complete oracle [] Hsat []) as H. discriminate H.
Qed.

(** X6.  A solver never takes back a variable or a clause: after [solve],
    whether it returned or raised, the two tables still agree, every
    package keeps the variable it had, every clause emitted before is
    still there with new ones after it, and the solver object is deleted;
    and two packages with one variable are equal. *)
Theorem solve_keeps_tables :
  forall oracle graph fuel requested self,
    tables_agree self ->
    (forall p q v, var_of self p = Some v -> var_of self q = Some v ->
                   Package_eq p q = true) /\
    match solve oracle graph fuel requested self with
    | Done _ self' =>
        tables_agree self' /\ extends self self' /\ _solver_deleted self' = true
    | Failed _ self' =>
        tables_agree self' /\ extends self self' /\ _solver_deleted self' = true
    | Diverges => True
    end.
Proof.
  intros oracle graph fuel requested self Hs. split.
  - intros p q v. apply tables_agree_injective. exact Hs.
  - pose proof (keeps_tables_solve_try oracle graph fuel requested self Hs) as H.
    unfold solve.
    destruct (solve_try oracle graph fuel requested self) as [a s1|e s1|];
      auto; destruct H as [Hs1 He]; (split; [exact Hs1|]);
      (split; [|reflexivity]); exact He.
Qed.

Lemma solve_keeps_tables_witness :
  tables_agree Solver_init /\
  exists e self',
    solve exhaustive_oracle test_graph 10 [("A", "1.0.0"); ("E", "1.0.0")]
      Solver_init = Failed e self' /\
    tables_agree self' /\ _solver_deleted self' = true /\
    List.length (_cnf self') = 6%nat.
Proof.
  split; [exact tables_agree_init|].
  destruct (solve exhaustive_oracle test_graph 10
              [("A", "1.0.0"); ("E", "1.0.0")] Solver_init)
    as [sol self'|e self'|] eqn:Hsolve;
    [ vm_compute in Hsolve; discriminate Hsolve
    | | vm_compute in Hsolve; discriminate Hsolve ].
  pose proof (solve_keeps_tables exhaustive_oracle test_graph 10
                [("A", "1.0.0"); ("E", "1.0.0")] Solver_init
                tables_agree_init) as H.
  rewrite Hsolve in H.
  exists e, self'. split; [reflexivity|].
  destruct H as [_ [Ht [_ Hd]]]. split; [exact Ht|]. split; [exact Hd|].
  vm_compute in Hsolve. injection Hsolve as _ <-. reflexivity.
Defined.

(** ** Properties of [class Version] *)

Lemma split_dot_no_dot s :
  Forall (fun p => all_chars (fun c => negb (Ascii.eqb c ".")) p = true)
         (Py.split_dot s).
Proof.
  induction s as [|c r IH]; simpl.
  - constructor; [reflexivity | constructor].
  - destruct (Ascii.eqb c ".") eqn:Ec.
    + constructor; [reflexivity | exact IH].
    + destruct (Py.split_dot r) as [|h t]; inversion IH; subst;
        constructor; simpl; try rewrite Ec; simpl; auto.
Qed.

Lemma parse_part_str part :
  parse_part (str_component (parse_part part)) = parse_part part.
Proof.
  unfold parse_part at 2 3. destruct (Py.int part) as [z|] eqn:E; simpl.
  - unfold parse_part. rewrite PyFacts.int_str_int. reflexivity.
  - unfold parse_part. rewrite E. reflexivity.
Qed.

Lemma parse_part_no_dot part :
  all_chars (fun c => negb (Ascii.eqb c ".")) part = true ->
  all_chars (fun c => negb (Ascii.eqb c "."))
            (str_component (parse_part part)) = true.
Proof.
  intros H. unfold parse_part. destruct (Py.int part) as [z|]; simpl.
  - eapply PyFacts.all_chars_weaken; [|apply PyFacts.str_int_chars].
    intros c Hc. rewrite (PyFacts.int_char_not_dot c Hc). reflexivity.
  - exact H.
Qed.

Lemma Version_of_string_Version_str s :
  Version_of_string (Version_str (Version_of_string s)) = Version_of_string s.
Proof.
  unfold Version_str, Version_of_string. cbn [parts]. f_equal.
  change (fun part => match Py.int part with
                      | Some z => CInt z
                      | None => CStr part
                      end) with parse_part.
  rewrite PyFacts.split_join_dot.
  - rewrite !map_map. apply map_ext. apply parse_part_str.
  - pose proof (PyFacts.split_dot_nonempty s) as Hne.
    destruct (Py.split_dot s); [contradiction | discriminate].
  - rewrite map_map. apply Forall_map.
    eapply Forall_impl; [|apply split_dot_no_dot].
    intros part. apply parse_part_no_dot.
Qed.

(** X7.  Printing a version and reading it back gives the version again:
    [Version(str(v)) == v] for every [v] that [Version] builds from a
    string, whatever the string (leading zeros, signs, blanks around a
    number, parts that are no numbers, empty parts). *)
Theorem Version_str_round_trip :
  forall version_str,
    Version_of_string (Version_str (Version_of_string version_str))
    = Version_of_string version_str.
Proof. exact Version_of_string_Version_str. Qed.

(** X8.  [<=] on versions is antisymmetric: two versions that are [<=]
    each other have the same parts, and are [==]. *)
Theorem Version_le_antisymmetric :
  forall v w,
    Version_le v w = Ok true -> Version_le w v = Ok true ->
    v = w /\ Version_eq v w = true.
Proof.
  intros [v] [w]. unfold Version_le, Version_eq. cbn [parts].
  revert w. induction v as [|x v IH]; intros [|y w]; simpl;
    try discriminate.
  - auto.
  - rewrite (component_eqb_sym y x).
    destruct (component_eqb x y) eqn:E.
    + apply component_eqb_eq in E. subst y. intros H1 H2.
      destruct (IH w H1 H2) as [Heq Hb]. injection Heq as ->.
      split; [reflexivity | exact Hb].
    + intros H1 H2. pose proof (component_le_antisym _ _ H1 H2) as Heq.
      subst y. rewrite component_eqb_refl in E. discriminate.
Qed.

Lemma Version_le_antisymmetric_witness :
  Version_of_string "1.02.3" = Version_of_string "1.2.3" /\
  Version_eq (Version_of_string "1.02.3") (Version_of_string "1.2.3") = true.
Proof.
  apply Version_le_antisymmetric; vm_compute; reflexivity.
Defined.

(** X9.  [<=] on versions is transitive, also through parts that are
    strings: when [u <= v] and [v <= w] both answer [True], [u <= w]
    answers [True] and raises nothing. *)
Theorem Version_le_transitive :
  forall u v w,
    Version_le u v = Ok true -> Version_le v w = Ok true ->
    Version_le u w = Ok true.
Proof.
  intros u v w. unfold Version_le. apply list_le_trans.
Qed.

Lemma Version_le_transitive_witness :
  Version_le (Version_of_string "1.9.alpha") (Version_of_string "1.10.0.1")
  = Ok true.
Proof.
  apply (Version_le_transitive _ (Version_of_string "1.10")); vm_compute;
    reflexivity.
Defined.

Lemma list_lt_complement v :
  forall w r, list_compare OpLt v w = Ok r ->
              list_compare OpLe w v = Ok (negb r).
Proof.
  induction v as [|x v IH]; intros [|y w] r; simpl;
    try (intros H; injection H as <-; reflexivity).
  rewrite (component_eqb_sym y x).
  destruct (component_eqb x y) eqn:E; [apply IH|].
  destruct x as [a|a], y as [b|b]; simpl; try discriminate;
    intros H; injection H as <-; f_equal.
  - destruct (Z.ltb_spec a b), (Z.leb_spec b a); try reflexivity; lia.
  - unfold String.ltb, String.leb. rewrite (String.compare_antisym b a).
    destruct (String.compare a b); reflexivity.
Qed.

(** X10.  [<] and [<=] are complementary: when [v < w] answers, [w <= v]
    answers the opposite; so of two versions that can be compared exactly
    one is below the other or they are equal, and a version that is [<]
    another is [<=] it and not [==] it. *)
Theorem Version_lt_complement :
  forall v w r,
    Version_lt v w = Ok r ->
    Version_le w v = Ok (negb r) /\
    (r = true -> Version_le v w = Ok true /\ Version_eq v w = false).
Proof.
  intros v w r H. unfold Version_lt, Version_le in *.
  pose proof (list_lt_complement _ _ _ H) as Hc.
  split; [exact Hc|]. intros ->. split; [apply list_lt_le; exact H|].
  destruct (Version_eq v w) eqn:E; [|reflexivity].
  apply parts_eqb_eq in E. rewrite E in Hc. rewrite list_le_refl in Hc.
  discriminate.
Qed.

Lemma Version_lt_complement_witness :
  Version_le (Version_of_string "1.10.0") (Version_of_string "1.9.0")
  = Ok false /\
  Version_lt (Version_of_string "1.9.0") (Version_of_string "1.10.0")
  = Ok true.
Proof.
  split.
  - exact (proj1 (Version_lt_complement (Version_of_string "1.9.0")
                    (Version_of_string "1.10.0") true eq_refl)).
  - reflexivity.
Defined.

(** ** Properties of [Package.satisfies_constraint] *)

Lemma startswith_cons c s p :
  Py.startswith (String c s) (String c p) = Py.startswith s p.
Proof.
  unfold Py.startswith. simpl.
  destruct (ascii_dec c c) as [_|H]; [reflexivity | contradiction].
Qed.

Lemma startswith_empty s : Py.startswith s "" = true.
Proof. destruct s; reflexivity. Qed.

(** The branches of the comparison operators. *)
Lemma ge_branch self s :
  satisfies_constraint self (String ">" (String "=" s))
  = Version_le (Version_of_string (Py.strip s)) (version self).
Proof.
  unfold satisfies_constraint.
  replace (String.eqb (String ">" (String "=" s)) "*"
           || String.eqb (String ">" (String "=" s)) "")
    with false by reflexivity.
  rewrite startswith_other by reflexivity.
  rewrite !startswith_cons, startswith_empty. reflexivity.
Qed.

Lemma le_branch self s :
  satisfies_constraint self (String "<" (String "=" s))
  = Version_le (version self) (Version_of_string (Py.strip s)).
Proof.
  unfold satisfies_constraint.
  replace (String.eqb (String "<" (String "=" s)) "*"
           || String.eqb (String "<" (String "=" s)) "")
    with false by reflexivity.
  rewrite !startswith_other by reflexivity.
  rewrite !startswith_cons, startswith_empty. reflexivity.
Qed.

Lemma gt_branch self s :
  Py.startswith s "=" = false ->
  satisfies_constraint self (String ">" s)
  = Version_lt (Version_of_string (Py.strip s)) (version self).
Proof.
  intros Hs. unfold satisfies_constraint.
  replace (String.eqb (String ">" s) "*" || String.eqb (String ">" s) "")
    with false by reflexivity.
  rewrite startswith_other by reflexivity.
  rewrite startswith_cons, Hs.
  rewrite startswith_other by reflexivity.
  rewrite startswith_cons, startswith_empty. reflexivity.
Qed.

Lemma lt_branch self s :
  Py.startswith s "=" = false ->
  satisfies_constraint self (String "<" s)
  = Version_lt (version self) (Version_of_string (Py.strip s)).
Proof.
  intros Hs. unfold satisfies_constraint.
  replace (String.eqb (String "<" s) "*" || String.eqb (String "<" s) "")
    with false by reflexivity.
  rewrite !startswith_other by reflexivity.
  rewrite startswith_cons, Hs.
  rewrite startswith_other by reflexivity.
  rewrite startswith_cons, startswith_empty. reflexivity.
Qed.

Lemma eq_branch self s :
  satisfies_constraint self (String "=" (String "=" s))
  = Ok (String.eqb (Version_str (version self)) (Py.strip s)).
Proof.
  unfold satisfies_constraint.
  replace (String.eqb (String "=" (String "=" s)) "*"
           || String.eqb (String "=" (String "=" s)) "")
    with false by reflexivity.
  rewrite !startswith_cons, startswith_empty. reflexivity.
Qed.

(** A constraint that starts with none of the characters the method looks
    for is compared with the text of the version. *)
Lemma bare_branch self c s :
  Ascii.eqb c "*" = false -> Ascii.eqb "=" c = false ->
  Ascii.eqb ">" c = false -> Ascii.eqb "<" c = false ->
  Ascii.eqb "^" c = false ->
  satisfies_constraint self (String c s)
  = Ok (String.eqb (Version_str (version self)) (String c s)).
Proof.
  intros Hstar Heq Hgt Hlt Hcaret. unfold satisfies_constraint.
  replace (String.eqb (String c s) "*" || String.eqb (String c s) "")
    with false by (simpl; rewrite Hstar; reflexivity).
  rewrite !startswith_other by assumption. reflexivity.
Qed.

Lemma Version_str_numeric_chars zs :
  all_chars version_char (Version_str (numeric_version zs)) = true.
Proof.
  unfold Version_str. simpl.
  apply PyFacts.join_dot_chars. apply Forall_forall. intros s Hs.
  apply in_map_iff in Hs. destruct Hs as [c [<- Hc]].
  apply in_map_iff in Hc. destruct Hc as [z [<- _]].
  apply PyFacts.str_int_chars.
Qed.

Lemma version_char_not_operator c :
  version_char c = true ->
  Ascii.eqb c "*" = false /\ Ascii.eqb "=" c = false /\
  Ascii.eqb ">" c = false /\ Ascii.eqb "<" c = false /\
  Ascii.eqb "^" c = false /\ Ascii.eqb "~" c = false /\
  Ascii.eqb "!" c = false.
Proof.
  PyFacts.by_cases_on_ascii c; intros _; repeat split; reflexivity.
Qed.

Lemma Version_str_numeric_startswith zs c p :
  version_char c = false ->
  Py.startswith (Version_str (numeric_version zs)) (String c p) = false.
Proof.
  intros Hc. pose proof (Version_str_numeric_chars zs) as H.
  destruct (Version_str (numeric_version zs)) as [|d r]; [reflexivity|].
  simpl in H. apply andb_true_iff in H. destruct H as [Hd _].
  apply startswith_other.
  destruct (Ascii.eqb c d) eqn:E; [|reflexivity].
  apply Ascii.eqb_eq in E. subst d. congruence.
Qed.

Lemma Version_str_numeric_injective zs ws :
  zs <> [] -> ws <> [] ->
  Version_str (numeric_version zs) = Version_str (numeric_version ws) ->
  zs = ws.
Proof.
  intros Hz Hw H.
  pose proof (Version_of_string_str zs Hz) as Ez.
  pose proof (Version_of_string_str ws Hw) as Ew.
  unfold Version_str in H. cbn [parts numeric_version] in H.
  rewrite H, Ew in Ez. unfold numeric_version in Ez.
  injection Ez as Ez. symmetry.
  revert Ez. clear. revert zs.
  induction ws as [|w ws IH]; intros [|z zs]; simpl; try discriminate;
    [reflexivity|].
  intros E. injection E as -> E. f_equal. apply IH. exact E.
Qed.

(** X11.  The four comparison operators on versions of integers: with a
    version [v] and an operand [V] of integers, [>=V], [<=V], [>V] and
    [<V] answer exactly the lexicographic comparison of the two lists of
    integers, and raise nothing. *)
Theorem comparison_constraints_numeric :
  forall self zs ws,
    version self = numeric_version zs -> ws <> [] ->
    let V := Version_str (numeric_version ws) in
    satisfies_constraint self (">=" ++ V)%string = Ok (lex_le ws zs) /\
    satisfies_constraint self ("<=" ++ V)%string = Ok (lex_le zs ws) /\
    satisfies_constraint self (">" ++ V)%string = Ok (lex_lt ws zs) /\
    satisfies_constraint self ("<" ++ V)%string = Ok (lex_lt zs ws).
Proof.
  intros self zs ws Hv Hne V. subst V.
  assert (Hs : Py.startswith (Version_str (numeric_version ws)) "=" = false)
    by (apply Version_str_numeric_startswith; reflexivity).
  cbn [String.append].
  rewrite ge_branch, le_branch, (gt_branch _ _ Hs), (lt_branch _ _ Hs).
  rewrite strip_Version_str. unfold Version_str at 1 2 3 4.
  cbn [parts numeric_version].
  rewrite (Version_of_string_str ws Hne), Hv.
  unfold Version_le, Version_lt. cbn [parts numeric_version].
  rewrite !compare_le_numeric, !compare_lt_numeric. auto.
Qed.

Lemma comparison_constraints_numeric_witness :
  satisfies_constraint (package "A" "1.10.0" []) ">=1.9" = Ok true /\
  satisfies_constraint (package "A" "1.10.0" []) "<=1.9" = Ok false /\
  satisfies_constraint (package "A" "1.10.0" []) ">1.9" = Ok true /\
  satisfies_constraint (package "A" "1.10.0" []) "<1.9" = Ok false.
Proof.
  assert (H : [1; 9] <> []) by discriminate.
  exact (comparison_constraints_numeric (package "A" "1.10.0" [])
           [1; 10; 0] [1; 9] eq_refl H).
Defined.

(** X12.  [<V] and [>=V] are opposite, and so are [>V] and [<=V], on all
    versions, numbers or not: when the strict constraint answers, the
    other one answers the contrary.  (An operand that starts with [=]
    is left out: [">" + "=1"] is the constraint [>=1].) *)
Theorem strict_constraint_complement :
  forall self V r,
    Py.startswith V "=" = false ->
    (satisfies_constraint self ("<" ++ V)%string = Ok r ->
     satisfies_constraint self (">=" ++ V)%string = Ok (negb r)) /\
    (satisfies_constraint self (">" ++ V)%string = Ok r ->
     satisfies_constraint self ("<=" ++ V)%string = Ok (negb r)).
Proof.
  intros self V r Hs. cbn [String.append].
  rewrite ge_branch, le_branch, (gt_branch _ _ Hs), (lt_branch _ _ Hs).
  unfold Version_lt, Version_le. split; apply list_lt_complement.
Qed.

Lemma strict_constraint_complement_witness :
  satisfies_constraint (package "A" "1.0.rc1" []) ">=1.0.beta" = Ok true /\
  satisfies_constraint (package "A" "1.0.rc1" []) "<=1.0.beta" = Ok false.
Proof.
  pose proof (strict_constraint_complement (package "A" "1.0.rc1" [])
                "1.0.beta" false eq_refl) as [H1 _].
  pose proof (strict_constraint_complement (package "A" "1.0.rc1" [])
                "1.0.beta" true eq_refl) as [_ H2].
  split; [exact (H1 eq_refl) | exact (H2 eq_refl)].
Defined.

(** X13.  An exact constraint compares texts: on versions of integers
    [==V] and the bare [V] hold exactly when the version is [V], integer
    by integer (so [1.0] does not match [1.0.0]). *)
Theorem exact_constraint_numeric :
  forall self zs ws,
    version self = numeric_version zs -> zs <> [] -> ws <> [] ->
    let V := Version_str (numeric_version ws) in
    (satisfies_constraint self ("==" ++ V)%string = Ok true <-> zs = ws) /\
    (satisfies_constraint self V = Ok true <-> zs = ws) /\
    (exists b, satisfies_constraint self ("==" ++ V)%string = Ok b /\
               satisfies_constraint self V = Ok b).
Proof.
  intros self zs ws Hv Hz Hw V. subst V. cbn [String.append].
  rewrite eq_branch, strip_Version_str.
  assert (Hbare : satisfies_constraint self (Version_str (numeric_version ws))
                  = Ok (String.eqb (Version_str (version self))
                          (Version_str (numeric_version ws)))).
  { pose proof (Version_str_numeric_chars ws) as Hc.
    destruct (Version_str (numeric_version ws)) as [|c s] eqn:E.
    - exfalso. pose proof (Version_of_string_str ws Hw) as Hp.
      unfold Version_str in E. cbn [parts numeric_version] in E.
      rewrite E in Hp. destruct ws; [contradiction | discriminate]. 
    - simpl in Hc. apply andb_true_iff in Hc. destruct Hc as [Hc _].
      destruct (version_char_not_operator c Hc)
        as [H1 [H2 [H3 [H4 [H5 _]]]]].
      apply bare_branch; assumption. }
  rewrite Hbare, Hv.
  assert (Heq : String.eqb (Version_str (numeric_version zs))
                  (Version_str (numeric_version ws)) = true <-> zs = ws).
  { rewrite String.eqb_eq. split.
    - apply Version_str_numeric_injective; assumption.
    - intros ->. reflexivity. }
  split; [|split].
  - rewrite <- Heq. split; [intros H; injection H; auto | intros ->; auto].
  - rewrite <- Heq. split; [intros H; injection H; auto | intros ->; auto].
  - eauto.
Qed.

Lemma exact_constraint_numeric_witness :
  satisfies_constraint (package "A" "1.0.0" []) "==1.0.0" = Ok true /\
  satisfies_constraint (package "A" "1.0.0" []) "==1.0" <> Ok true.
Proof.
  assert (H3 : [1; 0; 0] <> []) by discriminate.
  assert (H2 : [1; 0] <> []) by discriminate.
  split.
  - apply (proj1 (exact_constraint_numeric (package "A" "1.0.0" [])
                    [1; 0; 0] [1; 0; 0] eq_refl H3 H3)). reflexivity.
  - intros H.
    apply (proj1 (exact_constraint_numeric (package "A" "1.0.0" [])
                    [1; 0; 0] [1; 0] eq_refl H3 H2)) in H. discriminate H.
Defined.

(** X14.  An exact constraint that holds names the version: when [==V]
    holds for a package whose version was read from a string, reading [V]
    gives that version. *)
Theorem exact_constraint_names_version :
  forall self version_str V,
    version self = Version_of_string version_str ->
    satisfies_constraint self ("==" ++ V)%string = Ok true ->
    Version_of_string (Py.strip V) = version self.
Proof.
  intros self t V Hv. cbn [String.append]. rewrite eq_branch.
  intros H. injection H as H. apply String.eqb_eq in H.
  rewrite <- H, Hv. apply Version_of_string_Version_str.
Qed.

Lemma exact_constraint_names_version_witness :
  Version_of_string (Py.strip " 1.2.rc1 ")
  = version (package "A" "01.2.rc1" []).
Proof.
  apply (exact_constraint_names_version (package "A" "01.2.rc1" [])
           "01.2.rc1" " 1.2.rc1 "); reflexivity.
Defined.

(** A constraint that starts with a character that is neither an operator
    of [satisfies_constraint] nor a character of a version of integers is
    satisfied by no version of integers. *)
Lemma foreign_constraint_false self zs c s :
  version self = numeric_version zs ->
  version_char c = false ->
  Ascii.eqb c "*" = false -> Ascii.eqb "=" c = false ->
  Ascii.eqb ">" c = false -> Ascii.eqb "<" c = false ->
  Ascii.eqb "^" c = false ->
  satisfies_constraint self (String c s) = Ok false.
Proof.
  intros Hv Hc H1 H2 H3 H4 H5.
  rewrite bare_branch by assumption. rewrite Hv. f_equal.
  pose proof (Version_str_numeric_chars zs) as Hchars.
  destruct (Version_str (numeric_version zs)) as [|d r]; [reflexivity|].
  simpl in Hchars. apply andb_true_iff in Hchars. destruct Hchars as [Hd _].
  simpl. destruct (Ascii.eqb d c) eqn:E; [|reflexivity].
  apply Ascii.eqb_eq in E. subst d. congruence.
Qed.

(** X15.  The operators [~] and [!=] are not understood: such a
    constraint is compared as a text with the version, so a version of
    integers never satisfies it ([!=1.0.0] is false for 2.0.0 too). *)
Theorem tilde_and_not_equal_never_hold :
  forall self zs V,
    version self = numeric_version zs ->
    satisfies_constraint self ("~" ++ V)%string = Ok false /\
    satisfies_constraint self ("!=" ++ V)%string = Ok false.
Proof.
  intros self zs V Hv. cbn [String.append]. split.
  - apply (foreign_constraint_false self zs); auto.
  - apply (foreign_constraint_false self zs); auto.
Qed.

Lemma tilde_and_not_equal_never_hold_witness :
  satisfies_constraint (package "A" "2.0.0" []) "~1.0.0" = Ok false /\
  satisfies_constraint (package "A" "2.0.0" []) "!=1.0.0" = Ok false.
Proof.
  exact (tilde_and_not_equal_never_hold (package "A" "2.0.0" [])
           [2; 0; 0] "1.0.0" eq_refl).
Defined.

(** ** Properties of [class Package] and [class PackageGraph] *)

Lemma Version_parts_eq (v w : Version) : parts v = parts w -> v = w.
Proof. destruct v, w. simpl. intros ->. reflexivity. Qed.

(** X16.  [Package.__hash__] agrees with [Package.__eq__]: two packages
    whose versions were read from strings are [==] exactly when the pairs
    that are hashed are the same; so equal packages have one hash, and
    the hash tells apart all packages that are not equal. *)
Theorem Package_hash_agrees_with_eq :
  forall p q s t,
    version p = Version_of_string s ->
    version q = Version_of_string t ->
    (Package_eq p q = true <-> Package_hash_key p = Package_hash_key q).
Proof.
  intros p q s t Hp Hq. rewrite Package_eq_iff. unfold Package_hash_key.
  split.
  - intros [Hn Hv]. apply Version_parts_eq in Hv. rewrite Hn, Hv. reflexivity.
  - intros H. injection H as Hn Hv. split; [exact Hn|].
    rewrite Hp, Hq in *.
    rewrite <- (Version_of_string_Version_str s),
            <- (Version_of_string_Version_str t), Hv. reflexivity.
Qed.

Lemma Package_hash_agrees_with_eq_witness :
  Package_eq (package "A" "1.02" [("B", "*")]) (package "A" " 1.2" []) = true
  <-> Package_hash_key (package "A" "1.02" [("B", "*")])
      = Package_hash_key (package "A" " 1.2" []).
Proof.
  exact (Package_hash_agrees_with_eq (package "A" "1.02" [("B", "*")])
           (package "A" " 1.2" []) "1.02" " 1.2" eq_refl eq_refl).
Defined.

(** X17.  What a graph holds is what was added, in that order: after any
    sequence of [add_package] calls the records under a name are the
    records that were there, followed by the added packages of that name
    in the order of the calls.  Nothing is dropped, replaced or moved. *)
Theorem graph_holds_what_was_added :
  forall l graph n,
    packages_get (fold_left add_package l graph) n
    = packages_get graph n ++ filter (fun p => String.eqb (name p) n) l.
Proof.
  induction l as [|p l IH]; intros graph n; simpl.
  - rewrite app_nil_r. reflexivity.
  - rewrite IH. destruct (String.eqb_spec (name p) n) as [<-|Hne].
    + rewrite add_package_same, <- app_assoc. reflexivity.
    + rewrite add_package_other by congruence. reflexivity.
Qed.

Lemma list_le_neq_lt v :
  forall w, list_compare OpLe v w = Ok true -> v <> w ->
            list_compare OpLt v w = Ok true.
Proof.
  induction v as [|x v IH]; intros [|y w]; simpl; try discriminate;
    try reflexivity.
  - intros _ H. contradiction H. reflexivity.
  - destruct (component_eqb x y) eqn:E.
    + apply component_eqb_eq in E. subst y. intros H Hne.
      apply IH; [exact H | congruence].
    + destruct x as [a|a], y as [b|b]; simpl; try discriminate;
        intros H _; injection H as H; f_equal.
      * simpl in E. apply Z.eqb_neq in E. apply Z.leb_le in H.
        apply Z.ltb_lt. lia.
      * simpl in E. unfold String.leb in H. unfold String.ltb.
        destruct (String.compare a b) eqn:Ec; try reflexivity;
          try discriminate.
        apply String.compare_eq_iff in Ec. subst b.
        rewrite String.eqb_refl in E. discriminate.
Qed.

Lemma list_le_lt_trans u v w :
  list_compare OpLe u v = Ok true -> list_compare OpLt v w = Ok true ->
  list_compare OpLt u w = Ok true.
Proof.
  intros H1 H2. apply list_le_neq_lt.
  - eapply list_le_trans; [exact H1 | apply list_lt_le; exact H2].
  - intros ->. apply list_lt_complement in H2. simpl in H2. congruence.
Qed.

(** [max] gives the first of the items with the highest key. *)
Lemma max_by_version_first rest :
  forall maxitem best,
    max_by_version maxitem rest = Ok best ->
    exists l1 l2,
      maxitem :: rest = l1 ++ best :: l2 /\
      (forall q, In q l1 -> Version_lt (version q) (version best) = Ok true) /\
      (forall q, In q l2 -> Version_lt (version best) (version q) = Ok false).
Proof.
  induction rest as [|item rest IH]; simpl; intros maxitem best H.
  - injection H as <-. exists [], []. repeat split; contradiction.
  - apply rbind_ok in H. destruct H as [greater [Hg H]].
    destruct (IH _ _ H) as [l1 [l2 [Hl [H1 H2]]]]. clear IH H.
    destruct greater.
    + exists (maxitem :: l1), l2. split; [rewrite Hl; reflexivity|].
      split; [|exact H2]. intros q [<-|Hq]; [|auto].
      destruct l1 as [|x l1]; simpl in Hl; injection Hl as <- _;
        [exact Hg|].
      unfold Version_lt in *.
      eapply list_le_lt_trans; [apply list_lt_le; exact Hg|].
      apply H1. left. reflexivity.
    + destruct l1 as [|x l1]; simpl in Hl; injection Hl as <- Hl.
      * exists [], (item :: rest). split; [reflexivity|].
        split; [contradiction|]. intros q [<-|Hq]; [exact Hg|].
        apply H2. rewrite <- Hl. exact Hq.
      * exists (maxitem :: item :: l1), l2.
        split; [rewrite Hl; reflexivity|]. split; [|exact H2].
        intros q [<-|[<-|Hq]].
        -- apply H1. left. reflexivity.
        -- unfold Version_lt in *.
           eapply list_le_lt_trans; [apply list_not_lt; exact Hg|].
           apply H1. left. reflexivity.
        -- apply H1. right. exact Hq.
Qed.

(** X18.  Which record [get_package] returns: the first, in the order of
    insertion, of the satisfying records with the highest version.  Every
    satisfying record before it has a lower version, and no satisfying
    record after it has a higher one. *)
Theorem get_package_first_of_highest :
  forall graph n constraint best,
    get_package graph n constraint = Ok (Some best) ->
    exists before after,
      filter_r (fun pkg => satisfies_constraint pkg constraint)
               (packages_get graph n)
      = Ok (before ++ best :: after) /\
      (forall q, In q before ->
         Version_lt (version q) (version best) = Ok true) /\
      (forall q, In q after ->
         Version_lt (version best) (version q) = Ok false).
Proof.
  intros graph n constraint best. unfold get_package, packages_get.
  destruct (dict_get String.eqb (packages graph) n) as [records|];
    [|discriminate].
  intros H. apply rbind_ok in H. destruct H as [candidates [Hc H]].
  destruct candidates as [|first rest]; [discriminate|].
  apply rbind_ok in H. destruct H as [best' [Hmax H]].
  injection H as ->.
  destruct (max_by_version_first _ _ _ Hmax) as [l1 [l2 [Hl [H1 H2]]]].
  exists l1, l2. rewrite Hc, Hl. auto.
Qed.

Lemma get_package_first_of_highest_witness :
  exists before after,
    filter_r (fun pkg => satisfies_constraint pkg ">=1.0")
      (packages_get
         (graph_of [package "A" "0.9" []; package "A" "2.0" [("B", "*")];
                    package "A" "1.5" []; package "A" "2.0" []]) "A")
    = Ok (before ++ package "A" "2.0" [("B", "*")] :: after) /\
    (forall q, In q before ->
       Version_lt (version q) (version (package "A" "2.0" [("B", "*")]))
       = Ok true) /\
    (forall q, In q after ->
       Version_lt (version (package "A" "2.0" [("B", "*")])) (version q)
       = Ok false).
Proof.
  apply (get_package_first_of_highest
           (graph_of [package "A" "0.9" []; package "A" "2.0" [("B", "*")];
                      package "A" "1.5" []; package "A" "2.0" []])
           "A" ">=1.0").
  vm_compute. reflexivity.
Defined.

(** ** Properties of the queries of [PackageRepository] *)

Lemma get_package_by_records graph n constraint :
  get_package graph n constraint
  = (candidates <-
       filter_r (fun pkg => satisfies_constraint pkg constraint)
                (packages_get graph n) ;;
     match candidates with
     | [] => Ok None
     | first :: rest =>
         best <- max_by_version first rest ;; Ok (Some best)
     end)%result.
Proof.
  unfold get_package, packages_get.
  destruct (dict_get String.eqb (packages graph) n); reflexivity.
Qed.

Lemma filter_r_star l :
  filter_r (fun pkg => satisfies_constraint pkg "*") l = Ok l.
Proof.
  induction l as [|x l IH]; simpl; [reflexivity|].
  rewrite IH. reflexivity.
Qed.

(** X19.  The latest version in the repository is what the graph
    resolves [name, "*"] to: in a repository kept by [add_package],
    [get_latest_version(name)] and [graph.get_package(name, "*")] give
    the same record, [None] or exception. *)
Theorem latest_version_is_star_resolution :
  forall self n,
    repository_invariant self ->
    get_latest_version self n = get_package (Repository.graph self) n "*".
Proof.
  intros self n Hinv. destruct (Hinv n) as [Hrec _].
  rewrite get_package_by_records, <- Hrec, filter_r_star.
  unfold get_latest_version.
  destruct (dict_get String.eqb (Repository.repo_packages self) n)
    as [[|first rest]|]; reflexivity.
Qed.

Lemma latest_version_is_star_resolution_witness :
  get_latest_version
    (add_packages (Ok Version_of_string) Repository.PackageRepository_init
       [Repository.mkPkgData (Some "A") (Some "1.9.0") None None;
        Repository.mkPkgData (Some "A") (Some "1.10.0") None None;
        Repository.mkPkgData (Some "A") (Some "1.2.0") None None]) "A"
  = Ok (Some (package "A" "1.10.0" [])).
Proof.
  rewrite latest_version_is_star_resolution.
  - reflexivity.
  - apply add_packages_invariant, repository_init_invariant.
Defined.

(** X20.  [find_packages] and the graph agree: in a repository kept by
    [add_package], [find_packages(name, constraint)] lists, in the order
    of insertion, exactly the records of the graph under [name] that
    satisfy the constraint; it is empty exactly when
    [graph.get_package(name, constraint)] is [None], and otherwise the
    record that [get_package] returns is one of the list. *)
Theorem find_packages_agrees_with_graph :
  forall self n constraint found,
    repository_invariant self ->
    find_packages self n constraint = Ok found ->
    filter_r (fun pkg => satisfies_constraint pkg constraint)
             (packages_get (Repository.graph self) n) = Ok found /\
    (forall p, In p found <->
               In p (packages_get (Repository.graph self) n) /\
               satisfies_constraint p constraint = Ok true) /\
    (found = [] <->
     get_package (Repository.graph self) n constraint = Ok None) /\
    (forall best,
       get_package (Repository.graph self) n constraint = Ok (Some best) ->
       In best found).
Proof.
  intros self n constraint found Hinv H. destruct (Hinv n) as [Hrec _].
  assert (Hf : filter_r (fun pkg => satisfies_constraint pkg constraint)
                 (packages_get (Repository.graph self) n) = Ok found).
  { rewrite <- Hrec. unfold find_packages in H.
    destruct (dict_get String.eqb (Repository.repo_packages self) n);
      [exact H | injection H as <-; reflexivity]. }
  split; [exact Hf|]. split; [apply (filter_r_ok _ _ _ Hf)|].
  rewrite get_package_by_records, Hf. cbn [rbind].
  destruct found as [|first rest].
  - split; [tauto | discriminate].
  - split.
    + split; [discriminate|]. intros Hn.
      destruct (max_by_version first rest); discriminate.
    + intros best Hb. apply rbind_ok in Hb. destruct Hb as [b [Hmax Hb]].
      injection Hb as ->. apply max_by_version_ok in Hmax.
      destruct Hmax as [[->|Hin] _]; [left | right]; auto.
Qed.

Lemma find_packages_agrees_with_graph_witness :
  exists found,
    find_packages
      (add_packages (Ok Version_of_string) Repository.PackageRepository_init
         [Repository.mkPkgData (Some "A") (Some "1.9.0") None None;
          Repository.mkPkgData (Some "A") (Some "1.10.0") None None;
          Repository.mkPkgData (Some "A") (Some "1.2.0") None None])
      "A" "^1.9" = Ok found /\
    In (package "A" "1.10.0" []) found /\
    ~ In (package "A" "1.2.0" []) found.
Proof.
  eexists. split; [vm_compute; reflexivity|].
  pose proof (find_packages_agrees_with_graph
                (add_packages (Ok Version_of_string)
                   Repository.PackageRepository_init
                   [Repository.mkPkgData (Some "A") (Some "1.9.0") None None;
                    Repository.mkPkgData (Some "A") (Some "1.10.0") None None;
                    Repository.mkPkgData (Some "A") (Some "1.2.0") None None])
                "A" "^1.9" _
                (add_packages_invariant _ _ _ repository_init_invariant)
                eq_refl) as [_ [Hin _]].
  split.
  - apply Hin. split; [right; left; reflexivity | reflexivity].
  - intros H. apply Hin in H. destruct H as [_ H]. vm_compute in H.
    discriminate H.
Defined.

(** ** Saving and loading a repository *)

Section DictStrings.
Context {V : Type}.
Implicit Types (d : list (string * V)) (k : string).





Lemma dict_get_In d k v :
  dict_get String.eqb d k = Some v -> In (k, v) d.
Proof.
  induction d as [|[k' v'] r IH]; simpl; [discriminate|].
  destruct (String.eqb_spec k' k) as [->|Hne].
  - intros H. injection H as ->. left. reflexivity.
  - intros H. right. exact (IH H).
Qed.


End DictStrings.





Section Replay.





End Replay.


(** X22.  As [repository.py] is written the name [Version] is not bound
    in it (the module imports [Package] and [PackageGraph] only), and
    then nothing can be added: every [add_package] call raises, a
    [ValueError] when the data has no name and a [NameError] otherwise,
    and [load_from_file] on a file with at least one entry raises that
    exception at the first entry and leaves the repository as it was. *)
Theorem repository_as_written_adds_nothing :
  forall self d l,
    let unbound := Raise (NameError "name 'Version' is not defined") in
    let e := match Repository.data_name d with
             | None => ValueError "Invalid package data: missing 'name'"
             | Some _ => NameError "name 'Version' is not defined"
             end in
    Repository.add_package unbound self d = Raise e /\
    load_from_file unbound self (FileList (d :: l)) = (self, Some e) /\
    load_from_file unbound self (FileObject d) = (self, Some e) /\
    add_packages unbound self (d :: l) = self.
Proof.
  intros self d l unbound e.
  assert (H : Repository.add_package unbound self d = Raise e).
  { unfold Repository.add_package, e.
    destruct (Repository.data_name d); reflexivity. }
  split; [exact H|]. unfold load_from_file. cbn [load_loop].
  rewrite H. split; [reflexivity|]. split; [reflexivity|].
  clear H e. revert d. induction l as [|d' l IH]; intros d;
    cbn [add_packages];
    (replace (Repository.add_package unbound self d)
       with (@Raise Repository.PackageRepository
               match Repository.data_name d with
               | None => ValueError "Invalid package data: missing 'name'"
               | Some _ => NameError "name 'Version' is not defined"
               end)
       by (unfold Repository.add_package;
           destruct (Repository.data_name d); reflexivity)).
  - reflexivity.
  - apply IH.
Qed.

(** ** Properties of [cli.parse_package_spec] *)

Lemma append_empty_r s : (s ++ "")%string = s.
Proof. induction s as [|c s IH]; simpl; [|rewrite IH]; reflexivity. Qed.

Lemma op_char_differs c a :
  op_char c = true -> negb (op_char a) = true -> Ascii.eqb c a = false.
Proof.
  intros Hc Ha. destruct (Ascii.eqb c a) eqn:E; [|reflexivity].
  apply Ascii.eqb_eq in E. subst a. rewrite Hc in Ha. discriminate.
Qed.

Lemma startswith_plain v c p :
  plain v -> op_char c = true -> Py.startswith v (String c p) = false.
Proof.
  unfold plain. intros Hv Hc. destruct v as [|a r]; [reflexivity|].
  simpl in Hv. apply andb_true_iff in Hv. destruct Hv as [Ha _].
  apply startswith_other. apply op_char_differs; assumption.
Qed.

Lemma split_once_plain v c p :
  plain v -> op_char c = true -> split_once (String c p) v = None.
Proof.
  unfold plain. intros Hv Hc. induction v as [|a r IH]; [reflexivity|].
  simpl in Hv. apply andb_true_iff in Hv. destruct Hv as [Ha Hr].
  cbn [split_once].
  rewrite startswith_other by (apply op_char_differs; assumption).
  rewrite (IH Hr). reflexivity.
Qed.

Lemma split_once_app_plain c p n rest :
  plain n -> op_char c = true ->
  split_once (String c p) (n ++ rest)
  = match split_once (String c p) rest with
    | Some (before, after) => Some ((n ++ before)%string, after)
    | None => None
    end.
Proof.
  unfold plain. intros Hn Hc. induction n as [|a r IH].
  - simpl. destruct (split_once (String c p) rest) as [[b a]|]; reflexivity.
  - simpl in Hn. apply andb_true_iff in Hn. destruct Hn as [Ha Hr].
    cbn [String.append split_once].
    rewrite startswith_other by (apply op_char_differs; assumption).
    rewrite (IH Hr).
    destruct (split_once (String c p) rest) as [[b a']|]; reflexivity.
Qed.

Ltac split_once_step Hv :=
  first [ rewrite startswith_cons
        | rewrite startswith_empty
        | rewrite startswith_other by reflexivity
        | rewrite (startswith_plain _ _ _ Hv) by reflexivity
        | rewrite (split_once_plain _ _ _ Hv) by reflexivity
        | progress cbn [split_once Py.drop String.length String.append
                        parse_with] ].

(** X23.  [parse_package_spec] on a well-formed argument: when the name
    and the version have none of the characters [= > < ^ ~ !], a bare
    name is parsed as [(name, "*")] and [name op version] as
    [(name, op version)] for each of the eight operators, with the blanks
    around the name and around the version removed. *)
Theorem parse_package_spec_well_formed :
  forall n v,
    plain n -> plain v ->
    parse_package_spec n = (Py.strip n, "*") /\
    forall op, In op operators ->
      parse_package_spec (n ++ op ++ v)
      = (Py.strip n, (op ++ Py.strip v)%string).
Proof.
  intros n v Hn Hv. split.
  - unfold parse_package_spec, operators. cbn [parse_with].
    rewrite !(split_once_plain _ _ _ Hn) by reflexivity. reflexivity.
  - intros op Hop. unfold parse_package_spec. unfold operators in *.
    cbn [parse_with].
    repeat (destruct Hop as [<-|Hop]; [
      rewrite !(split_once_app_plain _ _ n _ Hn) by reflexivity;
      repeat split_once_step Hv; rewrite ?append_empty_r; reflexivity |]).
    destruct Hop.
Qed.

Lemma parse_package_spec_well_formed_witness :
  parse_package_spec "requests" = ("requests", "*") /\
  parse_package_spec " requests <= 2.31.0 " = ("requests", "<=2.31.0") /\
  parse_package_spec "requests!=2.0" = ("requests", "!=2.0").
Proof.
  split; [|split].
  - exact (proj1 (parse_package_spec_well_formed "requests" ""
                    eq_refl eq_refl)).
  - exact (proj2 (parse_package_spec_well_formed " requests " " 2.31.0 "
                    eq_refl eq_refl) "<=" (or_intror (or_intror
                                                        (or_introl eq_refl)))).
  - apply (proj2 (parse_package_spec_well_formed "requests" "2.0"
                    eq_refl eq_refl) "!="). 
    unfold operators. simpl. tauto.
Defined.

(** ** From the command line to the resolver *)

Lemma numeric_version_of v :
  numeric v = true -> exists zs, v = numeric_version zs.
Proof.
  intros H. destruct (numeric_parts (parts v) H) as [zs Hzs].
  exists zs. apply Version_parts_eq. exact Hzs.
Qed.

Lemma solve_request_not_found oracle graph fuel n c others self :
  get_package graph n c = Ok None ->
  solve oracle graph fuel ((n, c) :: others) self
  = Failed (ResolutionError
              ("Failed to resolve dependencies: "
               ++ ("Package not found: " ++ n ++ " " ++ c))%string)
           (delete_solver self).
Proof.
  intros Hget. unfold solve, solve_try. cbn [for_each].
  assert (H : add_request graph fuel (n, c) self
              = Failed (ResolutionError
                          ("Package not found: " ++ n ++ " " ++ c)%string)
                       self).
  { unfold add_request. rewrite Hget.
    rewrite (bind_done_intro _ _ self None self) by reflexivity.
    reflexivity. }
  erewrite bind_failed_intro; [|apply bind_failed_intro; exact H].
  reflexivity.
Qed.

(** X24.  A request that the graph cannot resolve fails at once: when
    [get_package] finds nothing for the first requested package, [solve]
    raises [ResolutionError] with the message [Package not found], emits
    no clause, gives no variable, and deletes the solver object. *)
Theorem solve_first_request_not_found :
  forall oracle graph fuel n constraint others self,
    get_package graph n constraint = Ok None ->
    solve oracle graph fuel ((n, constraint) :: others) self
    = Failed (ResolutionError
                ("Failed to resolve dependencies: Package not found: "
                 ++ n ++ " " ++ constraint)%string)
             (delete_solver self).
Proof.
  intros oracle graph fuel n c others self Hget.
  rewrite (solve_request_not_found oracle graph fuel n c others self Hget).
  reflexivity.
Qed.

Lemma solve_first_request_not_found_witness :
  solve exhaustive_oracle test_graph 0 [("F", "*"); ("A", "1.0.0")]
    Solver_init
  = Failed (ResolutionError
              "Failed to resolve dependencies: Package not found: F *")
           (delete_solver Solver_init).
Proof.
  exact (solve_first_request_not_found exhaustive_oracle test_graph 0
           "F" "*" [("A", "1.0.0")] Solver_init eq_refl).
Defined.

(** X25.  From the command line to the resolver: an argument
    [name!=version] or [name~version] can never be installed from a graph
    whose versions of [name] are made of integers.  [parse_package_spec]
    hands the operator on, [satisfies_constraint] does not know it, no
    record satisfies the constraint, and [solve] raises
    [Package not found]. *)
Theorem not_equal_request_never_resolves :
  forall oracle graph fuel n V op self,
    plain n -> plain V -> op = "!=" \/ op = "~" ->
    (forall q, In q (packages_get graph (Py.strip n)) ->
               numeric (version q) = true) ->
    solve oracle graph fuel [parse_package_spec (n ++ op ++ V)] self
    = Failed (ResolutionError
                ("Failed to resolve dependencies: Package not found: "
                 ++ Py.strip n ++ " " ++ op ++ Py.strip V)%string)
             (delete_solver self).
Proof.
  intros oracle graph fuel n V op self Hn HV Hop Hnum.
  assert (Hparse : parse_package_spec (n ++ op ++ V)
                   = (Py.strip n, (op ++ Py.strip V)%string)).
  { unfold parse_package_spec, operators. cbn [parse_with].
    destruct Hop as [-> | ->];
      rewrite !(split_once_app_plain _ _ n _ Hn) by reflexivity;
      repeat split_once_step HV; rewrite ?append_empty_r; reflexivity. }
  rewrite Hparse.
  rewrite (solve_request_not_found oracle graph fuel); [reflexivity|].
  apply get_package_none. right. intros q Hq.
  destruct (numeric_version_of _ (Hnum q Hq)) as [zs Hzs].
  destruct Hop as [-> | ->]; cbn [String.append];
    apply (foreign_constraint_false q zs); auto.
Qed.

Lemma not_equal_request_never_resolves_witness :
  solve exhaustive_oracle test_graph 5 [parse_package_spec "A != 2.0.0"]
    Solver_init
  = Failed (ResolutionError
              "Failed to resolve dependencies: Package not found: A !=2.0.0")
           (delete_solver Solver_init).
Proof.
  apply (not_equal_request_never_resolves exhaustive_oracle test_graph 5
           "A " " 2.0.0" "!=" Solver_init eq_refl eq_refl
           (or_introl eq_refl)).
  intros q [<-|[]]. reflexivity.
Defined.

(** ** Properties of the dependency graph *)

Lemma Package_eq_compat_r x n m :
  Package_eq n m = true -> Package_eq x n = Package_eq x m.
Proof.
  intros H. destruct (Package_eq x n) eqn:E1, (Package_eq x m) eqn:E2;
    try reflexivity.
  - rewrite (Package_eq_trans _ _ _ E1 H) in E2. discriminate.
  - rewrite Package_eq_sym in H.
    rewrite (Package_eq_trans _ _ _ E2 H) in E1. discriminate.
Qed.

Lemma has_node_compat G n m :
  Package_eq n m = true -> has_node G n = has_node G m.
Proof.
  intros H. unfold has_node. induction (nodes G) as [|x l IH]; simpl;
    [reflexivity|].
  rewrite IH, (Package_eq_compat_r x n m H). reflexivity.
Qed.

Lemma has_edge_compat G u v u' v' :
  Package_eq u u' = true -> Package_eq v v' = true ->
  has_edge G u v = has_edge G u' v'.
Proof.
  intros Hu Hv. unfold has_edge. induction (edges G) as [|e l IH]; simpl;
    [reflexivity|].
  rewrite IH, (Package_eq_compat_r _ u u' Hu), (Package_eq_compat_r _ v v' Hv).
  reflexivity.
Qed.

Lemma has_node_add_node G n m :
  has_node (add_node G n) m = has_node G m || Package_eq n m.
Proof.
  unfold add_node. destruct (has_node G n) eqn:E.
  - destruct (Package_eq n m) eqn:Enm; [|rewrite orb_false_r; reflexivity].
    rewrite <- (has_node_compat G n m Enm), E. reflexivity.
  - unfold has_node. cbn [nodes]. rewrite existsb_app. simpl.
    rewrite orb_false_r. reflexivity.
Qed.

Lemma edges_add_node G n : edges (add_node G n) = edges G.
Proof. unfold add_node. destruct (has_node G n); reflexivity. Qed.

Lemma has_edge_add_node G n u v :
  has_edge (add_node G n) u v = has_edge G u v.
Proof. unfold has_edge. rewrite edges_add_node. reflexivity. Qed.

Lemma has_edge_add_edge G u v u' v' :
  has_edge (add_edge G u v) u' v'
  = has_edge G u' v' || (Package_eq u u' && Package_eq v v').
Proof.
  unfold add_edge. cbv zeta.
  destruct (has_edge (add_node (add_node G u) v) u v) eqn:E.
  - rewrite !has_edge_add_node in *.
    destruct (Package_eq u u' && Package_eq v v') eqn:Euv;
      [|rewrite orb_false_r; reflexivity].
    apply andb_true_iff in Euv. destruct Euv as [Hu Hv].
    rewrite <- (has_edge_compat G u v u' v' Hu Hv), E. reflexivity.
  - unfold has_edge at 1. cbn [edges]. rewrite existsb_app.
    fold (has_edge (add_node (add_node G u) v) u' v').
    rewrite !has_edge_add_node. simpl. rewrite orb_false_r. reflexivity.
Qed.

Lemma has_node_add_edge G u v m :
  has_node (add_edge G u v) m
  = has_node G m || Package_eq u m || Package_eq v m.
Proof.
  unfold add_edge. cbv zeta.
  destruct (has_edge (add_node (add_node G u) v) u v);
    [|unfold has_node at 1; cbn [nodes];
      fold (has_node (add_node (add_node G u) v) m)];
    rewrite !has_node_add_node; reflexivity.
Qed.

Lemma packages_get_all_records graph n x :
  In x (packages_get graph n) -> In x (all_records graph).
Proof.
  unfold packages_get, all_records.
  destruct (dict_get String.eqb (packages graph) n) as [l|] eqn:E;
    [|contradiction].
  intros Hx. apply in_flat_map. exists (n, l). split; [|exact Hx].
  apply dict_get_In. exact E.
Qed.

Section BuildGraph.
Variable self : PackageGraph.

Lemma add_dependency_edges_spec pkg deps :
  forall G G',
    add_dependency_edges self pkg deps G = (G', None) ->
    (forall u v, has_edge G' u v
                 = has_edge G u v
                   || (Package_eq pkg u && dep_targets self deps v)) /\
    (forall m, has_node G m = true -> has_node G' m = true) /\
    (forall m, has_node G' m = true ->
               has_node G m = true \/ Package_eq pkg m = true \/
               record_like self m).
Proof.
  induction deps as [|[d c] deps IH]; intros G G' H; simpl in H.
  - injection H as <-. split; [|split]; auto.
    intros u v. unfold dep_targets. simpl.
    rewrite andb_false_r, orb_false_r. reflexivity.
  - destruct (get_package self d c) as [[q|]|e] eqn:Eg; [| |discriminate].
    + destruct (IH _ _ H) as [He [Hmono Hn]]. split; [|split].
      * intros u v. rewrite He, has_edge_add_edge.
        unfold dep_targets. simpl. rewrite Eg.
        fold (dep_targets self deps v).
        destruct (has_edge G u v), (Package_eq pkg u), (Package_eq q v),
          (dep_targets self deps v); reflexivity.
      * intros m Hm. apply Hmono. rewrite has_node_add_edge, Hm. reflexivity.
      * intros m Hm. destruct (Hn m Hm) as [Hg|[Hp|Hr]]; auto.
        rewrite has_node_add_edge in Hg.
        apply orb_true_iff in Hg. destruct Hg as [Hg|Hq].
        -- apply orb_true_iff in Hg. tauto.
        -- right. right. exists q. split; [|exact Hq].
           apply get_package_ok in Eg. destruct Eg as [Hin _].
           eapply packages_get_all_records; eauto.
    + destruct (IH _ _ H) as [He [Hmono Hn]]. split; [|split]; auto.
      intros u v. rewrite He. unfold dep_targets. simpl. rewrite Eg.
      reflexivity.
Qed.

Lemma add_dependency_edges_raises pkg deps :
  forall G G' e,
    add_dependency_edges self pkg deps G = (G', Some e) ->
    exists d c, In (d, c) deps /\ get_package self d c = Raise e.
Proof.
  induction deps as [|[d c] deps IH]; intros G G' e H; simpl in H;
    [discriminate|].
  destruct (get_package self d c) as [[q|]|e'] eqn:Eg.
  - destruct (IH _ _ _ H) as [d' [c' [Hin Hr]]]. exists d', c'.
    split; [right; exact Hin | exact Hr].
  - destruct (IH _ _ _ H) as [d' [c' [Hin Hr]]]. exists d', c'.
    split; [right; exact Hin | exact Hr].
  - injection H as _ <-. exists d, c. split; [left; reflexivity | exact Eg].
Qed.

Lemma add_edges_spec pkgs :
  forall G G',
    (forall r, In r pkgs -> In r (all_records self)) ->
    add_edges self pkgs G = (G', None) ->
    (forall u v, has_edge G' u v
                 = has_edge G u v
                   || existsb (fun pkg => Package_eq pkg u
                                          && dep_targets self (dependencies pkg) v)
                              pkgs) /\
    (forall m, has_node G m = true -> has_node G' m = true) /\
    (forall m, has_node G' m = true -> has_node G m = true \/ record_like self m).
Proof.
  induction pkgs as [|pkg pkgs IH]; intros G G' Hrec H; simpl in H.
  - injection H as <-. split; [|split]; auto.
    intros u v. simpl. rewrite orb_false_r. reflexivity.
  - destruct (add_dependency_edges self pkg (dependencies pkg) G)
      as [G1 [e|]] eqn:E1; [discriminate|].
    destruct (add_dependency_edges_spec _ _ _ _ E1) as [He1 [Hm1 Hn1]].
    destruct (IH G1 G' (fun r Hr => Hrec r (or_intror Hr)) H)
      as [He [Hm Hn]].
    split; [|split].
    + intros u v. rewrite He, He1. simpl. rewrite orb_assoc. reflexivity.
    + auto.
    + intros m Hmn. destruct (Hn m Hmn) as [Hg|Hr]; [|auto].
      destruct (Hn1 m Hg) as [Hg0|[Hp|Hr]]; auto.
      right. exists pkg. split; [apply Hrec; left; reflexivity | exact Hp].
Qed.

Lemma add_edges_raises pkgs :
  forall G G' e,
    add_edges self pkgs G = (G', Some e) ->
    exists r d c, In r pkgs /\ In (d, c) (dependencies r) /\
                  get_package self d c = Raise e.
Proof.
  induction pkgs as [|pkg pkgs IH]; intros G G' e H; simpl in H;
    [discriminate|].
  destruct (add_dependency_edges self pkg (dependencies pkg) G)
    as [G1 [e1|]] eqn:E1.
  - injection H as _ <-.
    destruct (add_dependency_edges_raises _ _ _ _ _ E1) as [d [c [Hin Hr]]].
    exists pkg, d, c. split; [left; reflexivity | split; assumption].
  - destruct (IH _ _ _ H) as [r [d [c [Hr [Hin Hg]]]]].
    exists r, d, c. split; [right; exact Hr | split; assumption].
Qed.

Lemma fold_add_node l :
  forall G,
    edges (fold_left add_node l G) = edges G /\
    (forall m, has_node (fold_left add_node l G) m
               = has_node G m || existsb (fun r => Package_eq r m) l) /\
    (G = mkDiGraph [] [] -> l <> [] ->
     nodes (fold_left add_node l G) <> []).
Proof.
  induction l as [|x l IH]; intros G; simpl.
  - split; [reflexivity|]. split.
    + intros m. rewrite orb_false_r. reflexivity.
    + intros _ H. contradiction.
  - destruct (IH (add_node G x)) as [He [Hn _]]. split; [|split].
    + rewrite He. apply edges_add_node.
    + intros m. rewrite Hn, has_node_add_node, orb_assoc. reflexivity.
    + intros -> _ Hnil.
      assert (Hx : has_node (fold_left add_node l (add_node (mkDiGraph [] []) x)) x
                   = true).
      { rewrite Hn, has_node_add_node, Package_eq_refl. reflexivity. }
      unfold has_node in Hx. rewrite Hnil in Hx. discriminate.
Qed.

Lemma has_edge_resolves_to p q :
  existsb (fun pkg => Package_eq pkg p
                      && dep_targets self (dependencies pkg) q)
          (all_records self) = true
  <-> resolves_to self p q.
Proof.
  unfold resolves_to, dep_targets. rewrite existsb_exists. split.
  - intros [r [Hr H]]. apply andb_true_iff in H. destruct H as [Hp H].
    apply existsb_exists in H. destruct H as [[d c] [Hin H]]. simpl in H.
    destruct (get_package self d c) as [[q'|]|] eqn:Eg; try discriminate.
    exists r, d, c, q'. auto.
  - intros [r [d [c [q' [Hr [Hp [Hin [Hg Hq]]]]]]]].
    exists r. split; [exact Hr|]. rewrite Hp. simpl.
    apply existsb_exists. exists (d, c). split; [exact Hin|].
    simpl. rewrite Hg. exact Hq.
Qed.

(** The graph that [build_graph] builds when nothing raises. *)
Lemma build_graph_spec cached self' :
  build_graph (mkGraphObject self cached) = (self', None) ->
  exists G,
    self' = mkGraphObject self (Some G) /\
    (forall u v, has_edge G u v = true <-> resolves_to self u v) /\
    (forall m, has_node G m = true <-> record_like self m) /\
    (nodes G = [] <-> all_records self = []).
Proof.
  unfold build_graph. cbn [graph_packages].
  destruct (add_edges self (all_records self)
              (fold_left add_node (all_records self) (mkDiGraph [] [])))
    as [G raised] eqn:E.
  intros H. injection H as <- ->. exists G. split; [reflexivity|].
  destruct (fold_add_node (all_records self) (mkDiGraph [] []))
    as [He0 [Hn0 Hne0]].
  destruct (add_edges_spec _ _ _ (fun r Hr => Hr) E) as [He [Hm Hn]].
  assert (Hnodes : forall m, has_node G m = true <-> record_like self m).
  { intros m. split.
    - intros Hg. destruct (Hn m Hg) as [H0|Hr]; [|exact Hr].
      rewrite Hn0 in H0. simpl in H0. apply existsb_exists in H0.
      exact H0.
    - intros Hr. apply Hm. rewrite Hn0. simpl. apply existsb_exists.
      exact Hr. }
  split; [|split].
  - intros u v. rewrite He. unfold has_edge at 1. rewrite He0. simpl.
    apply has_edge_resolves_to.
  - exact Hnodes.
  - split.
    + intros Hnil. destruct (all_records self) as [|r l] eqn:Er;
        [reflexivity|].
      assert (Hr : has_node G r = true).
      { apply Hnodes. exists r. split; [|apply Package_eq_refl].
        rewrite Er. left. reflexivity. }
      unfold has_node in Hr. rewrite Hnil in Hr. discriminate.
    + intros Hnil. rewrite Hnil in E. simpl in E. injection E as <-.
      reflexivity.
Qed.

Lemma build_graph_raises cached self' e :
  build_graph (mkGraphObject self cached) = (self', Some e) ->
  exists r d c, In r (all_records self) /\ In (d, c) (dependencies r) /\
                get_package self d c = Raise e.
Proof.
  unfold build_graph. cbn [graph_packages].
  destruct (add_edges self (all_records self)
              (fold_left add_node (all_records self) (mkDiGraph [] [])))
    as [G raised] eqn:E.
  intros H. injection H as _ ->. eapply add_edges_raises; eauto.
Qed.
End BuildGraph.

Lemma successors_selected G p l :
  successors G p = Some l ->
  forall q, selected l q <-> has_edge G p q = true.
Proof.
  unfold successors. destruct (has_node G p); [|discriminate].
  intros H q. injection H as <-. unfold selected, has_edge.
  rewrite existsb_exists. split.
  - intros [q' [Hin Hq]]. apply in_map_iff in Hin.
    destruct Hin as [e [<- He]]. apply filter_In in He.
    destruct He as [He Hp]. exists e. rewrite Hp, Hq. auto.
  - intros [e [He H]]. apply andb_true_iff in H. destruct H as [Hp Hq].
    exists (snd e). split; [|exact Hq]. apply in_map.
    apply filter_In. auto.
Qed.

Lemma predecessors_selected G q l :
  predecessors G q = Some l ->
  forall p, selected l p <-> has_edge G p q = true.
Proof.
  unfold predecessors. destruct (has_node G q); [|discriminate].
  intros H p. injection H as <-. unfold selected, has_edge.
  rewrite existsb_exists. split.
  - intros [p' [Hin Hp]]. apply in_map_iff in Hin.
    destruct Hin as [e [<- He]]. apply filter_In in He.
    destruct He as [He Hq]. exists e. rewrite Hp, Hq. auto.
  - intros [e [He H]]. apply andb_true_iff in H. destruct H as [Hp Hq].
    exists (fst e). split; [|exact Hp]. apply in_map.
    apply filter_In. auto.
Qed.

(** X26.  What [get_dependencies] answers on a graph that was not built
    yet.  When it returns a set, the members are, up to [==], the records
    that the dependencies of the package resolve to with [get_package],
    and the package is one of the records or the graph has no record at
    all (an empty graph answers the empty set for any package).  It
    raises [NetworkXError] exactly for a package that is no record of a
    graph that has records, and otherwise only what a [get_package] call
    on some dependency of some record raises. *)
Theorem get_dependencies_resolved :
  forall self p,
    match snd (get_dependencies (mkGraphObject self None) p) with
    | Found l =>
        (forall q, selected l q <-> resolves_to self p q) /\
        (all_records self = [] \/
         exists r, In r (all_records self) /\ Package_eq r p = true)
    | Fails NetworkXError =>
        all_records self <> [] /\
        forall r, In r (all_records self) -> Package_eq r p = false
    | Fails (PythonError e) =>
        exists r dep_name constraint,
          In r (all_records self) /\
          In (dep_name, constraint) (dependencies r) /\
          get_package self dep_name constraint = Raise e
    end.
Proof.
  intros self p. unfold get_dependencies, neighbours. cbn [_graph].
  destruct (build_graph (mkGraphObject self None)) as [self1 [e|]] eqn:Eb.
  - cbn [snd]. eapply build_graph_raises; eauto.
  - destruct (build_graph_spec _ _ _ Eb) as [G [-> [He [Hn Hnil]]]].
    cbn [snd _graph].
    destruct (nodes G) as [|x xs] eqn:En.
    + assert (Hrec : all_records self = []) by (apply Hnil; reflexivity).
      split; [|left; exact Hrec].
      intros q. split; [intros [q' [[] _]]|].
      intros [r [_ [_ [_ [Hr _]]]]]. rewrite Hrec in Hr. contradiction.
    + destruct (successors G p) as [l|] eqn:Es.
      * split.
        -- intros q. rewrite (successors_selected _ _ _ Es). apply He.
        -- right. apply Hn. unfold successors in Es.
           destruct (has_node G p); [reflexivity | discriminate].
      * split.
        -- intros Hrec. apply Hnil in Hrec. discriminate.
        -- intros r Hr. destruct (Package_eq r p) eqn:E; [|reflexivity].
           unfold successors in Es.
           assert (Hp : has_node G p = true) by (apply Hn; exists r; auto).
           rewrite Hp in Es. discriminate.
Qed.

(** X27.  [get_dependents] is the converse of [get_dependencies]: when
    the two calls return, [q] is among the dependencies of [p] exactly
    when [p] is among the dependents of [q] (up to [==]). *)
Theorem dependents_converse_of_dependencies :
  forall self p q self1 self2 l1 l2,
    get_dependencies self p = (self1, Found l1) ->
    get_dependents self1 q = (self2, Found l2) ->
    self2 = self1 /\ (selected l1 q <-> selected l2 p).
Proof.
  intros self p q self1 self2 l1 l2. unfold get_dependencies, get_dependents,
    neighbours.
  destruct (match _graph self with
            | Some _ => (self, None)
            | None => build_graph self
            end) as [s1 [e|]] eqn:E1; [discriminate|].
  intros H1. injection H1 as <- H1.
  assert (Hs : exists G, _graph s1 = Some G).
  { destruct (_graph self) as [G|] eqn:Eg.
    - injection E1 as <-. eauto.
    - unfold build_graph in E1.
      destruct (add_edges _ _ _) as [G r]. injection E1 as <- _.
      simpl. eauto. }
  destruct Hs as [G HG]. rewrite HG in *. intros H2.
  injection H2 as <- H2. rewrite HG in H2. split; [reflexivity|].
  revert H1 H2. destruct (nodes G) as [|x xs]; intros H1 H2.
  - injection H1 as <-. injection H2 as <-.
    split; intros [z [[] _]].
  - destruct (successors G p) as [s|] eqn:Es; [|discriminate].
    destruct (predecessors G q) as [t|] eqn:Et; [|discriminate].
    injection H1 as <-. injection H2 as <-.
    rewrite (successors_selected _ _ _ Es), (predecessors_selected _ _ _ Et).
    reflexivity.
Qed.

Lemma dependents_converse_of_dependencies_witness :
  exists self1 l1 l2,
    get_dependencies (mkGraphObject test_graph None) (package "A" "1.0.0" [])
    = (self1, Found l1) /\
    get_dependents self1 (package "B" "1.0.0" []) = (self1, Found l2) /\
    (selected l1 (package "B" "1.0.0" []) <->
     selected l2 (package "A" "1.0.0" [])).
Proof.
  destruct (get_dependencies (mkGraphObject test_graph None)
              (package "A" "1.0.0" [])) as [self1 [l1|e]] eqn:H1;
    [|vm_compute in H1; discriminate H1].
  destruct (get_dependents self1 (package "B" "1.0.0" []))
    as [self2 [l2|e]] eqn:H2.
  - destruct (dependents_converse_of_dependencies _ _ _ _ _ _ _ H1 H2)
      as [-> H].
    exists self1, l1, l2. split; [reflexivity|]. split; [exact H2 | exact H].
  - exfalso. vm_compute in H1. injection H1 as <- _.
    vm_compute in H2. discriminate H2.
Defined.

Lemma fold_add_package_graph l :
  forall s, _graph (fold_left GraphObject_add_package l s) = _graph s.
Proof.
  induction l as [|x l IH]; intros s; simpl; [reflexivity|].
  rewrite IH. reflexivity.
Qed.

(** X28.  The dependency graph is built once: after a first
    [get_dependencies] or [get_dependents] call, whatever it answered or
    raised, packages that are added to the [PackageGraph] change no later
    answer; the built graph is not brought up to date. *)
Theorem dependency_graph_is_not_rebuilt :
  forall self p added q,
    let self1 := fst (get_dependencies self p) in
    let self2 := fold_left GraphObject_add_package added self1 in
    snd (get_dependencies self2 q) = snd (get_dependencies self1 q) /\
    snd (get_dependents self2 q) = snd (get_dependents self1 q) /\
    _graph (fst (get_dependencies self2 q)) = _graph self1.
Proof.
  intros self p added q self1 self2.
  assert (Hs : exists G, _graph self1 = Some G).
  { unfold self1, get_dependencies, neighbours.
    destruct (_graph self) as [G|] eqn:Eg.
    - simpl. rewrite Eg. eauto.
    - unfold build_graph.
      destruct (add_edges _ _ _) as [G [e|]]; simpl; eauto. }
  destruct Hs as [G HG].
  assert (H2 : _graph self2 = Some G)
    by (unfold self2; rewrite fold_add_package_graph; exact HG).
  unfold get_dependencies, get_dependents, neighbours.
  rewrite H2, HG. cbn [snd fst]. rewrite H2, HG. auto.
Qed.
